(** * SwaV loss and Gaussian blur of lightly: a shallow embedding

    The development follows [lightly/loss/swav_loss.py] and
    [lightly/transforms/gaussian_blur.py].

    Tensor arithmetic is idealised: an element of a tensor is a real number
    of the Standard Library, so rounding, overflow and the non-finite values
    of floating point have no counterpart here; in particular a division by
    zero, which gives [inf] or [nan] in torch, has the value the Standard
    Library gives it.  The tensors handled are two-dimensional (samples by
    prototypes), as the loss expects them.  Shapes, broadcasting, the
    exceptions raised by the tensor operations and the calls to the
    collective [all_reduce] are modelled as the code has them. *)

From Stdlib Require Import Ascii String.
From Stdlib Require Import Reals Lra Lia List ZArith Bool Arith PeanoNat.
From Stdlib Require Import FunctionalExtensionality.
Import ListNotations.

Local Open Scope R_scope.

(** ** Lists of reals *)

Fixpoint sum_list (xs : list R) : R :=
  match xs with
  | [] => 0
  | x :: xs' => x + sum_list xs'
  end.

Fixpoint zipWith {A B C : Type} (f : A -> B -> C) (xs : list A) (ys : list B)
  : list C :=
  match xs, ys with
  | x :: xs', y :: ys' => f x y :: zipWith f xs' ys'
  | _, _ => []
  end.

(** ** Two-dimensional tensors

    A tensor of shape [(nrows, ncols)] is kept as its list of rows together
    with the number of columns, so that a tensor without rows still has a
    shape. *)

Record Tensor : Type := mkTensor { ncols : nat; rows : list (list R) }.

Definition nrows (T : Tensor) : nat := length (rows T).

Definition shape (T : Tensor) : nat * nat := (nrows T, ncols T).

Definition wf (T : Tensor) : Prop :=
  Forall (fun r => length r = ncols T) (rows T).

(** Element-wise operations keep the shape. *)
Definition tmap (f : R -> R) (T : Tensor) : Tensor :=
  mkTensor (ncols T) (map (map f) (rows T)).

(** [torch.exp] *)
Definition texp (T : Tensor) : Tensor := tmap exp T.

(** [T / s] and [T /= s] for a number or a zero-dimensional tensor [s] *)
Definition div_scalar (T : Tensor) (s : R) : Tensor :=
  tmap (fun x => x / s) T.

(** [T *= s] *)
Definition mul_scalar (T : Tensor) (s : R) : Tensor :=
  tmap (fun x => x * s) T.

(** [T.t()] *)
Definition column (j : nat) (rs : list (list R)) : list R :=
  map (fun r => nth j r 0) rs.

Definition t (T : Tensor) : Tensor :=
  mkTensor (nrows T) (map (fun j => column j (rows T)) (seq 0 (ncols T))).

(** [torch.sum(T)] *)
Definition tsum (T : Tensor) : R := sum_list (map sum_list (rows T)).

(** [torch.sum(T, dim=1, keepdim=True)]: a column vector of shape
    [(nrows, 1)], kept as the list of its entries. *)
Definition sum_dim1 (T : Tensor) : list R := map sum_list (rows T).

(** [torch.sum(T, dim=0, keepdim=True)]: a row vector of shape
    [(1, ncols)], kept as the list of its entries. *)
Definition sum_dim0 (T : Tensor) : list R :=
  fold_right (zipWith Rplus) (repeat 0 (ncols T)) (rows T).

(** [T /= v] for a column vector [v] of shape [(nrows, 1)]: broadcasting
    divides every entry of row [i] by [v[i]].  The shape of [T] is kept
    whatever [v] holds. *)
Fixpoint div_rows_list (rs : list (list R)) (v : list R) : list (list R) :=
  match rs with
  | [] => []
  | r :: rs' => map (fun x => x / hd 0 v) r :: div_rows_list rs' (tl v)
  end.

Definition div_rows (T : Tensor) (v : list R) : Tensor :=
  mkTensor (ncols T) (div_rows_list (rows T) v).

(** [T /= v] for a row vector [v] of shape [(1, ncols)]: broadcasting divides
    every entry of column [j] by [v[j]]. *)
Definition div_cols (T : Tensor) (v : list R) : Tensor :=
  mkTensor (ncols T) (map (fun r => zipWith Rdiv r v) (rows T)).

(** [torch.cat((A, B))] along dimension 0, for tensors with the same number of
    columns. *)
Definition vcat (A B : Tensor) : Tensor :=
  mkTensor (ncols A) (rows A ++ rows B).

(** ** The distributed environment and collective calls *)

(** What [torch.distributed] answers on a process. *)
Record Dist : Type := mkDist {
  is_available : bool;
  is_initialized : bool;
  get_world_size : nat
}.

(** A computation of one process.  [AllReduce x k] is a call of
    [dist.all_reduce] on a tensor with entries [x]; the call overwrites the
    tensor with the reduced entries, which the continuation receives. *)
Inductive Prog (A : Type) : Type :=
| Ret (a : A)
| AllReduce (x : list R) (k : list R -> Prog A).

Arguments Ret {A} a.
Arguments AllReduce {A} x k.

Fixpoint bind {A B : Type} (p : Prog A) (f : A -> Prog B) : Prog B :=
  match p with
  | Ret a => f a
  | AllReduce x k => AllReduce x (fun y => bind (k y) f)
  end.

Definition all_reduce (x : list R) : Prog (list R) := AllReduce x Ret.

Declare Scope prog_scope.
Delimit Scope prog_scope with prog.
Notation "x <- c1 ;; c2" := (bind c1 (fun x => c2))
  (at level 61, c1 at next level, right associativity) : prog_scope.

Local Open Scope prog_scope.

(** ** sinkhorn *)

(** [if world_size > 1: dist.all_reduce(x)] *)
Definition reduce_if_distributed (world_size : nat) (x : list R)
  : Prog (list R) :=
  if (1 <? world_size)%nat then all_reduce x else Ret x.

(** The body of [for _ in range(iterations)], once per iteration. *)
Fixpoint sinkhorn_loop (world_size B : nat) (iterations : nat) (Q : Tensor)
  : Prog Tensor :=
  match iterations with
  | O => Ret Q
  | S n =>
      (* Normalize rows *)
      sum_of_rows <- reduce_if_distributed world_size (sum_dim1 Q) ;;
      let Q := div_rows Q sum_of_rows in
      (* Normalize columns *)
      let Q := div_cols Q (sum_dim0 Q) in
      let Q := div_scalar Q (INR B) in
      sinkhorn_loop world_size B n Q
  end.

Definition sinkhorn (dist : Dist) (out : Tensor) (iterations : Z)
  (epsilon : R) (gather_distributed : bool) : Prog Tensor :=
  let world_size :=
    if gather_distributed && is_initialized dist
    then get_world_size dist else 1%nat in
  (* Get the exponential matrix and make it sum to 1 *)
  let Q := t (texp (div_scalar out epsilon)) in
  sum_Q <- reduce_if_distributed world_size [tsum Q] ;;
  let Q := div_scalar Q (hd 0 sum_Q) in
  let B := (ncols Q * world_size)%nat in
  Q <- sinkhorn_loop world_size B (Z.to_nat iterations) Q ;;
  let Q := mul_scalar Q (INR B) in
  Ret (t Q).

(** The world size [sinkhorn] works with. *)
Definition world_size_of (dist : Dist) (gather_distributed : bool) : nat :=
  if gather_distributed && is_initialized dist
  then get_world_size dist else 1%nat.

(** ** Running the processes of a world together

    All processes run the same program in lock step: a round of
    [all_reduce] takes the entries contributed by every process and hands
    their element-wise sum to each of them.  A world in which some process
    returns while another waits in a collective call is stuck ([None]). *)

Fixpoint reduce_sum (x : list R) (others : list (list R)) : list R :=
  match others with
  | [] => x
  | y :: ys => zipWith Rplus x (reduce_sum y ys)
  end.

Fixpoint all_rets {A : Type} (ps : list (Prog A)) : option (list A) :=
  match ps with
  | [] => Some []
  | Ret a :: ps' => option_map (cons a) (all_rets ps')
  | AllReduce _ _ :: _ => None
  end.

Fixpoint all_calls {A : Type} (ps : list (Prog A))
  : option (list (list R * (list R -> Prog A))) :=
  match ps with
  | [] => Some []
  | AllReduce x k :: ps' => option_map (cons (x, k)) (all_calls ps')
  | Ret _ :: _ => None
  end.

Fixpoint run_spmd_from {A : Type} (p : Prog A) (others : list (Prog A))
  : option (list A) :=
  match p with
  | Ret a => option_map (cons a) (all_rets others)
  | AllReduce x k =>
      match all_calls others with
      | Some cs =>
          let total := reduce_sum x (map fst cs) in
          run_spmd_from (k total) (map (fun c => snd c total) cs)
      | None => None
      end
  end.

Definition run_spmd {A : Type} (ps : list (Prog A)) : option (list A) :=
  match ps with
  | [] => Some []
  | p :: others => run_spmd_from p others
  end.

(** A property of every value a process can return, whatever the collective
    calls hand back. *)
Fixpoint all_leaves {A : Type} (P : A -> Prop) (p : Prog A) : Prop :=
  match p with
  | Ret a => P a
  | AllReduce _ k => forall y, all_leaves P (k y)
  end.

(** ** Exceptions *)

Inductive exn : Type := ValueError | IndexError | RuntimeError | TypeError.

Inductive result (A : Type) : Type :=
| Ok (a : A)
| Err (e : exn).

Arguments Ok {A} a.
Arguments Err {A} e.

Definition is_ok {A : Type} (r : result A) : bool :=
  match r with Ok _ => true | Err _ => false end.

(** Computations of a process that may raise. *)
Definition M (A : Type) : Type := Prog (result A).

Definition mret {A : Type} (a : A) : M A := Ret (Ok a).

Definition raise {A : Type} (e : exn) : M A := Ret (Err e).

Fixpoint mbind {A B : Type} (p : M A) (f : A -> M B) : M B :=
  match p with
  | Ret (Ok a) => f a
  | Ret (Err e) => Ret (Err e)
  | AllReduce x k => AllReduce x (fun y => mbind (k y) f)
  end.

Definition lift {A : Type} (r : result A) : M A := Ret r.

Definition liftP {A : Type} (p : Prog A) : M A := bind p mret.

Notation "x <~ c1 ;; c2" := (mbind c1 (fun x => c2))
  (at level 61, c1 at next level, right associativity) : prog_scope.

(** [for i in range(n): s = body(i, s)] *)
Fixpoint for_each {S : Type} (idx : list nat) (body : nat -> S -> M S)
  (s : S) : M S :=
  match idx with
  | [] => mret s
  | i :: idx' => s' <~ body i s ;; for_each idx' body s'
  end.

Definition range (n : nat) : list nat := seq 0 n.

(** [xs[i]] for an index [i >= 0] *)
Definition index {A : Type} (xs : list A) (i : nat) : result A :=
  match nth_error xs i with
  | Some x => Ok x
  | None => Err IndexError
  end.

(** ** Tensor operations of the loss *)

(** [F.log_softmax(T, dim=1)] *)
Definition log_softmax_row (r : list R) : list R :=
  let lse := ln (sum_list (map exp r)) in
  map (fun x => x - lse) r.

Definition log_softmax (T : Tensor) : Tensor :=
  mkTensor (ncols T) (map log_softmax_row (rows T)).

(** Broadcasting of one dimension: equal sizes, or one of them is 1. *)
Definition broadcast_dim (a b : nat) : result nat :=
  if (a =? b)%nat then Ok a
  else if (a =? 1)%nat then Ok b
  else if (b =? 1)%nat then Ok a
  else Err RuntimeError.

(** [T.expand(r, c)] where each dimension of [T] is the target size or 1. *)
Definition expand (T : Tensor) (r c : nat) : Tensor :=
  let rs := if (ncols T =? c)%nat then rows T
            else map (fun row => repeat (hd 0 row) c) (rows T) in
  let rs := if (nrows T =? r)%nat then rs else repeat (hd [] rs) r in
  mkTensor c rs.

(** [A * B] with broadcasting *)
Definition tmul (A B : Tensor) : result Tensor :=
  match broadcast_dim (nrows A) (nrows B),
        broadcast_dim (ncols A) (ncols B) with
  | Ok r, Ok c =>
      Ok (mkTensor c (zipWith (zipWith Rmult)
                        (rows (expand A r c)) (rows (expand B r c))))
  | _, _ => Err RuntimeError
  end.

(** [torch.mean] of a one-dimensional tensor *)
Definition mean (xs : list R) : R := sum_list xs / INR (length xs).

(** [torch.cat((A, B))]: the sizes must match except in dimension 0. *)
Definition cat (A B : Tensor) : result Tensor :=
  if (ncols A =? ncols B)%nat then Ok (vcat A B) else Err RuntimeError.

(** [T[:n]] *)
Definition slice_rows (T : Tensor) (n : nat) : Tensor :=
  mkTensor (ncols T) (firstn n (rows T)).

(** [T.new_zeros(n)]: a one-dimensional tensor *)
Definition new_zeros (n : nat) : list R := repeat 0 n.

(** [v += s] for a one-dimensional tensor [v] and a zero-dimensional [s] *)
Definition iadd_scalar (v : list R) (s : R) : list R :=
  map (fun x => x + s) v.

(** [v += w] for one-dimensional tensors of the same shape *)
Definition iadd (v w : list R) : list R := zipWith Rplus v w.

(** ** SwaVLoss *)

Module SwaVLoss.

Record Self : Type := mkSelf {
  temperature : R;
  sinkhorn_iterations : Z;
  sinkhorn_epsilon : R;
  sinkhorn_gather_distributed : bool
}.

Definition __init__ (dist : Dist) (temperature : R) (sinkhorn_iterations : Z)
  (sinkhorn_epsilon : R) (sinkhorn_gather_distributed : bool)
  : result Self :=
  if sinkhorn_gather_distributed && negb (is_available dist)
  then Err ValueError
  else Ok (mkSelf temperature sinkhorn_iterations sinkhorn_epsilon
             sinkhorn_gather_distributed).

Definition subloss (self : Self) (z q : Tensor) : result R :=
  match tmul q (log_softmax (div_scalar z (temperature self))) with
  | Ok P => Ok (- mean (sum_dim1 P))
  | Err e => Err e
  end.

Definition forward (self : Self) (dist : Dist)
  (high_resolution_outputs low_resolution_outputs : list Tensor)
  (queue_outputs : option (list Tensor)) : M (list R) :=
  let n_crops := (Z.of_nat (length high_resolution_outputs)
                  + Z.of_nat (length low_resolution_outputs))%Z in
  (* Multi-crop iterations *)
  h0 <~ lift (index high_resolution_outputs 0) ;;
  let loss := new_zeros 1 in
  loss <~ for_each (range (length high_resolution_outputs)) (fun i loss =>
    (* Compute codes of i-th high resolution crop *)
    hi <~ lift (index high_resolution_outputs i) ;;
    let outputs := hi in
    (* Append queue outputs *)
    outputs <~ match queue_outputs with
               | Some queue =>
                   qi <~ lift (index queue i) ;; lift (cat outputs qi)
               | None => mret outputs
               end ;;
    (* Compute the codes *)
    q <~ liftP (sinkhorn dist outputs (sinkhorn_iterations self)
                  (sinkhorn_epsilon self)
                  (sinkhorn_gather_distributed self)) ;;
    (* Drop queue similarities *)
    let q := match queue_outputs with
             | Some _ => slice_rows q (nrows hi)
             | None => q
             end in
    (* Compute subloss for each pair of crops *)
    let sub := new_zeros 1 in
    sub <~ for_each (range (length high_resolution_outputs)) (fun v sub =>
      if (v =? i)%nat then mret sub
      else
        hv <~ lift (index high_resolution_outputs v) ;;
        s <~ lift (subloss self hv q) ;;
        mret (iadd_scalar sub s)) sub ;;
    sub <~ for_each (range (length low_resolution_outputs)) (fun v sub =>
      lv <~ lift (index low_resolution_outputs v) ;;
      s <~ lift (subloss self lv q) ;;
      mret (iadd_scalar sub s)) sub ;;
    mret (iadd loss (map (fun x => x / IZR (n_crops - 1)) sub))) loss ;;
  mret (map (fun x => x / INR (length high_resolution_outputs)) loss).

End SwaVLoss.

(** ** GaussianBlur *)

Module GaussianBlur.

Section Transform.

(** Image tensors, PIL images and the state of numpy's global random
    generator are opaque here. *)
Variables TensorImage Image RandomState : Type.

(** [F.to_pil_image] and [F.to_tensor] of the torchvision compatibility
    layer, and [Image.filter(ImageFilter.GaussianBlur(radius))] of PIL; each
    may raise. *)
Variable to_pil_image : TensorImage -> result Image.
Variable to_tensor : Image -> result TensorImage.
Variable gaussian_filter : R -> Image -> result Image.

(** [np.random.random_sample()] and [np.random.uniform(low, high)] *)
Variable random_sample : RandomState -> R * RandomState.
Variable uniform : R -> R -> RandomState -> R * RandomState.

(** [Union[Tensor, Image]] *)
Inductive Sample : Type :=
| IsTensor (x : TensorImage)
| IsImage (img : Image).

Definition is_tensor (s : Sample) : bool :=
  match s with IsTensor _ => true | IsImage _ => false end.

Definition is_image (s : Sample) : bool :=
  match s with IsTensor _ => false | IsImage _ => true end.

Record Self : Type := mkSelf { prob : R; sigmas : R * R }.

(** The constructor warns about the deprecated arguments and keeps
    [prob] and [sigmas]. *)
Definition __init__ (kernel_size : option R) (prob : R) (scale : option R)
  (sigmas : R * R) : Self * bool :=
  let warned :=
    match scale, kernel_size with
    | None, None => false
    | _, _ => true
    end in
  (mkSelf prob sigmas, warned).

Definition __call__ (self : Self) (sample : Sample) (st : RandomState)
  : result Sample * RandomState :=
  let (p, st) := random_sample st in
  (* Convert to PIL image if it's a tensor, otherwise use as is *)
  let is_input_tensor := is_tensor sample in
  match (match sample with
         | IsTensor x => to_pil_image x
         | IsImage img => Ok img
         end) with
  | Err e => (Err e, st)
  | Ok sample_pil =>
      let (blurred, st) :=
        if Rlt_dec p (prob self) then
          (* choose randomized std for Gaussian filtering *)
          let (sigma, st) := uniform (fst (sigmas self)) (snd (sigmas self)) st in
          (gaussian_filter sigma sample_pil, st)
        else (Ok sample_pil, st) in
      match blurred with
      | Err e => (Err e, st)
      | Ok sample_pil =>
          (* Convert back to tensor if input was a tensor *)
          if is_input_tensor then
            match to_tensor sample_pil with
            | Ok x => (Ok (IsTensor x), st)
            | Err e => (Err e, st)
            end
          else (Ok (IsImage sample_pil), st)
      end
  end.

End Transform.

Arguments IsTensor {TensorImage Image} x.
Arguments IsImage {TensorImage Image} img.
Arguments is_tensor {TensorImage Image} s.
Arguments is_image {TensorImage Image} s.

End GaussianBlur.

(** ** The statements of the specification, written from its words *)

(** Entry [(i, j)] of a tensor, and the tensor with given entries. *)
Definition entry (T : Tensor) (i j : nat) : R := nth j (nth i (rows T) []) 0.

Definition tabulate (r c : nat) (f : nat -> nat -> R) : Tensor :=
  mkTensor c (map (fun i => map (fun j => f i j) (seq 0 c)) (seq 0 r)).

Definition row_sum (T : Tensor) (i : nat) : R :=
  sum_list (map (fun j => entry T i j) (seq 0 (ncols T))).

Definition col_sum (T : Tensor) (j : nat) : R :=
  sum_list (map (fun i => entry T i j) (seq 0 (nrows T))).

Definition total_sum (T : Tensor) : R :=
  sum_list (map (row_sum T) (seq 0 (nrows T))).

Module Spec.

(** The transpose of [exp(out / epsilon)]. *)
Definition initial (out : Tensor) (epsilon : R) : Tensor :=
  tabulate (ncols out) (nrows out) (fun i j => exp (entry out j i / epsilon)).

(** [Q] divided by a number. *)
Definition scaled (Q : Tensor) (s : R) : Tensor :=
  tabulate (nrows Q) (ncols Q) (fun i j => entry Q i j / s).

(** Each row of [Q] divided by that row's sum, [sums] holding the sums. *)
Definition rows_normalized (Q : Tensor) (sums : list R) : Tensor :=
  tabulate (nrows Q) (ncols Q) (fun i j => entry Q i j / nth i sums 0).

(** Each column of [Q] divided by that column's sum and by [B]. *)
Definition cols_normalized (Q : Tensor) (B : nat) : Tensor :=
  tabulate (nrows Q) (ncols Q) (fun i j => entry Q i j / col_sum Q j / INR B).

(** [Q * B], transposed back. *)
Definition final (Q : Tensor) (B : nat) : Tensor :=
  tabulate (ncols Q) (nrows Q) (fun i j => entry Q j i * INR B).

(** A sum over the processes when there are several, the local one
    otherwise. *)
Definition summed (world_size : nat) (x : list R) : Prog (list R) :=
  if (world_size <=? 1)%nat then Ret x else AllReduce x Ret.

Fixpoint iterated (world_size B n : nat) (Q : Tensor) : Prog Tensor :=
  match n with
  | O => Ret Q
  | S n' =>
      sums <- summed world_size (map (row_sum Q) (seq 0 (nrows Q))) ;;
      iterated world_size B n' (cols_normalized (rows_normalized Q sums) B)
  end.

Definition sinkhorn (world_size : nat) (out : Tensor) (n : nat) (epsilon : R)
  : Prog Tensor :=
  let Q := initial out epsilon in
  total <- summed world_size [total_sum Q] ;;
  let Q := scaled Q (nth 0 total 0) in
  let B := (ncols Q * world_size)%nat in
  Q <- iterated world_size B n Q ;;
  Ret (final Q B).

(** Softmax along a row, and the cross entropy of the codes [q] with the
    predictions [z]. *)
Definition softmax (x : list R) (j : nat) : R :=
  exp (nth j x 0) / sum_list (map exp x).

Definition scaled_row (z : Tensor) (temperature : R) (i : nat) : list R :=
  map (fun j => entry z i j / temperature) (seq 0 (ncols z)).

Definition subloss (temperature : R) (z q : Tensor) : R :=
  - (sum_list
       (map (fun i =>
          sum_list
            (map (fun j =>
               entry q i j * ln (softmax (scaled_row z temperature i) j))
               (seq 0 (ncols q))))
          (seq 0 (nrows q)))
     / INR (nrows q)).

(** The value of a subloss that does not raise. *)
Definition subloss_value (self : SwaVLoss.Self) (z q : Tensor) : R :=
  match SwaVLoss.subloss self z q with
  | Ok x => x
  | Err _ => 0
  end.

(** The multi-crop aggregate for the codes [qs] of the high resolution
    crops. *)
Definition crop_term (self : SwaVLoss.Self) (high low : list Tensor)
  (i : nat) (q : Tensor) : R :=
  1 / INR (length high + length low - 1)
  * (sum_list
       (map (fun v => subloss_value self (nth v high (mkTensor 0 [])) q)
          (filter (fun v => negb (v =? i)%nat) (seq 0 (length high))))
     + sum_list
         (map (fun v => subloss_value self (nth v low (mkTensor 0 [])) q)
            (seq 0 (length low)))).

Definition forward (self : SwaVLoss.Self) (high low : list Tensor)
  (qs : list Tensor) : R :=
  1 / INR (length high)
  * sum_list
      (map (fun i => crop_term self high low i (nth i qs (mkTensor 0 [])))
         (seq 0 (length high))).

End Spec.

(** The codes of all high resolution crops, in order. *)
Fixpoint map_prog {A B : Type} (f : A -> Prog B) (xs : list A)
  : Prog (list B) :=
  match xs with
  | [] => Ret []
  | x :: xs' => y <- f x ;; ys <- map_prog f xs' ;; Ret (y :: ys)
  end.

(** Two tensors whose shapes broadcast against each other. *)
Definition compatible (a b : Tensor) : bool :=
  is_ok (broadcast_dim (nrows a) (nrows b))
  && is_ok (broadcast_dim (ncols a) (ncols b)).

(** The row-concatenation of the shards of a batch, and the shard of
    process [k] in a tensor made of shards of [n] rows. *)
Definition concat_shards (K : nat) (outs : list Tensor) : Tensor :=
  mkTensor K (concat (map rows outs)).

Definition shard (n : nat) (T : Tensor) (k : nat) : Tensor :=
  mkTensor (ncols T) (firstn n (skipn (k * n) (rows T))).

(** One iteration of [sinkhorn] once the sums of the rows are known, and the
    run of a process that needs no collective call. *)
Definition normalize_step (B : nat) (Q : Tensor) (sum_of_rows : list R)
  : Tensor :=
  let Q := div_rows Q sum_of_rows in
  let Q := div_cols Q (sum_dim0 Q) in
  div_scalar Q (INR B).

Fixpoint local_loop (B n : nat) (Q : Tensor) : Tensor :=
  match n with
  | O => Q
  | S n' => local_loop B n' (normalize_step B Q (sum_dim1 Q))
  end.

Definition sinkhorn_local (out : Tensor) (iterations : Z) (epsilon : R)
  : Tensor :=
  let Q := t (texp (div_scalar out epsilon)) in
  let Q := div_scalar Q (tsum Q) in
  let B := ncols Q in
  t (mul_scalar (local_loop B (Z.to_nat iterations) Q) (INR B)).

(** ** Notions used by the properties *)

(** All entries of a tensor are positive. *)
Definition positive (Q : Tensor) : Prop :=
  forall i j, (i < nrows Q)%nat -> (j < ncols Q)%nat -> 0 < entry Q i j.

(** Two tensors, and the tensors of all processes, side by side. *)
Definition hcat (A B : Tensor) : Tensor :=
  mkTensor (ncols A + ncols B)%nat (zipWith (@app R) (rows A) (rows B)).

Fixpoint hcat_all (Q : Tensor) (Qs : list Tensor) : Tensor :=
  match Qs with
  | [] => Q
  | Q' :: Qs' => hcat Q (hcat_all Q' Qs')
  end.

(** The iterations of a world in lock step: every process normalises with
    the sums of the rows over all processes. *)
Fixpoint spmd_loop (B n : nat) (Q : Tensor) (Qs : list Tensor)
  : Tensor * list Tensor :=
  match n with
  | O => (Q, Qs)
  | S n' =>
      let total := reduce_sum (sum_dim1 Q) (map sum_dim1 Qs) in
      spmd_loop B n' (normalize_step B Q total)
        (map (fun Q' => normalize_step B Q' total) Qs)
  end.

(** Shards that can be set side by side: well formed, with [K] rows. *)
Definition shard_of (K : nat) (Q : Tensor) : Prop := wf Q /\ nrows Q = K.

(** The matrix [Q] a process starts from. *)
Definition initial_Q (epsilon : R) (out : Tensor) : Tensor :=
  t (texp (div_scalar out epsilon)).

(** Crop [i] passes when its queue entry exists with as many columns, and the
    shape of every crop broadcasts against the shape of crop [i]. *)
Definition crop_shapes_ok (high low : list Tensor)
  (queue : option (list Tensor)) (i : nat) : bool :=
  match nth_error high i with
  | None => false
  | Some hi =>
      match queue with
      | None => true
      | Some qs =>
          match nth_error qs i with
          | Some qi => (ncols hi =? ncols qi)%nat
          | None => false
          end
      end
      && (forallb (compatible hi) high && forallb (compatible hi) low)
  end.

Definition shapes_ok (high low : list Tensor) (queue : option (list Tensor))
  : bool :=
  negb (length high =? 0)%nat
  && forallb (crop_shapes_ok high low queue) (range (length high)).

Definition leaf_ok {A : Type} (ok : bool) (Inv : A -> Prop) (r : result A)
  : Prop :=
  match r with
  | Ok a => ok = true /\ Inv a
  | Err _ => ok = false
  end.

(** Every run of a process makes exactly [n] collective calls, whatever the
    calls hand back. *)
Fixpoint makes_calls {A : Type} (n : nat) (p : Prog A) : Prop :=
  match p, n with
  | Ret _, O => True
  | AllReduce _ k, S n' => forall y, makes_calls n' (k y)
  | _, _ => False
  end.

(** [T + c] for a number [c] *)
Definition add_scalar (T : Tensor) (c : R) : Tensor :=
  tmap (fun x => x + c) T.

(** ** The report of a benchmark run

    [eval_metrics_to_markdown] of [benchmarks/imagenet/resnet50/main.py].  A
    dictionary is kept as the list of its items in insertion order; the
    length of a string counts its characters. *)

Module Benchmark.

Section Report.

(** Metric values, and [f"{value:.2f}"]. *)
Variable Value : Type.
Variable format_value : Value -> string.

Definition EVAL_NAME_COLUMN_NAME : string := "Eval Name".
Definition METRIC_COLUMN_NAME : string := "Metric Name".
Definition VALUE_COLUMN_NAME : string := "Value".

(** [c * n] for a character [c] *)
Fixpoint replicate (c : ascii) (n : nat) : string :=
  match n with
  | O => EmptyString
  | S n' => String c (replicate c n')
  end.

(** [s.ljust(n)]: [s] padded with spaces on the right up to [n] characters,
    and [s] itself when it is longer. *)
Definition ljust (s : string) (n : nat) : string :=
  (s ++ replicate " "%char (n - String.length s))%string.

(** [max(xs)]: raises on an empty sequence. *)
Definition max_of (xs : list nat) : result nat :=
  match xs with
  | [] => Err ValueError
  | x :: xs' => Ok (fold_left Nat.max xs' x)
  end.

Definition Metrics : Type := list (string * list (string * Value)).

Definition row (w1 w2 w3 : nat) (c1 c2 c3 : string) : string :=
  ("| " ++ ljust c1 w1 ++ " | " ++ ljust c2 w2 ++ " | " ++ ljust c3 w3
   ++ " |")%string.

(** The local [lines] of [eval_metrics_to_markdown]. *)
Definition table_lines (metrics : Metrics) : result (list string) :=
  match max_of (map String.length
                  (map fst metrics ++ [EVAL_NAME_COLUMN_NAME])) with
  | Err e => Err e
  | Ok eval_name_max_len =>
  match max_of (map String.length
                  (flat_map (fun item =>
                     map fst (snd item) ++ [METRIC_COLUMN_NAME]) metrics)) with
  | Err e => Err e
  | Ok metric_name_max_len =>
  match max_of (map String.length
                  (flat_map (fun item =>
                     map (fun kv => format_value (snd kv)) (snd item)
                     ++ [VALUE_COLUMN_NAME]) metrics)) with
  | Err e => Err e
  | Ok value_max_len =>
      let header :=
        row eval_name_max_len metric_name_max_len value_max_len
          EVAL_NAME_COLUMN_NAME METRIC_COLUMN_NAME VALUE_COLUMN_NAME in
      let separator :=
        ("|:" ++ replicate "-"%char eval_name_max_len
         ++ ":|:" ++ replicate "-"%char metric_name_max_len
         ++ ":|:" ++ replicate "-"%char value_max_len ++ ":|")%string in
      Ok ([header; separator]
          ++ flat_map (fun item =>
               map (fun kv =>
                      row eval_name_max_len metric_name_max_len value_max_len
                        (fst item) (fst kv) (format_value (snd kv)))
                 (snd item)) metrics)
  end end end.

Definition eval_metrics_to_markdown (metrics : Metrics) : result string :=
  match table_lines metrics with
  | Ok lines => Ok (String.concat (String "010"%char EmptyString) lines)
  | Err e => Err e
  end.

End Report.

End Benchmark.

(** ** The benchmark driver

    [main] of [benchmarks/imagenet/resnet50/main.py].  What it calls outside
    of the file, and [pretrain], whose body is calls to the training
    framework, are calls of a script: each may return or raise, and the
    script goes on with what the call returned.  Models and directories are
    handles; the arguments that [main] only passes on are left out. *)

Module Driver.

(** What ends a script early: the [KeyError] of [METHODS[method]], or what a
    call or the report raises. *)
Inductive failure : Type :=
| KeyError
| Raised (e : exn).

Inductive outcome (A : Type) : Type :=
| Fine (a : A)
| Failed (f : failure).

Arguments Fine {A} a.
Arguments Failed {A} f.

Definition of_result {A : Type} (r : result A) : outcome A :=
  match r with
  | Ok a => Fine a
  | Err e => Failed (Raised e)
  end.

Section Script.

Variables Model Path Value : Type.
Variable format_value : Value -> string.

(** [METHODS.keys()] *)
Definition METHOD_NAMES : list string :=
  ["barlowtwins"; "byol"; "dcl"; "dclw"; "dino"; "mocov2"; "simclr"; "swav";
   "tico"; "vicreg"]%string.

Inductive message : Type :=
| MsgArgs
| MsgLoggingTo (dir : Path)
| MsgCompiling
| MsgSkipPretraining
| MsgSkipKnn
| MsgSkipLinear
| MsgSkipFinetune
| MsgResultsFor (method : string)
| MsgTable (table : string).

Inductive call : Type -> Type :=
| print_rank_zero (msg : message) : call unit
| seed_everything : call unit
| set_float32_matmul_precision : call unit
| resolve_method_dir (method : string) : call Path
| create_model (method : string) : call Model
| torch_compile (model : Model) : call Model
| load_state_dict (model : Model) (ckpt_path : Path) : call unit
| pretrain (model : Model) (method : string) (log_dir : Path) : call unit
| knn_eval (model : Model) (log_dir : Path) : call (list (string * Value))
| linear_eval (model : Model) (log_dir : Path) : call (list (string * Value))
| finetune_eval (model : Model) (log_dir : Path)
  : call (list (string * Value)).

Inductive Script (A : Type) : Type :=
| Done (r : outcome A)
| Call (X : Type) (c : call X) (k : outcome X -> Script A).

Arguments Done {A} r.
Arguments Call {A X} c k.

Fixpoint sbind {A B : Type} (p : Script A) (f : A -> Script B) : Script B :=
  match p with
  | Done (Fine a) => f a
  | Done (Failed e) => Done (Failed e)
  | Call c k => Call c (fun r => sbind (k r) f)
  end.

Definition perform {X : Type} (c : call X) : Script X := Call c Done.

(** [for x in xs: body(x)] *)
Fixpoint for_in (xs : list string) (body : string -> Script unit)
  : Script unit :=
  match xs with
  | [] => Done (Fine tt)
  | x :: xs' => sbind (body x) (fun _ => for_in xs' body)
  end.

Record Args : Type := mkArgs {
  epochs : Z;
  ckpt_path : option Path;
  compile_model : bool;
  methods : option (list string);
  skip_knn_eval : bool;
  skip_linear_eval : bool;
  skip_finetune_eval : bool;
  (** [hasattr(torch, "compile")] *)
  torch_has_compile : bool
}.

(** The body of [for method in method_names]. *)
Definition run_method (args : Args) (method : string) : Script unit :=
  sbind (perform (resolve_method_dir method)) (fun method_dir =>
  sbind (perform (print_rank_zero (MsgLoggingTo method_dir))) (fun _ =>
  sbind (if in_dec string_dec method METHOD_NAMES
         then perform (create_model method)
         else Done (Failed KeyError)) (fun model =>
  sbind (if compile_model args && torch_has_compile args
         then
           (* Compile model if PyTorch supports it. *)
           sbind (perform (print_rank_zero MsgCompiling)) (fun _ =>
           perform (torch_compile model))
         else Done (Fine model)) (fun model =>
  sbind (if (epochs args <=? 0)%Z
         then
           sbind (perform (print_rank_zero MsgSkipPretraining)) (fun _ =>
           match ckpt_path args with
           | Some ckpt => perform (load_state_dict model ckpt)
           | None => Done (Fine tt)
           end)
         else perform (pretrain model method method_dir)) (fun _ =>
  let eval_metrics : list (string * list (string * Value)) := [] in
  sbind (if skip_knn_eval args
         then sbind (perform (print_rank_zero MsgSkipKnn)) (fun _ =>
              Done (Fine eval_metrics))
         else sbind (perform (knn_eval model method_dir)) (fun d =>
              Done (Fine (eval_metrics ++ [("knn"%string, d)]))))
    (fun eval_metrics =>
  sbind (if skip_linear_eval args
         then sbind (perform (print_rank_zero MsgSkipLinear)) (fun _ =>
              Done (Fine eval_metrics))
         else sbind (perform (linear_eval model method_dir)) (fun d =>
              Done (Fine (eval_metrics ++ [("linear"%string, d)]))))
    (fun eval_metrics =>
  sbind (if skip_finetune_eval args
         then sbind (perform (print_rank_zero MsgSkipFinetune)) (fun _ =>
              Done (Fine eval_metrics))
         else sbind (perform (finetune_eval model method_dir)) (fun d =>
              Done (Fine (eval_metrics ++ [("finetune"%string, d)]))))
    (fun eval_metrics =>
  match eval_metrics with
  | [] => Done (Fine tt)
  | _ :: _ =>
      sbind (perform (print_rank_zero (MsgResultsFor method))) (fun _ =>
      sbind (Done (of_result
                     (Benchmark.eval_metrics_to_markdown Value format_value
                        eval_metrics))) (fun table =>
      perform (print_rank_zero (MsgTable table))))
  end)))))))).

Definition main (args : Args) : Script unit :=
  sbind (perform (print_rank_zero MsgArgs)) (fun _ =>
  sbind (perform seed_everything) (fun _ =>
  sbind (perform set_float32_matmul_precision) (fun _ =>
  let method_names :=
    match methods args with
    | None | Some [] => METHOD_NAMES
    | Some (m :: ms) => m :: ms
    end in
  for_in method_names (run_method args)))).

(** A run of a script in a world that answers every call: the outcome and
    the calls made, in order. *)
Definition event : Type := {X : Type & call X}.

Definition World : Type := forall X : Type, call X -> outcome X.

Fixpoint run {A : Type} (world : World) (p : Script A)
  : outcome A * list event :=
  match p with
  | Done r => (r, [])
  | Call c k =>
      let (r, log) := run world (k (world _ c)) in
      (r, existT _ _ c :: log)
  end.

(** The methods a model was created for, and the number of tables printed,
    in a list of calls. *)
Definition created_method (e : event) : option string :=
  match projT2 e with
  | create_model method => Some method
  | _ => None
  end.

Fixpoint created (log : list event) : list string :=
  match log with
  | [] => []
  | e :: log' =>
      match created_method e with
      | Some method => method :: created log'
      | None => created log'
      end
  end.

Definition is_table (e : event) : bool :=
  match projT2 e with
  | print_rank_zero (MsgTable _) => true
  | _ => false
  end.

Definition tables (log : list event) : nat :=
  length (filter is_table log).

(** The methods [main] goes through, and whether every evaluation is
    skipped. *)
Definition requested (args : Args) : list string :=
  match methods args with
  | None | Some [] => METHOD_NAMES
  | Some (m :: ms) => m :: ms
  end.

Definition all_skipped (args : Args) : bool :=
  skip_knn_eval args && skip_linear_eval args && skip_finetune_eval args.

Definition never_raises (world : World) : Prop :=
  forall (X : Type) (c : call X), exists x, world X c = Fine x.

End Script.

Arguments Done {Model Path Value A} r.
Arguments Call {Model Path Value A X} c k.

(** A world in which every call returns at once: models and directories are
    numbers, and an evaluation reports the one metric [val_top1]. *)
Definition plain_world : World nat nat nat :=
  fun X c =>
    match c in call _ _ _ X return outcome X with
    | print_rank_zero _ _ _ _ => Fine tt
    | seed_everything _ _ _ => Fine tt
    | set_float32_matmul_precision _ _ _ => Fine tt
    | resolve_method_dir _ _ _ _ => Fine 0%nat
    | create_model _ _ _ _ => Fine 1%nat
    | torch_compile _ _ _ model => Fine (S model)
    | load_state_dict _ _ _ _ _ => Fine tt
    | pretrain _ _ _ _ _ _ => Fine tt
    | knn_eval _ _ _ _ _ => Fine [("val_top1"%string, 50%nat)]
    | linear_eval _ _ _ _ _ => Fine [("val_top1"%string, 60%nat)]
    | finetune_eval _ _ _ _ _ => Fine [("val_top1"%string, 70%nat)]
    end.

End Driver.

(** ** The metrics an evaluation returns

    The loop that closes [finetune_eval] of
    [benchmarks/imagenet/resnet50/finetune_eval.py], and [linear_eval] of
    [benchmarks/imagenet/vitb16/linear_eval.py], on the metrics the callback
    holds after [trainer.fit].  A dictionary is the list of its items in
    insertion order; [gt a b] is [a > b] on the values; what
    [print_rank_zero] is given is kept as the metric and its value. *)

Module Eval.

(** [d[key]] *)
Fixpoint getitem {V : Type} (d : list (string * V)) (key : string)
  : Driver.outcome V :=
  match d with
  | [] => Driver.Failed Driver.KeyError
  | (k, v) :: d' => if String.eqb k key then Driver.Fine v else getitem d' key
  end.

(** [d[key] = v]: a key that is there keeps its place. *)
Fixpoint setitem {V : Type} (d : list (string * V)) (key : string) (v : V)
  : list (string * V) :=
  match d with
  | [] => [(key, v)]
  | (k, v') :: d' =>
      if String.eqb k key then (k, v) :: d' else (k, v') :: setitem d' key v
  end.

Section Metrics.

Variable Value : Type.
Variable gt : Value -> Value -> bool.

(** [max(xs)]: an item replaces the greatest so far when it is greater; an
    empty list raises. *)
Definition max_of (xs : list Value) : Driver.outcome Value :=
  match xs with
  | [] => Driver.Failed (Driver.Raised ValueError)
  | x :: xs' =>
      Driver.Fine (fold_left (fun m item => if gt item m then item else m)
                     xs' x)
  end.

(** [for metric in names: print_rank_zero(...); metrics_dict[metric] = ...],
    with the dictionary and the printed lines so far. *)
Fixpoint metrics_loop (val_metrics : list (string * list Value))
  (names : list string) (metrics_dict printed : list (string * Value))
  : Driver.outcome (list (string * Value)) * list (string * Value) :=
  match names with
  | [] => (Driver.Fine metrics_dict, printed)
  | metric :: names' =>
      match getitem val_metrics metric with
      | Driver.Failed f => (Driver.Failed f, printed)
      | Driver.Fine values =>
          match max_of values with
          | Driver.Failed f => (Driver.Failed f, printed)
          | Driver.Fine v =>
              let printed := printed ++ [(metric, v)] in
              match getitem val_metrics metric with
              | Driver.Failed f => (Driver.Failed f, printed)
              | Driver.Fine values =>
                  match max_of values with
                  | Driver.Failed f => (Driver.Failed f, printed)
                  | Driver.Fine v =>
                      metrics_loop val_metrics names'
                        (setitem metrics_dict metric v) printed
                  end
              end
          end
      end
  end.

Definition max_metrics (val_metrics : list (string * list Value))
  : Driver.outcome (list (string * Value)) * list (string * Value) :=
  metrics_loop val_metrics ["val_top1"; "val_top5"]%string [] [].

End Metrics.

End Eval.

(** ** The version check of the package

    The body of [lightly/__init__.py], run when the package is imported in a
    process: the environment it leaves, and whether it starts the check for
    a newer version. *)

Module Lightly.

Definition Env : Type := string -> option string.

(** [os.getenv(key, default)] *)
Definition getenv (env : Env) (key default : string) : string :=
  match env key with
  | Some v => v
  | None => default
  end.

(** [os.environ[key] = value] *)
Definition setenv (env : Env) (key value : string) : Env :=
  fun k => if String.eqb k key then Some value else env k.

Definition import_package (env : Env) (process_name : string) : Env * bool :=
  if String.eqb (getenv env "LIGHTLY_DID_VERSION_CHECK" "False") "False"
  then
    let env := setenv env "LIGHTLY_DID_VERSION_CHECK" "True" in
    if String.eqb process_name "MainProcess"
    then (env, true)
    else (env, false)
  else (env, false).

End Lightly.

(** * Properties *)

(** ** Processes without collective calls *)

Lemma reduce_if_distributed_local (ws : nat) (x : list R) :
  (ws <= 1)%nat -> reduce_if_distributed ws x = Ret x.
Proof.
  intros Hws. unfold reduce_if_distributed.
  destruct (Nat.ltb_spec 1 ws) as [Hlt | _]; [lia | reflexivity].
Qed.

Lemma reduce_if_distributed_world (ws : nat) (x : list R) :
  (1 < ws)%nat -> reduce_if_distributed ws x = AllReduce x Ret.
Proof.
  intros Hws. unfold reduce_if_distributed, all_reduce.
  destruct (Nat.ltb_spec 1 ws) as [_ | Hle]; [reflexivity | lia].
Qed.

Lemma sinkhorn_loop_local (B n : nat) :
  forall Q, sinkhorn_loop 1 B n Q = Ret (local_loop B n Q).
Proof.
  induction n as [| n IH]; intros Q; simpl; [reflexivity |].
  apply IH.
Qed.

Lemma world_size_of_no_gather (dist : Dist) : world_size_of dist false = 1%nat.
Proof. reflexivity. Qed.

Lemma sinkhorn_no_gather (dist : Dist) (out : Tensor) (iterations : Z)
  (epsilon : R) :
  sinkhorn dist out iterations epsilon false
  = Ret (sinkhorn_local out iterations epsilon).
Proof.
  unfold sinkhorn, sinkhorn_local. cbn [andb].
  rewrite reduce_if_distributed_local by lia. cbn [bind hd].
  rewrite sinkhorn_loop_local. cbn [bind].
  rewrite Nat.mul_1_r. reflexivity.
Qed.

(** C7. With [gather_distributed=False] the world size is 1 whatever the
    distributed environment says, the process returns without a single call
    of [all_reduce], and the codes are the same for equal inputs in any two
    environments. *)
Theorem sinkhorn_single_device_deterministic :
  forall (dist1 dist2 : Dist) (out : Tensor) (iterations : Z) (epsilon : R),
    world_size_of dist1 false = 1%nat
    /\ exists codes,
         sinkhorn dist1 out iterations epsilon false = Ret codes
         /\ sinkhorn dist2 out iterations epsilon false = Ret codes.
Proof.
  intros dist1 dist2 out iterations epsilon. split; [reflexivity |].
  exists (sinkhorn_local out iterations epsilon).
  split; apply sinkhorn_no_gather.
Qed.

(** ** The constructor of the loss *)

(** C9. The constructor raises, and then a [ValueError], exactly when
    [sinkhorn_gather_distributed] is set and [torch.distributed] is not
    available; otherwise it returns a module holding the four arguments
    unchanged. *)
Theorem init_raises_iff_gather_unavailable :
  forall (dist : Dist) (temperature : R) (iterations : Z) (epsilon : R)
         (gather : bool),
    (SwaVLoss.__init__ dist temperature iterations epsilon gather
     = Err ValueError
     <-> gather = true /\ is_available dist = false)
    /\ match SwaVLoss.__init__ dist temperature iterations epsilon gather with
       | Err e =>
           e = ValueError /\ gather = true /\ is_available dist = false
       | Ok self =>
           ~ (gather = true /\ is_available dist = false)
           /\ SwaVLoss.temperature self = temperature
           /\ SwaVLoss.sinkhorn_iterations self = iterations
           /\ SwaVLoss.sinkhorn_epsilon self = epsilon
           /\ SwaVLoss.sinkhorn_gather_distributed self = gather
       end.
Proof.
  intros dist temperature iterations epsilon gather.
  unfold SwaVLoss.__init__.
  destruct gather, (is_available dist); cbn; split;
    try (split; [intros H; discriminate H | intros [H1 H2]; discriminate]);
    try (split; [intros _; split; reflexivity | reflexivity]);
    repeat split; try reflexivity; intros [H1 H2]; discriminate.
Qed.

(** ** GaussianBlur *)

Section GaussianBlurProperties.

Variables TensorImage Image RandomState : Type.
Variable to_pil_image : TensorImage -> result Image.
Variable to_tensor : Image -> result TensorImage.
Variable gaussian_filter : R -> Image -> result Image.
Variable random_sample : RandomState -> R * RandomState.
Variable uniform : R -> R -> RandomState -> R * RandomState.

Local Abbreviation call :=
  (GaussianBlur.__call__ TensorImage Image RandomState to_pil_image to_tensor
     gaussian_filter random_sample uniform).

(** C10. Whatever [__call__] returns is a tensor exactly when the input is a
    tensor and a PIL image exactly when the input is a PIL image; and for a
    PIL image, when the sampled probability is not below [prob], the very
    input is returned. *)
Theorem call_preserves_input_type :
  forall (self : GaussianBlur.Self) (sample : GaussianBlur.Sample TensorImage Image)
         (st : RandomState),
    match fst (call self sample st) with
    | Ok r =>
        GaussianBlur.is_tensor r = GaussianBlur.is_tensor sample
        /\ GaussianBlur.is_image r = GaussianBlur.is_image sample
    | Err _ => True
    end
    /\ (forall img,
          sample = GaussianBlur.IsImage img ->
          ~ fst (random_sample st) < GaussianBlur.prob self ->
          fst (call self sample st) = Ok (GaussianBlur.IsImage img)).
Proof.
  intros self sample st. unfold GaussianBlur.__call__.
  destruct (random_sample st) as [p st1] eqn:Hrs. cbn [fst].
  split.
  - destruct sample as [x | img]; cbn [GaussianBlur.is_tensor].
    + destruct (to_pil_image x) as [pil | e]; [| exact I].
      destruct (Rlt_dec p (GaussianBlur.prob self)) as [Hp | Hp].
      * destruct (uniform _ _ st1) as [sigma st2].
        destruct (gaussian_filter sigma pil) as [pil' | e]; [| exact I].
        destruct (to_tensor pil') as [y | e]; cbn; auto.
      * destruct (to_tensor pil) as [y | e]; cbn; auto.
    + destruct (Rlt_dec p (GaussianBlur.prob self)) as [Hp | Hp].
      * destruct (uniform _ _ st1) as [sigma st2].
        destruct (gaussian_filter sigma img) as [pil' | e]; cbn; auto.
      * cbn. auto.
  - intros img -> Hp. cbn [GaussianBlur.is_tensor].
    destruct (Rlt_dec p (GaussianBlur.prob self)) as [Hlt | _];
      [contradiction | reflexivity].
Qed.

End GaussianBlurProperties.

Lemma call_preserves_input_type_witness :
  fst (GaussianBlur.__call__ nat nat unit (fun x => Ok x) (fun i => Ok i)
         (fun _ i => Ok (S i)) (fun st => (1, st)) (fun a b st => (a, st))
         (GaussianBlur.mkSelf (1 / 2) (1, 2)) (GaussianBlur.IsImage 7%nat) tt)
  = Ok (GaussianBlur.IsImage 7%nat).
Proof.
  refine (proj2 (call_preserves_input_type nat nat unit (fun x => Ok x)
                   (fun i => Ok i) (fun _ i => Ok (S i)) (fun st => (1, st))
                   (fun a b st => (a, st))
                   (GaussianBlur.mkSelf (1 / 2) (1, 2))
                   (GaussianBlur.IsImage 7%nat) tt) 7%nat eq_refl _).
  cbn. lra.
Defined.

(** ** Lists and entries *)

Lemma map_seq_nth {A B : Type} (f : A -> B) (d : A) (l : list A) :
  map f l = map (fun i => f (nth i l d)) (seq 0 (length l)).
Proof.
  induction l as [| a l IH]; simpl; [reflexivity |].
  f_equal. rewrite <- seq_shift, map_map. exact IH.
Qed.

Lemma zipWith_length {A B C : Type} (f : A -> B -> C) :
  forall xs ys, length (zipWith f xs ys) = Nat.min (length xs) (length ys).
Proof.
  induction xs as [| x xs IH]; intros [| y ys]; simpl; auto.
Qed.

Lemma zipWith_seq {A B C : Type} (f : A -> B -> C) (dx : A) (dy : B) :
  forall xs ys,
    length xs = length ys ->
    zipWith f xs ys
    = map (fun j => f (nth j xs dx) (nth j ys dy)) (seq 0 (length xs)).
Proof.
  induction xs as [| x xs IH]; intros [| y ys] Hlen; simpl in *;
    try reflexivity; try discriminate.
  f_equal. rewrite <- seq_shift, map_map. apply IH. lia.
Qed.

Lemma repeat_seq {A : Type} (a : A) (n : nat) :
  repeat a n = map (fun _ => a) (seq 0 n).
Proof.
  induction n as [| n IH]; simpl; [reflexivity |].
  f_equal. rewrite <- seq_shift, map_map. exact IH.
Qed.

Lemma nth_map_seq {A : Type} (g : nat -> A) (d : A) (n j : nat) :
  (j < n)%nat -> nth j (map g (seq 0 n)) d = g j.
Proof.
  intros Hj. rewrite (nth_indep _ d (g 0%nat)) by (rewrite length_map, length_seq; exact Hj).
  rewrite (map_nth g (seq 0 n) 0%nat j), seq_nth by exact Hj. reflexivity.
Qed.

Lemma tabulate_ext (r c : nat) (f g : nat -> nat -> R) :
  (forall i j, (i < r)%nat -> (j < c)%nat -> f i j = g i j) ->
  tabulate r c f = tabulate r c g.
Proof.
  intros H. unfold tabulate. f_equal.
  apply map_ext_in. intros i Hi. apply map_ext_in. intros j Hj.
  apply in_seq in Hi, Hj. apply H; lia.
Qed.

Lemma nrows_tabulate (r c : nat) (f : nat -> nat -> R) :
  nrows (tabulate r c f) = r.
Proof. unfold nrows, tabulate. cbn. rewrite length_map, length_seq. reflexivity. Qed.

Lemma ncols_tabulate (r c : nat) (f : nat -> nat -> R) :
  ncols (tabulate r c f) = c.
Proof. reflexivity. Qed.

Lemma wf_tabulate (r c : nat) (f : nat -> nat -> R) : wf (tabulate r c f).
Proof.
  unfold wf, tabulate. cbn. apply Forall_forall. intros row Hrow.
  apply in_map_iff in Hrow. destruct Hrow as [i [<- _]].
  rewrite length_map, length_seq. reflexivity.
Qed.

Lemma entry_tabulate (r c : nat) (f : nat -> nat -> R) (i j : nat) :
  (i < r)%nat -> (j < c)%nat -> entry (tabulate r c f) i j = f i j.
Proof.
  intros Hi Hj. unfold entry, tabulate. cbn.
  rewrite (nth_map_seq (fun i => map (fun j => f i j) (seq 0 c)) [] r i Hi).
  apply nth_map_seq. exact Hj.
Qed.

Lemma wf_row_length (T : Tensor) (i : nat) :
  wf T -> (i < nrows T)%nat -> length (nth i (rows T) []) = ncols T.
Proof.
  intros Hwf Hi. unfold wf in Hwf. rewrite Forall_forall in Hwf.
  apply Hwf. apply nth_In. exact Hi.
Qed.

(** A well-formed tensor is the table of its entries. *)
Lemma tensor_tabulate (T : Tensor) :
  wf T -> T = tabulate (nrows T) (ncols T) (entry T).
Proof.
  intros Hwf. destruct T as [c rs]. unfold tabulate, entry, nrows. cbn.
  f_equal. rewrite <- (map_id rs) at 1. rewrite (map_seq_nth (fun r => r) [] rs).
  apply map_ext_in. intros i Hi. apply in_seq in Hi.
  rewrite <- (map_id (nth i rs [])) at 1.
  rewrite (map_seq_nth (fun x => x) 0 (nth i rs [])).
  pose proof (wf_row_length (mkTensor c rs) i Hwf) as Hlen.
  unfold nrows in Hlen. cbn in Hlen. rewrite Hlen by lia.
  reflexivity.
Qed.

Lemma tmap_tabulate (f : R -> R) (T : Tensor) :
  wf T ->
  tmap f T = tabulate (nrows T) (ncols T) (fun i j => f (entry T i j)).
Proof.
  intros Hwf. unfold tmap, tabulate, entry, nrows. f_equal.
  rewrite (map_seq_nth (map f) [] (rows T)).
  apply map_ext_in. intros i Hi. apply in_seq in Hi.
  rewrite (map_seq_nth f 0 (nth i (rows T) [])).
  rewrite (wf_row_length T i Hwf) by (unfold nrows; lia).
  reflexivity.
Qed.

Lemma t_tabulate (T : Tensor) :
  t T = tabulate (ncols T) (nrows T) (fun i j => entry T j i).
Proof.
  unfold t, tabulate, entry, column, nrows. f_equal.
  apply map_ext. intros j.
  apply (map_seq_nth (fun r => nth j r 0) [] (rows T)).
Qed.

Lemma div_rows_list_seq :
  forall rs v,
    div_rows_list rs v
    = map (fun i => map (fun x => x / nth i v 0) (nth i rs []))
        (seq 0 (length rs)).
Proof.
  induction rs as [| r rs IH]; intros v; simpl; [reflexivity |].
  f_equal.
  - destruct v; reflexivity.
  - rewrite <- seq_shift, map_map, IH. apply map_ext. intros i.
    destruct v as [| a v]; [destruct i |]; reflexivity.
Qed.

Lemma div_rows_tabulate (T : Tensor) (v : list R) :
  wf T ->
  div_rows T v
  = tabulate (nrows T) (ncols T) (fun i j => entry T i j / nth i v 0).
Proof.
  intros Hwf. unfold div_rows, tabulate, entry, nrows. f_equal.
  rewrite div_rows_list_seq. apply map_ext_in. intros i Hi. apply in_seq in Hi.
  rewrite (map_seq_nth (fun x => x / nth i v 0) 0 (nth i (rows T) [])).
  rewrite (wf_row_length T i Hwf) by (unfold nrows; lia).
  reflexivity.
Qed.

Lemma div_cols_tabulate (T : Tensor) (v : list R) :
  wf T -> length v = ncols T ->
  div_cols T v
  = tabulate (nrows T) (ncols T) (fun i j => entry T i j / nth j v 0).
Proof.
  intros Hwf Hv. unfold div_cols, tabulate, entry, nrows. f_equal.
  rewrite (map_seq_nth (fun r => zipWith Rdiv r v) [] (rows T)).
  apply map_ext_in. intros i Hi. apply in_seq in Hi.
  assert (Hlen : length (nth i (rows T) []) = ncols T)
    by (apply wf_row_length; [exact Hwf | unfold nrows; lia]).
  rewrite (zipWith_seq Rdiv 0 0) by congruence.
  rewrite Hlen. reflexivity.
Qed.

Lemma col_sum_column (T : Tensor) (j : nat) :
  col_sum T j = sum_list (column j (rows T)).
Proof.
  unfold col_sum, column, entry, nrows.
  rewrite (map_seq_nth (fun r => nth j r 0) [] (rows T)). reflexivity.
Qed.

Lemma sum_columns_seq (c : nat) :
  forall rs,
    Forall (fun r => length r = c) rs ->
    fold_right (zipWith Rplus) (repeat 0 c) rs
    = map (fun j => sum_list (column j rs)) (seq 0 c).
Proof.
  induction rs as [| r rs IH]; intros Hwf; simpl.
  - apply repeat_seq.
  - inversion Hwf as [| r' rs' Hr Hrs]; subst.
    rewrite (IH Hrs).
    rewrite (zipWith_seq Rplus 0 0)
      by (rewrite length_map, length_seq; reflexivity).
    apply map_ext_in. intros j Hj. apply in_seq in Hj.
    rewrite nth_map_seq by lia. reflexivity.
Qed.

Lemma sum_dim0_cols (T : Tensor) :
  wf T -> sum_dim0 T = map (col_sum T) (seq 0 (ncols T)).
Proof.
  intros Hwf. unfold sum_dim0. rewrite (sum_columns_seq _ _ Hwf).
  apply map_ext. intros j. symmetry. apply col_sum_column.
Qed.

Lemma row_sum_row (T : Tensor) (i : nat) :
  wf T -> (i < nrows T)%nat -> row_sum T i = sum_list (nth i (rows T) []).
Proof.
  intros Hwf Hi. unfold row_sum, entry.
  rewrite <- (wf_row_length T i Hwf Hi).
  rewrite <- (map_seq_nth (fun x => x) 0 (nth i (rows T) [])), map_id.
  reflexivity.
Qed.

Lemma sum_dim1_rows (T : Tensor) :
  wf T -> sum_dim1 T = map (row_sum T) (seq 0 (nrows T)).
Proof.
  intros Hwf. unfold sum_dim1.
  rewrite (map_seq_nth sum_list [] (rows T)).
  apply map_ext_in. intros i Hi. apply in_seq in Hi.
  symmetry. apply row_sum_row; [exact Hwf | unfold nrows in *; lia].
Qed.

Lemma tsum_total (T : Tensor) : wf T -> tsum T = total_sum T.
Proof.
  intros Hwf. unfold tsum, total_sum.
  fold (sum_dim1 T). rewrite (sum_dim1_rows T Hwf). reflexivity.
Qed.

(** ** The steps of sinkhorn *)

Ltac tab_simpl :=
  repeat (rewrite nrows_tabulate || rewrite ncols_tabulate
          || rewrite entry_tabulate by assumption).

Lemma sinkhorn_loop_step (ws B n : nat) (Q : Tensor) :
  sinkhorn_loop ws B (S n) Q
  = (sum_of_rows <- reduce_if_distributed ws (sum_dim1 Q) ;;
     sinkhorn_loop ws B n (normalize_step B Q sum_of_rows)).
Proof. reflexivity. Qed.

Lemma summed_reduce (ws : nat) (x : list R) :
  Spec.summed ws x = reduce_if_distributed ws x.
Proof.
  unfold Spec.summed, reduce_if_distributed, all_reduce.
  destruct (Nat.leb_spec ws 1), (Nat.ltb_spec 1 ws); try reflexivity; lia.
Qed.

Lemma initial_tabulate (out : Tensor) (epsilon : R) :
  wf out -> t (texp (div_scalar out epsilon)) = Spec.initial out epsilon.
Proof.
  intros Hwf. unfold Spec.initial, texp, div_scalar.
  rewrite t_tabulate. rewrite (tmap_tabulate (fun x => x / epsilon) out Hwf).
  rewrite (tmap_tabulate exp) by apply wf_tabulate.
  tab_simpl. apply tabulate_ext. intros i j Hi Hj.
  tab_simpl. reflexivity.
Qed.

Lemma scaled_tabulate (Q : Tensor) (s : R) :
  wf Q -> div_scalar Q s = Spec.scaled Q s.
Proof. intros Hwf. apply (tmap_tabulate (fun x => x / s) Q Hwf). Qed.

Lemma normalize_step_tabulate (B : nat) (Q : Tensor) (v : list R) :
  wf Q ->
  normalize_step B Q v
  = Spec.cols_normalized (Spec.rows_normalized Q v) B.
Proof.
  intros Hwf. unfold normalize_step, Spec.cols_normalized.
  rewrite (div_rows_tabulate Q v Hwf). fold (Spec.rows_normalized Q v).
  set (Q1 := Spec.rows_normalized Q v).
  assert (Hwf1 : wf Q1) by apply wf_tabulate.
  rewrite (div_cols_tabulate Q1 (sum_dim0 Q1) Hwf1)
    by (rewrite (sum_dim0_cols Q1 Hwf1), length_map, length_seq; reflexivity).
  unfold div_scalar. rewrite tmap_tabulate by apply wf_tabulate.
  tab_simpl. apply tabulate_ext. intros i j Hi Hj.
  tab_simpl.
  rewrite (sum_dim0_cols Q1 Hwf1), nth_map_seq by exact Hj. reflexivity.
Qed.

Lemma wf_normalize_step (B : nat) (Q : Tensor) (v : list R) :
  wf Q -> wf (normalize_step B Q v).
Proof.
  intros Hwf. rewrite (normalize_step_tabulate B Q v Hwf). apply wf_tabulate.
Qed.

Lemma final_tabulate (Q : Tensor) (B : nat) :
  wf Q -> t (mul_scalar Q (INR B)) = Spec.final Q B.
Proof.
  intros Hwf. unfold Spec.final, mul_scalar.
  rewrite t_tabulate, (tmap_tabulate (fun x => x * INR B) Q Hwf).
  tab_simpl. apply tabulate_ext. intros i j Hi Hj.
  tab_simpl. reflexivity.
Qed.

Lemma bind_ext {A B : Type} (p : Prog A) (f g : A -> Prog B) :
  (forall a, f a = g a) -> bind p f = bind p g.
Proof. intros H. f_equal. extensionality a. apply H. Qed.

Lemma sinkhorn_loop_iterated (ws B n : nat) :
  forall Q,
    wf Q ->
    forall (C : Type) (f g : Tensor -> Prog C),
      (forall Q', wf Q' -> f Q' = g Q') ->
      bind (sinkhorn_loop ws B n Q) f = bind (Spec.iterated ws B n Q) g.
Proof.
  induction n as [| n IH]; intros Q Hwf C f g Hfg.
  - cbn. apply Hfg. exact Hwf.
  - rewrite sinkhorn_loop_step. cbn [Spec.iterated].
    rewrite summed_reduce, <- (sum_dim1_rows Q Hwf).
    destruct (reduce_if_distributed ws (sum_dim1 Q)) as [v | x k] eqn:Hred.
    + cbn [bind]. rewrite <- (normalize_step_tabulate B Q v Hwf).
      apply IH; [apply wf_normalize_step; exact Hwf | exact Hfg].
    + unfold reduce_if_distributed, all_reduce in Hred.
      destruct (1 <? ws)%nat; [| discriminate].
      injection Hred as <- <-. cbn [bind]. f_equal. extensionality v.
      rewrite <- (normalize_step_tabulate B Q v Hwf).
      apply IH; [apply wf_normalize_step; exact Hwf | exact Hfg].
Qed.

(** C2. On a well-formed input and for [epsilon > 0], [sinkhorn] run for
    [n >= 0] iterations is the process the specification describes: the transpose of
    [exp(out / epsilon)] divided by its total sum, then [n] times a division
    of every row by its sum followed by a division of every column by its
    sum and by [B], and at last [Q * B] transposed back, with [B] the number
    of columns of [Q] times the world size. *)
Theorem sinkhorn_follows_steps :
  forall (dist : Dist) (out : Tensor) (n : nat) (epsilon : R) (gather : bool),
    wf out -> 0 < epsilon ->
    sinkhorn dist out (Z.of_nat n) epsilon gather
    = Spec.sinkhorn (world_size_of dist gather) out n epsilon.
Proof.
  intros dist out n epsilon gather Hwf _.
  unfold sinkhorn, Spec.sinkhorn. fold (world_size_of dist gather).
  set (ws := world_size_of dist gather).
  rewrite Nat2Z.id, (initial_tabulate out epsilon Hwf).
  set (Q0 := Spec.initial out epsilon).
  assert (Hwf0 : wf Q0) by apply wf_tabulate.
  rewrite summed_reduce, (tsum_total Q0 Hwf0).
  apply bind_ext. intros total.
  replace (hd 0 total) with (nth 0 total 0) by (destruct total; reflexivity).
  rewrite (scaled_tabulate Q0 _ Hwf0).
  apply sinkhorn_loop_iterated; [apply wf_tabulate |].
  intros Q' Hwf'. rewrite (final_tabulate Q' _ Hwf'). reflexivity.
Qed.

Lemma sinkhorn_follows_steps_witness :
  sinkhorn (mkDist true true 4) (mkTensor 2 [[0; 1]; [1; 0]]) (Z.of_nat 3)
    (1 / 20) true
  = Spec.sinkhorn (world_size_of (mkDist true true 4) true)
      (mkTensor 2 [[0; 1]; [1; 0]]) 3 (1 / 20).
Proof.
  apply sinkhorn_follows_steps.
  - unfold wf. cbn. repeat constructor.
  - lra.
Defined.

(** ** The cross entropy of codes and predictions *)

Lemma nth_map_in {A B : Type} (f : A -> B) (d : A) (d' : B) (l : list A)
  (i : nat) :
  (i < length l)%nat -> nth i (map f l) d' = f (nth i l d).
Proof.
  intros Hi. rewrite (nth_indep _ d' (f d)) by (rewrite length_map; exact Hi).
  apply map_nth.
Qed.

Lemma sum_list_nonneg (xs : list R) :
  Forall (fun x => 0 <= x) xs -> 0 <= sum_list xs.
Proof.
  induction 1 as [| x xs Hx _ IH]; simpl; lra.
Qed.

Lemma sum_list_pos (xs : list R) :
  Forall (fun x => 0 < x) xs -> xs <> [] -> 0 < sum_list xs.
Proof.
  intros Hpos Hne. destruct Hpos as [| x xs Hx Hxs]; [congruence |].
  simpl. assert (0 <= sum_list xs).
  { apply sum_list_nonneg. eapply Forall_impl; [| exact Hxs].
    intros a Ha. lra. }
  lra.
Qed.

Lemma sum_exp_pos (x : list R) : x <> [] -> 0 < sum_list (map exp x).
Proof.
  intros Hne. apply sum_list_pos.
  - apply Forall_forall. intros y Hy. apply in_map_iff in Hy.
    destruct Hy as [a [<- _]]. apply exp_pos.
  - destruct x; [congruence | discriminate].
Qed.

Lemma log_softmax_entry (x : list R) (j : nat) :
  (j < length x)%nat ->
  nth j (log_softmax_row x) 0 = ln (Spec.softmax x j).
Proof.
  intros Hj. unfold log_softmax_row, Spec.softmax.
  rewrite (nth_map_in _ 0 0 x j Hj).
  assert (Hs : 0 < sum_list (map exp x)).
  { apply sum_exp_pos. destruct x; [simpl in Hj; lia | discriminate]. }
  unfold Rdiv. rewrite ln_mult by (apply exp_pos || apply Rinv_0_lt_compat, Hs).
  rewrite ln_exp, ln_Rinv by exact Hs. reflexivity.
Qed.

Lemma broadcast_dim_same (n : nat) : broadcast_dim n n = Ok n.
Proof. unfold broadcast_dim. rewrite Nat.eqb_refl. reflexivity. Qed.

Lemma expand_same (T : Tensor) : expand T (nrows T) (ncols T) = T.
Proof.
  unfold expand. rewrite !Nat.eqb_refl. destruct T; reflexivity.
Qed.

Lemma tmul_same_shape (A B : Tensor) :
  shape A = shape B ->
  tmul A B
  = Ok (mkTensor (ncols A) (zipWith (zipWith Rmult) (rows A) (rows B))).
Proof.
  unfold shape. intros Hs. injection Hs as Hr Hc.
  unfold tmul. rewrite <- Hr, <- Hc, !broadcast_dim_same.
  rewrite expand_same. rewrite Hr, Hc, expand_same. reflexivity.
Qed.

Lemma scaled_row_row (z : Tensor) (temperature : R) (i : nat) :
  wf z -> (i < nrows z)%nat ->
  nth i (rows (div_scalar z temperature)) []
  = Spec.scaled_row z temperature i.
Proof.
  intros Hwf Hi. unfold div_scalar, tmap, Spec.scaled_row, entry. cbn [rows].
  rewrite (nth_map_in _ [] [] (rows z) i Hi).
  rewrite (map_seq_nth (fun x => x / temperature) 0 (nth i (rows z) [])).
  rewrite (wf_row_length z i Hwf Hi). reflexivity.
Qed.

(** C4. For well-formed [z] and [q] of the same shape, [subloss] returns
    minus the mean over the rows of the sum over the columns of [q] times the
    logarithm of the softmax of [z / temperature] along the row. *)
Theorem subloss_is_cross_entropy :
  forall (self : SwaVLoss.Self) (z q : Tensor),
    wf z -> wf q -> shape z = shape q ->
    SwaVLoss.subloss self z q
    = Ok (Spec.subloss (SwaVLoss.temperature self) z q).
Proof.
  intros self z q Hz Hq Hs. unfold SwaVLoss.subloss.
  set (temp := SwaVLoss.temperature self).
  set (L := log_softmax (div_scalar z temp)).
  assert (HsL : shape q = shape L).
  { unfold shape, L, log_softmax, div_scalar, tmap, nrows in *. cbn.
    rewrite !length_map. congruence. }
  rewrite (tmul_same_shape q L HsL). f_equal.
  unfold Spec.subloss, mean, sum_dim1. cbn [rows].
  injection HsL as HrL HcL. injection Hs as Hr Hc. unfold nrows in *.
  rewrite length_map, zipWith_length, <- HrL, Nat.min_id.
  f_equal. f_equal. f_equal.
  rewrite (zipWith_seq (zipWith Rmult) [] []) by exact HrL.
  rewrite map_map. apply map_ext_in. intros i Hi. apply in_seq in Hi.
  assert (Hi' : (i < nrows z)%nat) by (unfold nrows; lia).
  assert (Hqi : length (nth i (rows q) []) = ncols q)
    by (apply wf_row_length; [exact Hq | unfold nrows; lia]).
  assert (HLi : nth i (rows L) []
                = log_softmax_row (Spec.scaled_row z temp i)).
  { unfold L, log_softmax. cbn [rows].
    rewrite (nth_map_in _ [] [] _ i)
      by (unfold div_scalar, tmap; cbn; rewrite length_map; lia).
    rewrite (scaled_row_row z temp i Hz Hi'). reflexivity. }
  rewrite HLi.
  assert (Hlen : length (Spec.scaled_row z temp i) = ncols q).
  { unfold Spec.scaled_row. rewrite length_map, length_seq. congruence. }
  rewrite (zipWith_seq Rmult 0 0)
    by (unfold log_softmax_row; rewrite length_map; congruence).
  rewrite Hqi. f_equal. apply map_ext_in. intros j Hj. apply in_seq in Hj.
  unfold entry. rewrite log_softmax_entry by lia. reflexivity.
Qed.

Lemma subloss_is_cross_entropy_witness :
  SwaVLoss.subloss (SwaVLoss.mkSelf (1 / 10) 3 (1 / 20) false)
    (mkTensor 2 [[0; 1]; [1; 0]]) (mkTensor 2 [[1; 0]; [0; 1]])
  = Ok (Spec.subloss (1 / 10) (mkTensor 2 [[0; 1]; [1; 0]])
          (mkTensor 2 [[1; 0]; [0; 1]])).
Proof.
  apply (subloss_is_cross_entropy (SwaVLoss.mkSelf (1 / 10) 3 (1 / 20) false)
           (mkTensor 2 [[0; 1]; [1; 0]]) (mkTensor 2 [[1; 0]; [0; 1]]));
    [unfold wf; cbn; repeat constructor
    | unfold wf; cbn; repeat constructor
    | reflexivity].
Defined.

(** ** The codes of a single process are distributions *)

Lemma sum_list_map_div {A : Type} (f : A -> R) (c : R) (l : list A) :
  sum_list (map (fun i => f i / c) l) = sum_list (map f l) / c.
Proof.
  induction l as [| a l IH]; simpl; [unfold Rdiv; ring |].
  rewrite IH. unfold Rdiv. ring.
Qed.

Lemma sum_list_map_mul {A : Type} (f : A -> R) (c : R) (l : list A) :
  sum_list (map (fun i => f i * c) l) = sum_list (map f l) * c.
Proof.
  induction l as [| a l IH]; simpl; [ring |]. rewrite IH. ring.
Qed.

Lemma sum_seq_pos (f : nat -> R) (n : nat) :
  (1 <= n)%nat -> (forall i, (i < n)%nat -> 0 < f i) ->
  0 < sum_list (map f (seq 0 n)).
Proof.
  intros Hn Hf. apply sum_list_pos.
  - apply Forall_forall. intros y Hy. apply in_map_iff in Hy.
    destruct Hy as [i [<- Hi]]. apply in_seq in Hi. apply Hf. lia.
  - destruct n; [lia | discriminate].
Qed.

Lemma col_sum_tabulate (r c : nat) (f : nat -> nat -> R) (j : nat) :
  (j < c)%nat ->
  col_sum (tabulate r c f) j = sum_list (map (fun i => f i j) (seq 0 r)).
Proof.
  intros Hj. unfold col_sum. rewrite nrows_tabulate. f_equal.
  apply map_ext_in. intros i Hi. apply in_seq in Hi.
  apply entry_tabulate; lia.
Qed.

Lemma row_sum_tabulate (r c : nat) (f : nat -> nat -> R) (i : nat) :
  (i < r)%nat ->
  row_sum (tabulate r c f) i = sum_list (map (fun j => f i j) (seq 0 c)).
Proof.
  intros Hi. unfold row_sum. rewrite ncols_tabulate. f_equal.
  apply map_ext_in. intros j Hj. apply in_seq in Hj.
  apply entry_tabulate; lia.
Qed.

Lemma local_loop_last (B n : nat) :
  forall Q,
    local_loop B (S n) Q
    = normalize_step B (local_loop B n Q) (sum_dim1 (local_loop B n Q)).
Proof.
  induction n as [| n IH]; intros Q; [reflexivity |].
  change (local_loop B (S (S n)) Q)
    with (local_loop B (S n) (normalize_step B Q (sum_dim1 Q))).
  rewrite IH. reflexivity.
Qed.

Lemma normalize_step_shape (B : nat) (Q : Tensor) (v : list R) :
  wf Q ->
  nrows (normalize_step B Q v) = nrows Q
  /\ ncols (normalize_step B Q v) = ncols Q.
Proof.
  intros Hwf. rewrite (normalize_step_tabulate B Q v Hwf).
  unfold Spec.cols_normalized, Spec.rows_normalized. tab_simpl. split; reflexivity.
Qed.

Lemma normalize_step_positive (B : nat) (Q : Tensor) :
  wf Q -> (0 < B)%nat -> positive Q ->
  positive (normalize_step B Q (sum_dim1 Q)).
Proof.
  intros Hwf HB Hpos.
  rewrite (normalize_step_tabulate B Q _ Hwf).
  unfold Spec.cols_normalized, Spec.rows_normalized, positive. tab_simpl.
  intros i j Hi Hj. tab_simpl.
  assert (Hq : forall i', (i' < nrows Q)%nat ->
            0 < entry Q i' j / nth i' (sum_dim1 Q) 0).
  { intros i' Hi'. apply Rdiv_lt_0_compat; [apply Hpos; assumption |].
    rewrite (sum_dim1_rows Q Hwf), nth_map_seq by exact Hi'.
    unfold row_sum. apply sum_seq_pos; [lia |].
    intros j' Hj'. apply Hpos; assumption. }
  apply Rdiv_lt_0_compat; [| apply lt_0_INR; exact HB].
  apply Rdiv_lt_0_compat; [apply Hq; exact Hi |].
  rewrite col_sum_tabulate by exact Hj.
  apply sum_seq_pos; [lia | exact Hq].
Qed.

Lemma normalize_step_col_sum (B : nat) (Q : Tensor) (j : nat) :
  wf Q -> (0 < B)%nat -> positive Q ->
  (1 <= nrows Q)%nat -> (j < ncols Q)%nat ->
  col_sum (normalize_step B Q (sum_dim1 Q)) j * INR B = 1.
Proof.
  intros Hwf HB Hpos Hr Hj.
  rewrite (normalize_step_tabulate B Q _ Hwf).
  unfold Spec.cols_normalized. set (Q1 := Spec.rows_normalized Q (sum_dim1 Q)).
  assert (Hr1 : nrows Q1 = nrows Q) by apply nrows_tabulate.
  assert (Hc1 : ncols Q1 = ncols Q) by reflexivity.
  rewrite col_sum_tabulate by (rewrite Hc1; exact Hj).
  rewrite (sum_list_map_div (fun i => entry Q1 i j / col_sum Q1 j)).
  rewrite (sum_list_map_div (fun i => entry Q1 i j)).
  fold (col_sum Q1 j).
  assert (Hcs : 0 < col_sum Q1 j).
  { unfold col_sum. apply sum_seq_pos; [lia |].
    intros i Hi. unfold Q1, Spec.rows_normalized.
    rewrite entry_tabulate by (rewrite <- ?Hr1; assumption).
    apply Rdiv_lt_0_compat; [apply Hpos; lia |].
    rewrite (sum_dim1_rows Q Hwf), nth_map_seq by lia.
    unfold row_sum. apply sum_seq_pos; [lia |].
    intros j' Hj'. apply Hpos; lia. }
  assert (HBr : 0 < INR B) by (apply lt_0_INR; exact HB).
  field. split; lra.
Qed.

Lemma local_loop_shape (B n : nat) :
  forall Q,
    wf Q ->
    wf (local_loop B n Q)
    /\ nrows (local_loop B n Q) = nrows Q
    /\ ncols (local_loop B n Q) = ncols Q.
Proof.
  induction n as [| n IH]; intros Q Hwf; [auto |].
  cbn [local_loop].
  destruct (IH _ (wf_normalize_step B Q (sum_dim1 Q) Hwf)) as [H1 [H2 H3]].
  destruct (normalize_step_shape B Q (sum_dim1 Q) Hwf) as [H4 H5].
  repeat split; congruence.
Qed.

Lemma local_loop_positive (B n : nat) :
  (0 < B)%nat ->
  forall Q, wf Q -> positive Q -> positive (local_loop B n Q).
Proof.
  intros HB. induction n as [| n IH]; intros Q Hwf Hpos; [exact Hpos |].
  cbn [local_loop]. apply IH.
  - apply wf_normalize_step. exact Hwf.
  - apply normalize_step_positive; assumption.
Qed.

Lemma initial_scaled_positive (out : Tensor) (epsilon : R) :
  (1 <= ncols out)%nat -> (1 <= nrows out)%nat ->
  positive (Spec.scaled (Spec.initial out epsilon)
              (total_sum (Spec.initial out epsilon))).
Proof.
  intros HK HN. unfold Spec.scaled, Spec.initial, positive. tab_simpl.
  intros i j Hi Hj. tab_simpl.
  apply Rdiv_lt_0_compat; [apply exp_pos |].
  unfold total_sum. tab_simpl. apply sum_seq_pos; [exact HK |].
  intros i' Hi'. rewrite row_sum_tabulate by exact Hi'.
  apply sum_seq_pos; [exact HN |]. intros j' Hj'. apply exp_pos.
Qed.

(** C8 as amended. In single-device mode, for a well-formed input with at
    least one column (prototype), [epsilon > 0] and at least one iteration,
    [sinkhorn] returns codes with as many rows as the input, every entry of
    which is nonnegative and every row of which sums to 1. *)
Theorem sinkhorn_rows_are_distributions :
  forall (dist : Dist) (out : Tensor) (iterations : Z) (epsilon : R),
    wf out -> (1 <= ncols out)%nat -> 0 < epsilon -> (1 <= iterations)%Z ->
    exists codes,
      sinkhorn dist out iterations epsilon false = Ret codes
      /\ nrows codes = nrows out
      /\ Forall (fun r => sum_list r = 1 /\ Forall (fun x => 0 <= x) r)
           (rows codes).
Proof.
  intros dist out iterations epsilon Hwf HK _ Hit.
  exists (sinkhorn_local out iterations epsilon).
  split; [apply sinkhorn_no_gather |].
  unfold sinkhorn_local.
  rewrite (initial_tabulate out epsilon Hwf).
  set (Q0' := Spec.initial out epsilon).
  assert (Hwf0' : wf Q0') by apply wf_tabulate.
  rewrite (tsum_total Q0' Hwf0'), (scaled_tabulate Q0' _ Hwf0').
  set (Q0 := Spec.scaled Q0' (total_sum Q0')).
  assert (Hwf0 : wf Q0) by apply wf_tabulate.
  assert (Hr0 : nrows Q0 = ncols out).
  { unfold Q0, Spec.scaled, Q0', Spec.initial. tab_simpl. reflexivity. }
  assert (Hc0 : ncols Q0 = nrows out).
  { unfold Q0, Spec.scaled, Q0', Spec.initial. tab_simpl. reflexivity. }
  destruct (Z.to_nat iterations) as [| m] eqn:Hn; [lia |].
  set (B := ncols Q0).
  destruct (local_loop_shape B (S m) Q0 Hwf0) as [Hwfn [Hrn Hcn]].
  destruct (local_loop_shape B m Q0 Hwf0) as [Hwfm [Hrm Hcm]].
  rewrite (final_tabulate _ _ Hwfn). unfold Spec.final.
  split; [rewrite nrows_tabulate; congruence |].
  unfold tabulate. cbn [rows]. apply Forall_forall. intros row Hrow.
  apply in_map_iff in Hrow. destruct Hrow as [i [<- Hi]]. apply in_seq in Hi.
  assert (HN : (1 <= nrows out)%nat) by lia.
  assert (HB : (0 < B)%nat) by (unfold B; lia).
  assert (Hpos0 : positive Q0) by (apply initial_scaled_positive; assumption).
  split.
  - rewrite (sum_list_map_mul (fun j => entry _ j i)).
    fold (col_sum (local_loop B (S m) Q0) i).
    rewrite local_loop_last.
    apply normalize_step_col_sum; try assumption; try lia.
    apply local_loop_positive; assumption.
  - apply Forall_forall. intros x Hx. apply in_map_iff in Hx.
    destruct Hx as [j [<- Hj]]. apply in_seq in Hj.
    apply Rlt_le, Rmult_lt_0_compat; [| apply lt_0_INR; exact HB].
    apply (local_loop_positive B (S m) HB Q0 Hwf0 Hpos0); lia.
Qed.

Lemma sinkhorn_rows_are_distributions_witness :
  exists codes,
    sinkhorn (mkDist true true 4) (mkTensor 2 [[0; 1]; [1; 0]]) 3 (1 / 20)
      false = Ret codes
    /\ nrows codes = nrows (mkTensor 2 [[0; 1]; [1; 0]])
    /\ Forall (fun r => sum_list r = 1 /\ Forall (fun x => 0 <= x) r)
         (rows codes).
Proof.
  apply sinkhorn_rows_are_distributions.
  - unfold wf. cbn. repeat constructor.
  - cbn. lia.
  - lra.
  - lia.
Defined.

(** C8 as stated fails: an input with one row and no column is a matrix all
    of whose entries are finite, and the row of the codes it gets sums
    to 0. *)
Lemma sinkhorn_rows_not_distributions_without_columns :
  exists codes,
    sinkhorn (mkDist false false 1) (mkTensor 0 [[]]) 1 1 false = Ret codes
    /\ wf (mkTensor 0 [[]])
    /\ ~ Forall (fun r => sum_list r = 1 /\ Forall (fun x => 0 <= x) r)
           (rows codes).
Proof.
  exists (sinkhorn_local (mkTensor 0 [[]]) 1 1).
  split; [apply sinkhorn_no_gather |].
  split; [unfold wf; cbn; repeat constructor |].
  cbn. intros H. inversion H as [| r rs [Hsum _] _]; subst.
  cbn in Hsum. lra.
Qed.

(** ** Shards side by side

    The transposed matrix of a batch is made of the transposed matrices of
    its shards, set side by side. *)

Lemma sum_list_app (xs ys : list R) :
  sum_list (xs ++ ys) = sum_list xs + sum_list ys.
Proof. induction xs as [| x xs IH]; simpl; [ring | rewrite IH; ring]. Qed.

Lemma zipWith_app {A B C : Type} (f : A -> B -> C) :
  forall xs xs' ys ys',
    length xs = length ys ->
    zipWith f (xs ++ xs') (ys ++ ys') = zipWith f xs ys ++ zipWith f xs' ys'.
Proof.
  induction xs as [| x xs IH]; intros xs' [| y ys] ys' Hlen; simpl in *;
    try reflexivity; try discriminate.
  f_equal. apply IH. lia.
Qed.

Lemma zipWith_map_same {A B C D : Type} (f : B -> C -> D) (g : A -> B)
  (h : A -> C) (l : list A) :
  zipWith f (map g l) (map h l) = map (fun a => f (g a) (h a)) l.
Proof. induction l as [| a l IH]; simpl; [reflexivity | f_equal; exact IH]. Qed.

Lemma map_zipWith {A B C D : Type} (g : C -> D) (f : A -> B -> C) :
  forall xs ys, map g (zipWith f xs ys) = zipWith (fun a b => g (f a b)) xs ys.
Proof.
  induction xs as [| x xs IH]; intros [| y ys]; simpl; try reflexivity.
  f_equal. apply IH.
Qed.

Lemma zipWith_map_l {A A' B C : Type} (f : A' -> B -> C) (g : A -> A') :
  forall xs ys, zipWith f (map g xs) ys = zipWith (fun a b => f (g a) b) xs ys.
Proof.
  induction xs as [| x xs IH]; intros [| y ys]; simpl; try reflexivity.
  f_equal. apply IH.
Qed.

Lemma zipWith_map_r {A B B' C : Type} (f : A -> B' -> C) (g : B -> B') :
  forall xs ys, zipWith f xs (map g ys) = zipWith (fun a b => f a (g b)) xs ys.
Proof.
  induction xs as [| x xs IH]; intros [| y ys]; simpl; try reflexivity.
  f_equal. apply IH.
Qed.

Lemma zipWith_ext_in {A B C : Type} (f g : A -> B -> C) :
  forall xs ys,
    (forall a b, In a xs -> In b ys -> f a b = g a b) ->
    zipWith f xs ys = zipWith g xs ys.
Proof.
  induction xs as [| x xs IH]; intros [| y ys] H; simpl; try reflexivity.
  f_equal; [apply H; left; reflexivity |].
  apply IH. intros a b Ha Hb. apply H; right; assumption.
Qed.

Lemma rows_length_zip_app (ca cb : nat) :
  forall ra rb,
    Forall (fun r => length r = ca) ra ->
    Forall (fun r => length r = cb) rb ->
    Forall (fun r => length r = (ca + cb)%nat) (zipWith (@app R) ra rb).
Proof.
  induction ra as [| a ra IH]; intros [| b rb] HA HB; simpl; try constructor.
  - inversion HA; inversion HB; subst. rewrite length_app. congruence.
  - inversion HA; inversion HB; subst. apply IH; assumption.
Qed.

Lemma sum_columns_length (c : nat) :
  forall rs,
    Forall (fun r => length r = c) rs ->
    length (fold_right (zipWith Rplus) (repeat 0 c) rs) = c.
Proof.
  induction 1 as [| r rs Hr _ IH]; simpl.
  - apply repeat_length.
  - rewrite zipWith_length, IH. lia.
Qed.

Lemma sum_columns_zip_app (ca cb : nat) :
  forall ra rb,
    Forall (fun r => length r = ca) ra ->
    Forall (fun r => length r = cb) rb ->
    length ra = length rb ->
    fold_right (zipWith Rplus) (repeat 0 (ca + cb)) (zipWith (@app R) ra rb)
    = fold_right (zipWith Rplus) (repeat 0 ca) ra
      ++ fold_right (zipWith Rplus) (repeat 0 cb) rb.
Proof.
  induction ra as [| a ra IH]; intros [| b rb] HA HB Hlen; simpl in *;
    try discriminate.
  - apply repeat_app.
  - inversion HA; inversion HB; subst.
    rewrite IH by (assumption || lia).
    apply zipWith_app. rewrite sum_columns_length by assumption. reflexivity.
Qed.

Section Hcat.

Variables A B : Tensor.
Hypothesis wfA : wf A.
Hypothesis wfB : wf B.
Hypothesis same_rows : nrows A = nrows B.

Lemma nrows_hcat : nrows (hcat A B) = nrows A.
Proof.
  unfold nrows, hcat in *. cbn. rewrite zipWith_length. lia.
Qed.

Lemma wf_hcat : wf (hcat A B).
Proof. apply rows_length_zip_app; assumption. Qed.

Lemma tmap_hcat (f : R -> R) : tmap f (hcat A B) = hcat (tmap f A) (tmap f B).
Proof.
  unfold tmap, hcat. cbn. f_equal.
  rewrite map_zipWith, zipWith_map_l, zipWith_map_r.
  apply zipWith_ext_in. intros a b _ _. apply map_app.
Qed.

Lemma sum_dim1_hcat :
  sum_dim1 (hcat A B) = zipWith Rplus (sum_dim1 A) (sum_dim1 B).
Proof.
  unfold sum_dim1, hcat. cbn.
  rewrite map_zipWith, zipWith_map_l, zipWith_map_r.
  apply zipWith_ext_in. intros a b _ _. apply sum_list_app.
Qed.

Lemma tsum_hcat : tsum (hcat A B) = tsum A + tsum B.
Proof.
  unfold tsum. fold (sum_dim1 (hcat A B)) (sum_dim1 A) (sum_dim1 B).
  rewrite sum_dim1_hcat.
  assert (Hlen : length (sum_dim1 A) = length (sum_dim1 B))
    by (unfold sum_dim1; rewrite !length_map; exact same_rows).
  revert Hlen. generalize (sum_dim1 A) (sum_dim1 B).
  induction l as [| x xs IH]; intros [| y ys] Hlen; simpl in *;
    try discriminate; [ring |].
  rewrite IH by lia. ring.
Qed.

Lemma div_rows_hcat (v : list R) :
  div_rows (hcat A B) v = hcat (div_rows A v) (div_rows B v).
Proof.
  unfold div_rows, hcat. cbn. f_equal.
  clear. revert v. generalize (rows B).
  induction (rows A) as [| a ra IH]; intros [| b rb] v; simpl; try reflexivity.
  rewrite map_app. f_equal. apply IH.
Qed.

Lemma sum_dim0_length : length (sum_dim0 A) = ncols A.
Proof.
  rewrite (sum_dim0_cols A wfA), length_map, length_seq. reflexivity.
Qed.

Lemma sum_dim0_hcat : sum_dim0 (hcat A B) = sum_dim0 A ++ sum_dim0 B.
Proof.
  unfold sum_dim0, hcat. cbn. apply sum_columns_zip_app; assumption.
Qed.

Lemma div_cols_hcat (va vb : list R) :
  length va = ncols A ->
  div_cols (hcat A B) (va ++ vb) = hcat (div_cols A va) (div_cols B vb).
Proof.
  intros Hva. unfold div_cols, hcat, wf in *. cbn. f_equal.
  rewrite map_zipWith, zipWith_map_l, zipWith_map_r.
  apply zipWith_ext_in. intros a b Ha _.
  apply zipWith_app. rewrite Forall_forall in wfA. rewrite (wfA a Ha). congruence.
Qed.

End Hcat.

Lemma wf_div_rows (T : Tensor) (v : list R) : wf T -> wf (div_rows T v).
Proof. intros H. rewrite (div_rows_tabulate T v H). apply wf_tabulate. Qed.

Lemma nrows_div_rows (T : Tensor) (v : list R) :
  wf T -> nrows (div_rows T v) = nrows T.
Proof. intros H. rewrite (div_rows_tabulate T v H). apply nrows_tabulate. Qed.

Lemma wf_tmap (f : R -> R) (T : Tensor) : wf T -> wf (tmap f T).
Proof. intros H. rewrite (tmap_tabulate f T H). apply wf_tabulate. Qed.

Lemma nrows_tmap (f : R -> R) (T : Tensor) : nrows (tmap f T) = nrows T.
Proof. unfold nrows, tmap. cbn. apply length_map. Qed.

Lemma normalize_step_hcat (Bn : nat) (A B : Tensor) (v : list R) :
  wf A -> wf B -> nrows A = nrows B ->
  normalize_step Bn (hcat A B) v
  = hcat (normalize_step Bn A v) (normalize_step Bn B v).
Proof.
  intros HA HB Hrows. unfold normalize_step.
  rewrite div_rows_hcat.
  assert (HA1 : wf (div_rows A v)) by (apply wf_div_rows; exact HA).
  assert (HB1 : wf (div_rows B v)) by (apply wf_div_rows; exact HB).
  assert (Hrows1 : nrows (div_rows A v) = nrows (div_rows B v))
    by (rewrite !nrows_div_rows by assumption; exact Hrows).
  rewrite (sum_dim0_hcat _ _ HA1 HB1 Hrows1).
  rewrite (div_cols_hcat _ _ HA1) by (apply sum_dim0_length; exact HA1).
  unfold div_scalar. apply tmap_hcat.
Qed.

Lemma shard_of_normalize_step (K Bn : nat) (Q : Tensor) (v : list R) :
  shard_of K Q -> shard_of K (normalize_step Bn Q v).
Proof.
  intros [Hwf Hr]. split; [apply wf_normalize_step; exact Hwf |].
  rewrite (proj1 (normalize_step_shape Bn Q v Hwf)). exact Hr.
Qed.

Lemma shard_of_hcat_all (K : nat) :
  forall Qs Q,
    shard_of K Q -> Forall (shard_of K) Qs -> shard_of K (hcat_all Q Qs).
Proof.
  induction Qs as [| Q' Qs IH]; intros Q HQ HQs; [exact HQ |].
  inversion HQs as [| ? ? HQ' HQs']; subst. cbn [hcat_all].
  destruct HQ as [Hwf Hr]. destruct (IH Q' HQ' HQs') as [Hwf' Hr'].
  split; [apply wf_hcat; assumption |].
  rewrite nrows_hcat by congruence. exact Hr.
Qed.

Lemma sum_dim1_hcat_all :
  forall Qs Q,
    sum_dim1 (hcat_all Q Qs) = reduce_sum (sum_dim1 Q) (map sum_dim1 Qs).
Proof.
  induction Qs as [| Q' Qs IH]; intros Q; [reflexivity |].
  cbn [hcat_all map reduce_sum]. rewrite sum_dim1_hcat, IH. reflexivity.
Qed.

Lemma normalize_step_hcat_all (K Bn : nat) (v : list R) :
  forall Qs Q,
    shard_of K Q -> Forall (shard_of K) Qs ->
    normalize_step Bn (hcat_all Q Qs) v
    = hcat_all (normalize_step Bn Q v)
        (map (fun Q' => normalize_step Bn Q' v) Qs).
Proof.
  induction Qs as [| Q' Qs IH]; intros Q HQ HQs; [reflexivity |].
  inversion HQs as [| ? ? HQ' HQs']; subst. cbn [hcat_all map].
  destruct (shard_of_hcat_all K Qs Q' HQ' HQs') as [Hwf' Hr'].
  destruct HQ as [Hwf Hr].
  rewrite normalize_step_hcat by congruence.
  rewrite (IH Q' HQ' HQs'). reflexivity.
Qed.

Lemma local_loop_hcat_all (K Bn n : nat) :
  forall Q Qs,
    shard_of K Q -> Forall (shard_of K) Qs ->
    local_loop Bn n (hcat_all Q Qs)
    = hcat_all (fst (spmd_loop Bn n Q Qs)) (snd (spmd_loop Bn n Q Qs))
    /\ shard_of K (fst (spmd_loop Bn n Q Qs))
    /\ Forall (shard_of K) (snd (spmd_loop Bn n Q Qs)).
Proof.
  induction n as [| n IH]; intros Q Qs HQ HQs; [cbn; auto |].
  cbn [local_loop spmd_loop].
  rewrite sum_dim1_hcat_all.
  rewrite (normalize_step_hcat_all K Bn _ Qs Q HQ HQs).
  apply IH.
  - apply shard_of_normalize_step. exact HQ.
  - apply Forall_forall. intros T HT. apply in_map_iff in HT.
    destruct HT as [Q' [<- HQ']]. apply shard_of_normalize_step.
    rewrite Forall_forall in HQs. apply HQs. exact HQ'.
Qed.

(** ** A world of processes in lock step *)

Lemma all_calls_map {A X : Type} (g : X -> list R)
  (k : X -> list R -> Prog A) (xs : list X) :
  all_calls (map (fun x => AllReduce (g x) (k x)) xs)
  = Some (map (fun x => (g x, k x)) xs).
Proof.
  induction xs as [| x xs IH]; simpl; [reflexivity |]. rewrite IH. reflexivity.
Qed.

Lemma all_rets_map {A X : Type} (h : X -> A) (xs : list X) :
  all_rets (map (fun x => Ret (h x)) xs) = Some (map h xs).
Proof.
  induction xs as [| x xs IH]; simpl; [reflexivity |]. rewrite IH. reflexivity.
Qed.

Lemma run_spmd_from_calls {A X : Type} (g : X -> list R)
  (k : X -> list R -> Prog A) (x : X) (xs : list X) :
  run_spmd_from (AllReduce (g x) (k x))
    (map (fun x' => AllReduce (g x') (k x')) xs)
  = let total := reduce_sum (g x) (map g xs) in
    run_spmd_from (k x total) (map (fun x' => k x' total) xs).
Proof.
  cbn [run_spmd_from]. rewrite all_calls_map. cbn zeta.
  rewrite !map_map. cbn [fst snd]. reflexivity.
Qed.

Lemma run_spmd_loop (ws B n : nat) (C : Type) (f : Tensor -> Prog C) :
  (1 < ws)%nat ->
  forall Q Qs,
    run_spmd_from (bind (sinkhorn_loop ws B n Q) f)
      (map (fun Q' => bind (sinkhorn_loop ws B n Q') f) Qs)
    = run_spmd_from (f (fst (spmd_loop B n Q Qs)))
        (map f (snd (spmd_loop B n Q Qs))).
Proof.
  intros Hws. induction n as [| n IH]; intros Q Qs; [reflexivity |].
  assert (Hstep : forall Q',
            bind (sinkhorn_loop ws B (S n) Q') f
            = AllReduce (sum_dim1 Q')
                (fun v => bind (sinkhorn_loop ws B n (normalize_step B Q' v)) f)).
  { intros Q'. rewrite sinkhorn_loop_step, reduce_if_distributed_world by exact Hws.
    reflexivity. }
  rewrite Hstep, (map_ext _ _ Hstep).
  rewrite (run_spmd_from_calls sum_dim1
             (fun Q' v => bind (sinkhorn_loop ws B n (normalize_step B Q' v)) f)).
  cbn zeta. cbn [spmd_loop].
  rewrite <- IH, map_map. reflexivity.
Qed.

Lemma sinkhorn_world (dist : Dist) (out : Tensor) (iterations : Z)
  (epsilon : R) (gather : bool) :
  (1 < world_size_of dist gather)%nat ->
  sinkhorn dist out iterations epsilon gather
  = AllReduce [tsum (t (texp (div_scalar out epsilon)))]
      (fun sum_Q =>
         bind (sinkhorn_loop (world_size_of dist gather)
                 (nrows out * world_size_of dist gather)
                 (Z.to_nat iterations)
                 (div_scalar (t (texp (div_scalar out epsilon))) (hd 0 sum_Q)))
           (fun Q =>
              Ret (t (mul_scalar Q
                        (INR (nrows out * world_size_of dist gather)))))).
Proof.
  intros Hws. unfold sinkhorn. fold (world_size_of dist gather).
  rewrite reduce_if_distributed_world by exact Hws. cbn [bind].
  f_equal. extensionality sum_Q.
  replace (ncols (div_scalar (t (texp (div_scalar out epsilon))) (hd 0 sum_Q)))
    with (nrows out)
    by (unfold div_scalar, texp, tmap, t, nrows; cbn; rewrite !length_map;
        reflexivity).
  reflexivity.
Qed.

Lemma sinkhorn_one_process (dist : Dist) (out : Tensor) (iterations : Z)
  (epsilon : R) (gather : bool) :
  world_size_of dist gather = 1%nat ->
  sinkhorn dist out iterations epsilon gather
  = Ret (sinkhorn_local out iterations epsilon).
Proof.
  intros Hws. unfold sinkhorn, sinkhorn_local. fold (world_size_of dist gather).
  rewrite Hws, reduce_if_distributed_local by lia. cbn [bind hd].
  rewrite sinkhorn_loop_local. cbn [bind].
  rewrite Nat.mul_1_r. reflexivity.
Qed.

(** ** Transposition of batches and shards *)

Lemma map_seq_offset {A : Type} (f : nat -> A) :
  forall n a, map f (seq a n) = map (fun j => f (a + j)%nat) (seq 0 n).
Proof.
  induction n as [| n IH]; intros a; simpl; [reflexivity |].
  rewrite Nat.add_0_r. f_equal.
  rewrite IH, <- seq_shift, map_map. apply map_ext. intros j.
  f_equal. lia.
Qed.

Lemma column_zip_app_l (c j : nat) :
  forall ra rb,
    Forall (fun r => length r = c) ra -> length ra = length rb ->
    (j < c)%nat ->
    column j (zipWith (@app R) ra rb) = column j ra.
Proof.
  induction ra as [| a ra IH]; intros [| b rb] HA Hlen Hj; simpl in *;
    try discriminate; [reflexivity |].
  inversion HA; subst. f_equal; [apply app_nth1; lia |].
  apply IH; (assumption || lia).
Qed.

Lemma column_zip_app_r (c j : nat) :
  forall ra rb,
    Forall (fun r => length r = c) ra -> length ra = length rb ->
    column (c + j) (zipWith (@app R) ra rb) = column j rb.
Proof.
  induction ra as [| a ra IH]; intros [| b rb] HA Hlen; simpl in *;
    try discriminate; [reflexivity |].
  inversion HA as [| a' ra' Ha HA' Heq]. f_equal.
  - rewrite <- Ha. apply app_nth2_plus.
  - apply IH; [exact HA' | lia].
Qed.

Lemma t_hcat (A B : Tensor) :
  wf A -> wf B -> nrows A = nrows B ->
  t (hcat A B) = mkTensor (nrows A) (rows (t A) ++ rows (t B)).
Proof.
  intros HA HB Hrows. unfold t at 1.
  rewrite (nrows_hcat A B Hrows). f_equal.
  unfold hcat, t. cbn [ncols rows].
  rewrite seq_app, map_app. f_equal.
  - apply map_ext_in. intros j Hj. apply in_seq in Hj.
    apply (column_zip_app_l (ncols A)); [exact HA | exact Hrows | lia].
  - rewrite map_seq_offset. cbn [Nat.add]. apply map_ext. intros j.
    apply column_zip_app_r; [exact HA | exact Hrows].
Qed.

Lemma t_hcat_all (K : nat) :
  forall Qs Q,
    shard_of K Q -> Forall (shard_of K) Qs ->
    t (hcat_all Q Qs) = concat_shards K (map t (Q :: Qs)).
Proof.
  induction Qs as [| Q' Qs IH]; intros Q [Hwf Hr] HQs.
  - cbn. unfold concat_shards, t. cbn. rewrite app_nil_r, Hr. reflexivity.
  - inversion HQs as [| ? ? HQ' HQs']; subst. cbn [hcat_all].
    destruct (shard_of_hcat_all (nrows Q) Qs Q' HQ' HQs') as [Hwf' Hr'].
    rewrite t_hcat by congruence.
    rewrite (IH Q' HQ' HQs'). reflexivity.
Qed.

Lemma t_vcat (A B : Tensor) :
  ncols A = ncols B -> t (vcat A B) = hcat (t A) (t B).
Proof.
  intros Hc. unfold t, vcat, hcat, nrows. cbn [ncols rows].
  rewrite length_app. f_equal. rewrite <- Hc, zipWith_map_same.
  apply map_ext. intros j. apply map_app.
Qed.

Lemma tmap_vcat (f : R -> R) (A B : Tensor) :
  tmap f (vcat A B) = vcat (tmap f A) (tmap f B).
Proof. unfold tmap, vcat. cbn. rewrite map_app. reflexivity. Qed.

Lemma initial_Q_concat (K : nat) (epsilon : R) :
  forall outs out,
    Forall (fun o => ncols o = K) (out :: outs) ->
    initial_Q epsilon (concat_shards K (out :: outs))
    = hcat_all (initial_Q epsilon out) (map (initial_Q epsilon) outs).
Proof.
  induction outs as [| o' outs IH]; intros out Hc.
  - inversion Hc; subst. unfold concat_shards. cbn.
    rewrite app_nil_r. destruct out; reflexivity.
  - inversion Hc as [| ? ? Ho Hc']; subst.
    change (concat_shards (ncols out) (out :: o' :: outs))
      with (vcat out (concat_shards (ncols out) (o' :: outs))).
    unfold initial_Q at 1. unfold texp, div_scalar.
    rewrite !tmap_vcat, t_vcat by reflexivity.
    cbn [map hcat_all]. f_equal. apply (IH o' Hc').
Qed.

Lemma shard_of_initial_Q (epsilon : R) (out : Tensor) :
  shard_of (ncols out) (initial_Q epsilon out).
Proof.
  unfold initial_Q. split.
  - rewrite t_tabulate. apply wf_tabulate.
  - rewrite t_tabulate, nrows_tabulate. reflexivity.
Qed.

Lemma ncols_initial_Q (epsilon : R) (out : Tensor) :
  ncols (initial_Q epsilon out) = nrows out.
Proof.
  unfold initial_Q, texp, div_scalar, tmap, t, nrows. cbn.
  rewrite !length_map. reflexivity.
Qed.

Lemma tmap_hcat_all (f : R -> R) :
  forall Qs Q,
    tmap f (hcat_all Q Qs) = hcat_all (tmap f Q) (map (tmap f) Qs).
Proof.
  induction Qs as [| Q' Qs IH]; intros Q; [reflexivity |].
  cbn [hcat_all map]. rewrite tmap_hcat, IH. reflexivity.
Qed.

Lemma tsum_hcat_all (K : nat) :
  forall Qs Q,
    shard_of K Q -> Forall (shard_of K) Qs ->
    reduce_sum [tsum Q] (map (fun Q' => [tsum Q']) Qs)
    = [tsum (hcat_all Q Qs)].
Proof.
  induction Qs as [| Q' Qs IH]; intros Q HQ HQs; [reflexivity |].
  inversion HQs as [| ? ? HQ' HQs']; subst.
  cbn [map reduce_sum hcat_all]. rewrite (IH Q' HQ' HQs').
  destruct (shard_of_hcat_all K Qs Q' HQ' HQs') as [Hwf' Hr'].
  destruct HQ as [Hwf Hr].
  rewrite tsum_hcat by congruence. reflexivity.
Qed.

Lemma shards_of_concat (n c : nat) :
  forall Ts,
    Forall (fun T => nrows T = n /\ ncols T = c) Ts ->
    map (shard n (concat_shards c Ts)) (seq 0 (length Ts)) = Ts.
Proof.
  induction Ts as [| T Ts IH]; intros HTs; [reflexivity |].
  inversion HTs as [| ? ? [Hr Hc] HTs']; subst.
  cbn [length seq map]. f_equal.
  - unfold shard, concat_shards, nrows. cbn [ncols rows map concat Nat.mul skipn].
    rewrite firstn_app, firstn_all, Nat.sub_diag. cbn [firstn].
    rewrite app_nil_r. destruct T; reflexivity.
  - rewrite <- seq_shift, map_map. rewrite <- (IH HTs') at 2.
    apply map_ext. intros k. unfold shard, concat_shards. cbn [ncols rows map concat].
    f_equal. f_equal.
    replace (S k * nrows T)%nat with (length (rows T) + k * nrows T)%nat
      by (unfold nrows; lia).
    rewrite skipn_app, skipn_all2 by lia.
    replace (length (rows T) + k * nrows T - length (rows T))%nat
      with (k * nrows T)%nat by lia.
    reflexivity.
Qed.

(** ** Distributed consistency *)

Lemma nrows_t (T : Tensor) : nrows (t T) = ncols T.
Proof. unfold nrows, t. cbn. rewrite length_map, length_seq. reflexivity. Qed.

Lemma sinkhorn_local_shape (out : Tensor) (iterations : Z) (epsilon : R) :
  nrows (sinkhorn_local out iterations epsilon) = nrows out
  /\ ncols (sinkhorn_local out iterations epsilon) = ncols out.
Proof.
  unfold sinkhorn_local. fold (initial_Q epsilon out).
  set (Q0 := div_scalar (initial_Q epsilon out) (tsum (initial_Q epsilon out))).
  destruct (shard_of_initial_Q epsilon out) as [Hwf Hr].
  assert (Hwf0 : wf Q0) by (apply wf_tmap; exact Hwf).
  destruct (local_loop_shape (ncols Q0) (Z.to_nat iterations) Q0 Hwf0)
    as [_ [Hrn Hcn]].
  split.
  - rewrite nrows_t.
    change (ncols (local_loop (ncols Q0) (Z.to_nat iterations) Q0) = nrows out).
    rewrite Hcn. apply ncols_initial_Q.
  - change (nrows (mul_scalar (local_loop (ncols Q0) (Z.to_nat iterations) Q0)
                     (INR (ncols Q0))) = ncols out).
    unfold mul_scalar. rewrite nrows_tmap, Hrn.
    unfold Q0, div_scalar. rewrite nrows_tmap. exact Hr.
Qed.

Lemma concat_shards_length (n K : nat) :
  forall outs,
    Forall (fun o => nrows o = n) outs ->
    nrows (concat_shards K outs) = (n * length outs)%nat.
Proof.
  unfold nrows, concat_shards. cbn [rows].
  induction 1 as [| o outs Ho _ IH]; cbn [map concat length]; [lia |].
  rewrite length_app, IH. unfold nrows in Ho. lia.
Qed.

Lemma spmd_loop_ncols (n B it : nat) :
  forall Q Qs,
    Forall (fun Q' => wf Q' /\ ncols Q' = n) (Q :: Qs) ->
    Forall (fun Q' => wf Q' /\ ncols Q' = n)
      (fst (spmd_loop B it Q Qs) :: snd (spmd_loop B it Q Qs)).
Proof.
  induction it as [| it IH]; intros Q Qs H; [exact H |].
  cbn [spmd_loop].
  set (total := reduce_sum (sum_dim1 Q) (map sum_dim1 Qs)).
  assert (Hstep : Forall (fun Q' => wf Q' /\ ncols Q' = n)
                    (map (fun Q' => normalize_step B Q' total) (Q :: Qs))).
  { apply Forall_forall. intros T HT. apply in_map_iff in HT.
    destruct HT as [Q' [<- HQ']]. rewrite Forall_forall in H.
    destruct (H Q' HQ') as [Hwf Hc]. split.
    - apply wf_normalize_step. exact Hwf.
    - rewrite (proj2 (normalize_step_shape B Q' total Hwf)). exact Hc. }
  apply (IH _ _ Hstep).
Qed.

Lemma spmd_loop_length (B it : nat) :
  forall Q Qs, length (snd (spmd_loop B it Q Qs)) = length Qs.
Proof.
  induction it as [| it IH]; intros Q Qs; [reflexivity |].
  cbn [spmd_loop]. rewrite IH. apply length_map.
Qed.

(** The codes of every process of a world, and the codes of one process on
    the whole batch. *)
Lemma sinkhorn_world_codes (dist : Dist) (n K : nat) (iterations : Z)
  (epsilon : R) (out : Tensor) (outs : list Tensor) :
  Forall (fun o => wf o /\ nrows o = n /\ ncols o = K) (out :: outs) ->
  is_initialized dist = true ->
  get_world_size dist = length (out :: outs) ->
  exists Ts,
    run_spmd (map (fun o => sinkhorn dist o iterations epsilon true)
                (out :: outs)) = Some Ts
    /\ sinkhorn_local (concat_shards K (out :: outs)) iterations epsilon
       = concat_shards K Ts
    /\ Forall (fun T => nrows T = n /\ ncols T = K) Ts
    /\ length Ts = length (out :: outs).
Proof.
  intros Hall Hinit Hws.
  assert (Hws' : world_size_of dist true = length (out :: outs))
    by (unfold world_size_of; rewrite Hinit; exact Hws).
  inversion Hall as [| ? ? [Hwf [Hr Hc]] Hall']; subst.
  destruct outs as [| o' os].
  - (* a world of one process *)
    destruct (sinkhorn_local_shape out iterations epsilon) as [Hrs Hcs].
    assert (Hcat : concat_shards (ncols out) [out] = out).
    { unfold concat_shards. cbn [map concat]. rewrite app_nil_r.
      destruct out; reflexivity. }
    rewrite Hcat. cbn [map run_spmd].
    rewrite (sinkhorn_one_process dist out iterations epsilon true Hws').
    set (c := sinkhorn_local out iterations epsilon) in *.
    exists [c]. split; [reflexivity |].
    split; [| split; [repeat constructor; assumption | reflexivity]].
    unfold concat_shards. cbn [map concat]. rewrite app_nil_r, <- Hcs.
    destruct c; reflexivity.
  - (* several processes *)
    set (all := out :: o' :: os) in *.
    set (ws := world_size_of dist true) in *.
    assert (Hgt : (1 < ws)%nat) by (rewrite Hws'; cbn; lia).
    set (B := (nrows out * ws)%nat).
    set (fin := fun Q => t (mul_scalar Q (INR B))).
    set (S0 := tsum (hcat_all (initial_Q epsilon out)
                       (map (initial_Q epsilon) (o' :: os)))).
    set (Q0 := div_scalar (initial_Q epsilon out) S0).
    set (Qs0 := map (fun o => div_scalar (initial_Q epsilon o) S0) (o' :: os)).
    exists (map fin (fst (spmd_loop B (Z.to_nat iterations) Q0 Qs0)
                     :: snd (spmd_loop B (Z.to_nat iterations) Q0 Qs0))).
    assert (HK : Forall (shard_of (ncols out))
                   (map (initial_Q epsilon) (o' :: os))).
    { apply Forall_forall. intros T HT. apply in_map_iff in HT.
      destruct HT as [o [<- Ho]]. rewrite Forall_forall in Hall'.
      destruct (Hall' o Ho) as [_ [_ Hco]]. rewrite <- Hco.
      apply shard_of_initial_Q. }
    assert (HK0 : shard_of (ncols out) Q0).
    { destruct (shard_of_initial_Q epsilon out) as [H1 H2].
      split; [apply wf_tmap; exact H1 |].
      unfold Q0, div_scalar. rewrite nrows_tmap. exact H2. }
    assert (HKs0 : Forall (shard_of (ncols out)) Qs0).
    { apply Forall_forall. intros T HT. apply in_map_iff in HT.
      destruct HT as [o [<- Ho]]. rewrite Forall_forall in Hall'.
      destruct (Hall' o Ho) as [_ [_ Hco]]. rewrite <- Hco.
      destruct (shard_of_initial_Q epsilon o) as [H1 H2].
      split; [apply wf_tmap; exact H1 |].
      unfold div_scalar. rewrite nrows_tmap. exact H2. }
    destruct (local_loop_hcat_all (ncols out) B (Z.to_nat iterations) Q0 Qs0
                HK0 HKs0) as [Hloop [HKn HKsn]].
    assert (Hn : Forall (fun Q' => wf Q' /\ ncols Q' = nrows out)
                   (fst (spmd_loop B (Z.to_nat iterations) Q0 Qs0)
                    :: snd (spmd_loop B (Z.to_nat iterations) Q0 Qs0))).
    { apply spmd_loop_ncols. apply Forall_forall. intros T HT.
      destruct HT as [<- | HT].
      - split; [apply HK0 |]. apply ncols_initial_Q.
      - apply in_map_iff in HT. destruct HT as [o [<- Ho]].
        rewrite Forall_forall in Hall', HKs0.
        destruct (Hall' o Ho) as [_ [Hro _]].
        split; [| cbn; rewrite <- Hro; apply ncols_initial_Q].
        apply HKs0. apply in_map_iff. exists o. auto. }
    split; [| split; [| split]].
    + (* the run of the world *)
      unfold all. rewrite map_cons. cbn [run_spmd].
      assert (Hprog : forall o, In o (out :: o' :: os) ->
                sinkhorn dist o iterations epsilon true
                = AllReduce [tsum (initial_Q epsilon o)]
                    (fun sum_Q =>
                       bind (sinkhorn_loop ws B (Z.to_nat iterations)
                               (div_scalar (initial_Q epsilon o) (hd 0 sum_Q)))
                         (fun Q => Ret (fin Q)))).
      { intros o Ho. rewrite sinkhorn_world by exact Hgt. fold ws.
        rewrite Forall_forall in Hall. destruct (Hall o Ho) as [_ [Hro _]].
        rewrite Hro. reflexivity. }
      rewrite (Hprog out) by (left; reflexivity).
      rewrite (map_ext_in _ _ (o' :: os)
                 (fun o Ho => Hprog o (or_intror Ho))).
      rewrite (run_spmd_from_calls
                 (fun o => [tsum (initial_Q epsilon o)])
                 (fun o sum_Q =>
                    bind (sinkhorn_loop ws B (Z.to_nat iterations)
                            (div_scalar (initial_Q epsilon o) (hd 0 sum_Q)))
                      (fun Q => Ret (fin Q)))).
      cbn zeta.
      rewrite <- (map_map (initial_Q epsilon) (fun Q' => [tsum Q'])).
      rewrite (tsum_hcat_all (ncols out) _ _
                 (shard_of_initial_Q epsilon out) HK).
      cbn [hd]. fold S0. fold Q0.
      rewrite <- (map_map (fun o => div_scalar (initial_Q epsilon o) S0)
                    (fun Q' => bind (sinkhorn_loop ws B (Z.to_nat iterations) Q')
                                 (fun Q => Ret (fin Q)))).
      fold Qs0. rewrite (run_spmd_loop ws B _ _ _ Hgt).
      cbn [run_spmd_from]. rewrite all_rets_map. reflexivity.
    + (* one process on the whole batch *)
      assert (HQc : initial_Q epsilon (concat_shards (ncols out) all)
                    = hcat_all (initial_Q epsilon out)
                        (map (initial_Q epsilon) (o' :: os))).
      { apply initial_Q_concat. eapply Forall_impl; [| exact Hall].
        intros o [_ [_ Ho]]. exact Ho. }
      assert (HQ0 : div_scalar (initial_Q epsilon (concat_shards (ncols out) all)) S0
                    = hcat_all Q0 Qs0).
      { rewrite HQc. unfold div_scalar, Q0, Qs0.
        rewrite tmap_hcat_all, map_map. reflexivity. }
      assert (HB : ncols (hcat_all Q0 Qs0) = B).
      { rewrite <- HQ0. unfold div_scalar. cbn [ncols tmap].
        rewrite ncols_initial_Q.
        rewrite (concat_shards_length (nrows out))
          by (eapply Forall_impl; [| exact Hall]; intros o [_ [Ho _]]; exact Ho).
        unfold B. rewrite Hws'. reflexivity. }
      unfold sinkhorn_local.
      fold (initial_Q epsilon (concat_shards (ncols out) all)).
      replace (tsum (initial_Q epsilon (concat_shards (ncols out) all)))
        with S0 by (unfold S0; rewrite HQc; reflexivity).
      rewrite HQ0.
      rewrite HB, Hloop. unfold mul_scalar. rewrite tmap_hcat_all.
      rewrite (t_hcat_all (ncols out)).
      * rewrite <- map_cons, map_map. reflexivity.
      * destruct HKn as [H1 H2]. split; [apply wf_tmap; exact H1 |].
        rewrite nrows_tmap. exact H2.
      * apply Forall_forall. intros T HT. apply in_map_iff in HT.
        destruct HT as [Q [<- HQ]]. rewrite Forall_forall in HKsn.
        destruct (HKsn Q HQ) as [H1 H2]. split; [apply wf_tmap; exact H1 |].
        rewrite nrows_tmap. exact H2.
    + apply Forall_forall. intros T HT. apply in_map_iff in HT.
      destruct HT as [Q [<- HQ]]. unfold fin.
      rewrite Forall_forall in Hn. destruct (Hn Q HQ) as [_ Hcq].
      split; [rewrite nrows_t; exact Hcq |].
      change (nrows (mul_scalar Q (INR B)) = ncols out).
      unfold mul_scalar. rewrite nrows_tmap.
      destruct HQ as [<- | HQ]; [apply HKn |].
      rewrite Forall_forall in HKsn. apply HKsn. exact HQ.
    + rewrite length_map. cbn [length]. rewrite spmd_loop_length.
      unfold Qs0. rewrite length_map. reflexivity.
Qed.

(** C1. Let a batch be cut into [W >= 1] well-formed shards of [n] rows and
    [K] columns each, one per process of an initialised world of size [W].
    When every process runs [sinkhorn] with [gather_distributed=True] on its
    shard, [all_reduce] summing the contributions element-wise, process [k]
    returns exactly the rows of shard [k] of the codes that a single process
    with [gather_distributed=False] returns on the row-concatenation of the
    shards, for the same iterations and epsilon. *)
Theorem sinkhorn_distributed_consistency :
  forall (dist single : Dist) (outs : list Tensor) (n K : nat)
         (iterations : Z) (epsilon : R),
    outs <> [] ->
    Forall (fun o => wf o /\ nrows o = n /\ ncols o = K) outs ->
    is_initialized dist = true ->
    get_world_size dist = length outs ->
    exists codes,
      sinkhorn single (concat_shards K outs) iterations epsilon false
      = Ret codes
      /\ run_spmd (map (fun o => sinkhorn dist o iterations epsilon true) outs)
         = Some (map (shard n codes) (seq 0 (length outs))).
Proof.
  intros dist single outs n K iterations epsilon Hne Hall Hinit Hws.
  destruct outs as [| out outs]; [congruence |].
  destruct (sinkhorn_world_codes dist n K iterations epsilon out outs
              Hall Hinit Hws) as [Ts [Hrun [Hcodes [Hshape Hlen]]]].
  exists (sinkhorn_local (concat_shards K (out :: outs)) iterations epsilon).
  split; [apply sinkhorn_no_gather |].
  rewrite Hrun, Hcodes, <- Hlen. f_equal. symmetry.
  apply shards_of_concat. exact Hshape.
Qed.

Lemma sinkhorn_distributed_consistency_witness :
  exists codes,
    sinkhorn (mkDist false false 1)
      (concat_shards 2 [mkTensor 2 [[0; 1]]; mkTensor 2 [[1; 0]]]) 3 (1 / 20)
      false = Ret codes
    /\ run_spmd (map (fun o => sinkhorn (mkDist true true 2) o 3 (1 / 20) true)
                   [mkTensor 2 [[0; 1]]; mkTensor 2 [[1; 0]]])
       = Some (map (shard 1 codes) (seq 0 2)).
Proof.
  apply (sinkhorn_distributed_consistency (mkDist true true 2)
           (mkDist false false 1)
           [mkTensor 2 [[0; 1]]; mkTensor 2 [[1; 0]]] 1 2 3 (1 / 20)).
  - discriminate.
  - unfold wf, nrows. cbn. repeat constructor.
  - reflexivity.
  - reflexivity.
Defined.

(** ** What a process can return *)

Lemma all_leaves_impl {A : Type} (P P' : A -> Prop) (p : Prog A) :
  (forall a, P a -> P' a) -> all_leaves P p -> all_leaves P' p.
Proof.
  intros HPP'. induction p as [a | x k IH]; cbn; [apply HPP' |].
  intros Hk y. apply IH, Hk.
Qed.

Lemma all_leaves_bind {A B : Type} (P : B -> Prop) (p : Prog A)
  (f : A -> Prog B) :
  all_leaves (fun a => all_leaves P (f a)) p -> all_leaves P (bind p f).
Proof.
  induction p as [a | x k IH]; cbn; [auto |].
  intros Hk y. apply IH, Hk.
Qed.

Lemma all_leaves_mbind {A B : Type} (P : result B -> Prop) (p : M A)
  (f : A -> M B) :
  all_leaves (fun r => match r with
                       | Ok a => all_leaves P (f a)
                       | Err e => P (Err e)
                       end) p ->
  all_leaves P (mbind p f).
Proof.
  induction p as [[a | e] | x k IH]; cbn; auto.
Qed.

Lemma all_leaves_reduce {P : list R -> Prop} (ws : nat) (x : list R) :
  (forall y, P y) -> all_leaves P (reduce_if_distributed ws x).
Proof.
  intros HP. unfold reduce_if_distributed, all_reduce.
  destruct (1 <? ws)%nat; cbn; auto.
Qed.

Lemma bind_ext_leaves {A B : Type} (p : Prog A) (f g : A -> Prog B) :
  all_leaves (fun a => f a = g a) p -> bind p f = bind p g.
Proof.
  induction p as [a | x k IH]; cbn; [auto |].
  intros Hk. f_equal. extensionality y. apply IH, Hk.
Qed.

Lemma bind_bind {A B C : Type} (p : Prog A) (f : A -> Prog B)
  (g : B -> Prog C) :
  bind (bind p f) g = bind p (fun a => bind (f a) g).
Proof.
  induction p as [a | x k IH]; cbn; [reflexivity |].
  f_equal. extensionality y. apply IH.
Qed.

Lemma mbind_bind {A B C : Type} (p : Prog A) (f : A -> M B) (g : B -> M C) :
  mbind (bind p f) g = bind p (fun a => mbind (f a) g).
Proof.
  induction p as [a | x k IH]; cbn; [reflexivity |].
  f_equal. extensionality y. apply IH.
Qed.

Lemma div_rows_list_length :
  forall rs v, length (div_rows_list rs v) = length rs.
Proof.
  induction rs as [| r rs IH]; intros v; simpl; [reflexivity |].
  rewrite IH. reflexivity.
Qed.

Lemma normalize_step_dims (B : nat) (Q : Tensor) (v : list R) :
  nrows (normalize_step B Q v) = nrows Q
  /\ ncols (normalize_step B Q v) = ncols Q.
Proof.
  unfold normalize_step, div_scalar, div_cols, div_rows, tmap, nrows. cbn.
  rewrite !length_map, div_rows_list_length. auto.
Qed.

Lemma sinkhorn_loop_dims (ws B n : nat) :
  forall Q,
    all_leaves (fun Q' => nrows Q' = nrows Q /\ ncols Q' = ncols Q)
      (sinkhorn_loop ws B n Q).
Proof.
  induction n as [| n IH]; intros Q; [cbn; auto |].
  rewrite sinkhorn_loop_step. apply all_leaves_bind, all_leaves_reduce.
  intros v. eapply all_leaves_impl; [| apply IH].
  intros Q' [Hr Hc]. destruct (normalize_step_dims B Q v) as [Hr' Hc'].
  split; congruence.
Qed.

(** Whatever the collective calls return, the codes have the shape of the
    input. *)
Lemma sinkhorn_dims (dist : Dist) (out : Tensor) (iterations : Z)
  (epsilon : R) (gather : bool) :
  all_leaves (fun q => nrows q = nrows out /\ ncols q = ncols out)
    (sinkhorn dist out iterations epsilon gather).
Proof.
  unfold sinkhorn. apply all_leaves_bind, all_leaves_reduce. intros sum_Q.
  apply all_leaves_bind. eapply all_leaves_impl; [| apply sinkhorn_loop_dims].
  intros Q [Hr Hc]. cbn [all_leaves]. split.
  - rewrite nrows_t. change (ncols Q = nrows out). rewrite Hc.
    apply (ncols_initial_Q epsilon out).
  - change (nrows (mul_scalar Q (INR (ncols (div_scalar (initial_Q epsilon out)
                                               (hd 0 sum_Q))
                                       * (if gather && is_initialized dist
                                          then get_world_size dist else 1))))
            = ncols out).
    unfold mul_scalar. rewrite nrows_tmap, Hr. unfold div_scalar.
    rewrite nrows_tmap. apply (shard_of_initial_Q epsilon out).
Qed.

(** ** Shapes the forward pass accepts *)

Lemma for_each_leaves {S : Type} (Inv : S -> Prop) (okb : nat -> bool)
  (body : nat -> S -> M S) :
  forall idx,
    (forall i s, In i idx -> Inv s ->
                 all_leaves (leaf_ok (okb i) Inv) (body i s)) ->
    forall s, Inv s ->
      all_leaves (leaf_ok (forallb okb idx) Inv) (for_each idx body s).
Proof.
  induction idx as [| i idx IH]; intros Hbody s Hs.
  - cbn. auto.
  - cbn [for_each]. apply all_leaves_mbind.
    eapply all_leaves_impl; [| apply (Hbody i s); [left; reflexivity | exact Hs]].
    intros [s' | e]; cbn [leaf_ok forallb].
    + intros [Hok Hs']. rewrite Hok. cbn [andb].
      apply IH; [| exact Hs'].
      intros j s0 Hj. apply Hbody. right. exact Hj.
    + intros Hok. rewrite Hok. reflexivity.
Qed.

Lemma index_nth {A : Type} (xs : list A) (i : nat) (d : A) :
  (i < length xs)%nat -> index xs i = Ok (nth i xs d).
Proof.
  intros Hi. unfold index. rewrite (nth_error_nth' xs d Hi). reflexivity.
Qed.

Lemma subloss_ok (self : SwaVLoss.Self) (z q : Tensor) :
  is_ok (SwaVLoss.subloss self z q) = compatible q z.
Proof.
  unfold SwaVLoss.subloss, tmul, compatible.
  replace (nrows (log_softmax (div_scalar z (SwaVLoss.temperature self))))
    with (nrows z)
    by (unfold log_softmax, div_scalar, tmap, nrows; cbn;
        rewrite !length_map; reflexivity).
  cbn [ncols log_softmax div_scalar tmap].
  destruct (broadcast_dim (nrows q) (nrows z)),
    (broadcast_dim (ncols q) (ncols z)); reflexivity.
Qed.

Lemma compatible_dims (a a' z : Tensor) :
  nrows a = nrows a' -> ncols a = ncols a' ->
  compatible a z = compatible a' z.
Proof. intros Hr Hc. unfold compatible. rewrite Hr, Hc. reflexivity. Qed.

Lemma compatible_refl (a : Tensor) : compatible a a = true.
Proof. unfold compatible. rewrite !broadcast_dim_same. reflexivity. Qed.

Lemma forallb_range_nth {A : Type} (f : A -> bool) (d : A) (l : list A) :
  forallb (fun v => f (nth v l d)) (range (length l)) = forallb f l.
Proof.
  unfold range. induction l as [| a l IH]; [reflexivity |].
  cbn [length seq forallb nth]. f_equal.
  rewrite <- seq_shift. rewrite <- IH. clear.
  generalize (seq 0 (length l)). induction l0 as [| v vs IH]; [reflexivity |].
  cbn [map forallb nth]. rewrite IH. reflexivity.
Qed.

Lemma forallb_ext_in {A : Type} (f g : A -> bool) (l : list A) :
  (forall a, In a l -> f a = g a) -> forallb f l = forallb g l.
Proof.
  induction l as [| a l IH]; intros H; [reflexivity |].
  cbn [forallb]. rewrite (H a) by (left; reflexivity).
  rewrite IH; [reflexivity |]. intros b Hb. apply H. right. exact Hb.
Qed.

Lemma high_loop_leaves (self : SwaVLoss.Self) (high : list Tensor)
  (q : Tensor) (i : nat) (sub : list R) :
  length sub = 1%nat ->
  all_leaves
    (leaf_ok
       (forallb (fun v => (v =? i)%nat
                          || compatible q (nth v high (mkTensor 0 [])))
          (range (length high)))
       (fun s => length s = 1%nat))
    (for_each (range (length high)) (fun v sub =>
       if (v =? i)%nat then mret sub
       else
         hv <~ lift (index high v) ;;
         s <~ lift (SwaVLoss.subloss self hv q) ;;
         mret (iadd_scalar sub s)) sub).
Proof.
  intros Hsub. apply for_each_leaves; [| exact Hsub].
  intros v s Hv Hs. apply in_seq in Hv.
  destruct (v =? i)%nat; [cbn; auto |].
  rewrite (index_nth high v (mkTensor 0 [])) by lia. cbn [lift mbind orb].
  rewrite <- (subloss_ok self).
  destruct (SwaVLoss.subloss self (nth v high (mkTensor 0 [])) q) as [x | e];
    cbn; [| reflexivity].
  unfold iadd_scalar. rewrite length_map. auto.
Qed.

Lemma low_loop_leaves (self : SwaVLoss.Self) (low : list Tensor)
  (q : Tensor) (sub : list R) :
  length sub = 1%nat ->
  all_leaves
    (leaf_ok
       (forallb (fun v => compatible q (nth v low (mkTensor 0 [])))
          (range (length low)))
       (fun s => length s = 1%nat))
    (for_each (range (length low)) (fun v sub =>
       lv <~ lift (index low v) ;;
       s <~ lift (SwaVLoss.subloss self lv q) ;;
       mret (iadd_scalar sub s)) sub).
Proof.
  intros Hsub. apply for_each_leaves; [| exact Hsub].
  intros v s Hv Hs. apply in_seq in Hv.
  rewrite (index_nth low v (mkTensor 0 [])) by lia. cbn [lift mbind].
  rewrite <- (subloss_ok self).
  destruct (SwaVLoss.subloss self (nth v low (mkTensor 0 [])) q) as [x | e];
    cbn; [| reflexivity].
  unfold iadd_scalar. rewrite length_map. auto.
Qed.

Lemma forallb_high_compatible (high : list Tensor) (i : nat) (q : Tensor) :
  nrows q = nrows (nth i high (mkTensor 0 [])) ->
  ncols q = ncols (nth i high (mkTensor 0 [])) ->
  forallb (fun v => (v =? i)%nat || compatible q (nth v high (mkTensor 0 [])))
    (range (length high))
  = forallb (compatible (nth i high (mkTensor 0 []))) high.
Proof.
  intros Hr Hc.
  rewrite <- (forallb_range_nth (compatible (nth i high (mkTensor 0 [])))
                (mkTensor 0 []) high).
  apply forallb_ext_in. intros v _.
  rewrite (compatible_dims q (nth i high (mkTensor 0 [])) _ Hr Hc).
  destruct (v =? i)%nat eqn:E; [| reflexivity].
  apply Nat.eqb_eq in E. subst v. rewrite compatible_refl. reflexivity.
Qed.

Lemma forallb_low_compatible (low : list Tensor) (hi q : Tensor) :
  nrows q = nrows hi -> ncols q = ncols hi ->
  forallb (fun v => compatible q (nth v low (mkTensor 0 [])))
    (range (length low))
  = forallb (compatible hi) low.
Proof.
  intros Hr Hc.
  rewrite <- (forallb_range_nth (compatible hi) (mkTensor 0 []) low).
  apply forallb_ext_in. intros v _. apply compatible_dims; assumption.
Qed.

(** The forward pass raises exactly when the shapes are not accepted, and
    what it returns otherwise has one element; this holds whatever the
    collective calls hand back. *)
Lemma forward_leaves (self : SwaVLoss.Self) (dist : Dist)
  (high low : list Tensor) (queue : option (list Tensor)) :
  all_leaves (leaf_ok (shapes_ok high low queue) (fun l => length l = 1%nat))
    (SwaVLoss.forward self dist high low queue).
Proof.
  unfold SwaVLoss.forward.
  destruct (index high 0) as [h0 | e] eqn:Hidx.
  2: { cbn. unfold shapes_ok. unfold index in Hidx.
       destruct high; [reflexivity | discriminate]. }
  assert (Hne : (length high =? 0)%nat = false)
    by (destruct high; [discriminate | reflexivity]).
  cbn [lift mbind]. apply all_leaves_mbind.
  eapply all_leaves_impl;
    [| apply (for_each_leaves (fun l => length l = 1%nat)
                (crop_shapes_ok high low queue))].
  - intros [l | e]; cbn [leaf_ok].
    + intros [Hok Hl]. cbn. unfold shapes_ok.
      rewrite Hok, Hne, length_map. auto.
    + intros Hok. unfold shapes_ok. rewrite Hok. apply andb_false_r.
  - intros i loss Hi Hloss. apply in_seq in Hi.
    assert (Hi' : (i < length high)%nat) by lia.
    rewrite (index_nth high i (mkTensor 0 [])) by exact Hi'.
    unfold crop_shapes_ok. rewrite (nth_error_nth' high (mkTensor 0 []) Hi').
    set (hi := nth i high (mkTensor 0 [])).
    cbn [lift mbind].
    assert (Htail : forall outputs (sel : Tensor -> Tensor),
      (forall q, nrows q = nrows outputs -> ncols q = ncols outputs ->
                 nrows (sel q) = nrows hi /\ ncols (sel q) = ncols hi) ->
      all_leaves
        (leaf_ok (forallb (compatible hi) high && forallb (compatible hi) low)
           (fun l => length l = 1%nat))
        (q <~ liftP (sinkhorn dist outputs (SwaVLoss.sinkhorn_iterations self)
                       (SwaVLoss.sinkhorn_epsilon self)
                       (SwaVLoss.sinkhorn_gather_distributed self)) ;;
         let q := sel q in
         sub <~ for_each (range (length high)) (fun v sub =>
           if (v =? i)%nat then mret sub
           else
             hv <~ lift (index high v) ;;
             s <~ lift (SwaVLoss.subloss self hv q) ;;
             mret (iadd_scalar sub s)) (new_zeros 1) ;;
         sub <~ for_each (range (length low)) (fun v sub =>
           lv <~ lift (index low v) ;;
           s <~ lift (SwaVLoss.subloss self lv q) ;;
           mret (iadd_scalar sub s)) sub ;;
         mret (iadd loss
                 (map (fun x => x / IZR (Z.of_nat (length high)
                                         + Z.of_nat (length low) - 1)) sub)))).
    { intros outputs sel Hsel. apply all_leaves_mbind.
      unfold liftP. apply all_leaves_bind.
      eapply all_leaves_impl; [| apply sinkhorn_dims].
      intros q [Hr Hc]. cbn [mret all_leaves]. cbn zeta.
      destruct (Hsel q Hr Hc) as [Hr' Hc'].
      apply all_leaves_mbind.
      eapply all_leaves_impl; [| apply high_loop_leaves; reflexivity].
      rewrite (forallb_high_compatible high i (sel q) Hr' Hc'). fold hi.
      intros [sub | e]; cbn [leaf_ok].
      - intros [Hok Hsub]. rewrite Hok. cbn [andb].
        apply all_leaves_mbind.
        eapply all_leaves_impl; [| apply low_loop_leaves; exact Hsub].
        rewrite (forallb_low_compatible low hi (sel q) Hr' Hc').
        intros [sub' | e]; cbn [leaf_ok].
        + intros [Hok' Hsub']. cbn. split; [exact Hok' |].
          unfold iadd. rewrite zipWith_length, length_map, Hloss, Hsub'.
          reflexivity.
        + intros Hok'. exact Hok'.
      - intros Hok. rewrite Hok. reflexivity. }
    destruct queue as [qs |].
    + destruct (index qs i) as [qi | e] eqn:Hqi; unfold index in Hqi;
        destruct (nth_error qs i) as [qi' |]; try discriminate.
      * injection Hqi as ->. cbn [lift mbind]. unfold cat.
        destruct (ncols hi =? ncols qi)%nat eqn:Hc; cbn [lift mbind andb].
        -- apply (Htail (vcat hi qi) (fun q => slice_rows q (nrows hi))).
           intros q Hr Hcq. unfold slice_rows, vcat, nrows in *.
           cbn [rows ncols] in *. rewrite length_app in Hr.
           rewrite length_firstn, Hr. split; [lia | exact Hcq].
        -- cbn. reflexivity.
      * cbn. reflexivity.
    + cbn [mret mbind andb]. apply (Htail hi (fun q => q)). auto.
  - reflexivity.
Qed.

(** Without gathering, the forward pass makes no collective call. *)
Lemma mbind_ret {A B : Type} (p : M A) (f : A -> M B) :
  (exists r, p = Ret r) -> (forall a, exists r, f a = Ret r) ->
  exists r, mbind p f = Ret r.
Proof.
  intros [[a | e] ->] Hf; cbn; [apply Hf | eauto].
Qed.

Lemma for_each_ret {S : Type} (body : nat -> S -> M S) :
  (forall i s, exists r, body i s = Ret r) ->
  forall idx s, exists r, for_each idx body s = Ret r.
Proof.
  intros Hbody. induction idx as [| i idx IH]; intros s; cbn [for_each].
  - unfold mret. eauto.
  - apply mbind_ret; [apply Hbody | apply IH].
Qed.

Lemma forward_no_gather (self : SwaVLoss.Self) (dist : Dist)
  (high low : list Tensor) (queue : option (list Tensor)) :
  SwaVLoss.sinkhorn_gather_distributed self = false ->
  exists r, SwaVLoss.forward self dist high low queue = Ret r.
Proof.
  intros Hg. unfold SwaVLoss.forward. rewrite Hg.
  apply mbind_ret; [unfold lift; eauto |]. intros h0.
  apply mbind_ret; [| unfold mret; eauto].
  apply for_each_ret. intros i loss.
  apply mbind_ret; [unfold lift; eauto |]. intros hi.
  apply mbind_ret.
  { destruct queue as [qs |]; [| unfold mret; eauto].
    apply mbind_ret; unfold lift; eauto. }
  intros outputs. apply mbind_ret.
  { rewrite sinkhorn_no_gather. unfold liftP, mret. cbn. eauto. }
  intros q. cbn zeta.
  apply mbind_ret.
  { apply for_each_ret. intros v sub. destruct (v =? i)%nat; [unfold mret; eauto |].
    apply mbind_ret; [unfold lift; eauto |]. intros hv.
    apply mbind_ret; [unfold lift; eauto |]. intros s. unfold mret. eauto. }
  intros sub. apply mbind_ret; [| unfold mret; eauto].
  apply for_each_ret. intros v sub'.
  apply mbind_ret; [unfold lift; eauto |]. intros lv.
  apply mbind_ret; [unfold lift; eauto |]. intros s. unfold mret. eauto.
Qed.

(** C5 as stated fails: a low resolution output with one column against
    codes with two columns has a different prototype dimension, and the
    forward pass returns a loss. *)
Lemma forward_accepts_mismatched_prototypes :
  ncols (mkTensor 1 [[0]; [0]]) <> ncols (mkTensor 2 [[0; 0]; [0; 0]])
  /\ exists loss,
       SwaVLoss.forward (SwaVLoss.mkSelf (1 / 10) 3 (1 / 20) false)
         (mkDist false false 1)
         [mkTensor 2 [[0; 0]; [0; 0]]; mkTensor 2 [[0; 0]; [0; 0]]]
         [mkTensor 1 [[0]; [0]]] None
       = Ret (Ok loss).
Proof.
  split; [cbn; discriminate |].
  set (self := SwaVLoss.mkSelf (1 / 10) 3 (1 / 20) false).
  set (dist := mkDist false false 1).
  set (high := [mkTensor 2 [[0; 0]; [0; 0]]; mkTensor 2 [[0; 0]; [0; 0]]]).
  set (low := [mkTensor 1 [[0]; [0]]]).
  destruct (forward_no_gather self dist high low None eq_refl) as [r Hr].
  pose proof (forward_leaves self dist high low None) as Hleaf.
  rewrite Hr in *. cbn [all_leaves] in Hleaf.
  destruct r as [loss | e]; [eauto |].
  cbn [leaf_ok] in Hleaf. discriminate Hleaf.
Qed.

(** C5 as amended. The forward pass has no check of its own: it raises
    exactly when a tensor operation it calls rejects the shapes, that is
    when there is no high resolution output, a queue entry is missing or
    has another number of columns than its crop, or the shape of some
    crop does not broadcast against the shape of a high resolution crop
    (a dimension differs and neither size is 1); in every other case it
    goes on to compute a loss. *)
Theorem forward_raises_iff_shapes_rejected :
  forall (self : SwaVLoss.Self) (dist : Dist) (high low : list Tensor)
         (queue : option (list Tensor)),
    all_leaves (fun r => is_ok r = shapes_ok high low queue)
      (SwaVLoss.forward self dist high low queue).
Proof.
  intros self dist high low queue.
  eapply all_leaves_impl; [| apply forward_leaves].
  intros [l | e]; cbn [leaf_ok is_ok]; [intros [H _] | intros H];
    symmetry; exact H.
Qed.

(** C6. For a non-empty list of high resolution outputs and shapes the
    tensor operations accept, the forward pass returns a tensor with a
    single element, whatever the number of crops, the batch size, and
    whether a queue is given. *)
Theorem forward_returns_scalar :
  forall (self : SwaVLoss.Self) (dist : Dist) (high low : list Tensor)
         (queue : option (list Tensor)),
    high <> [] ->
    shapes_ok high low queue = true ->
    all_leaves (fun r => exists x, r = Ok [x])
      (SwaVLoss.forward self dist high low queue).
Proof.
  intros self dist high low queue _ Hok.
  eapply all_leaves_impl; [| apply forward_leaves].
  rewrite Hok. intros [l | e]; cbn [leaf_ok]; [| discriminate].
  intros [_ Hl]. destruct l as [| x [| y l]]; try discriminate.
  exists x. reflexivity.
Qed.

Lemma forward_returns_scalar_witness :
  all_leaves (fun r => exists x, r = Ok [x])
    (SwaVLoss.forward (SwaVLoss.mkSelf (1 / 10) 3 (1 / 20) true)
       (mkDist true true 2)
       [mkTensor 2 [[0; 1]]; mkTensor 2 [[1; 0]]]
       [mkTensor 2 [[1; 1]]]
       (Some [mkTensor 2 [[0; 0]; [1; 1]]; mkTensor 2 [[1; 0]]])).
Proof.
  apply forward_returns_scalar.
  - discriminate.
  - reflexivity.
Defined.

(** ** The multi-crop aggregate *)

Section MultiCrop.

Variable self : SwaVLoss.Self.
Variable dist : Dist.
Variables high low : list Tensor.

Hypothesis compatible_crops :
  forall hi z, In hi high -> In z (high ++ low) -> compatible hi z = true.

Local Abbreviation dflt := (mkTensor 0 []).

Local Abbreviation codes_of h :=
  (sinkhorn dist h (SwaVLoss.sinkhorn_iterations self)
     (SwaVLoss.sinkhorn_epsilon self)
     (SwaVLoss.sinkhorn_gather_distributed self)).

Lemma high_loop_value (q : Tensor) (i : nat) :
  forall idx x,
    (forall v, In v idx -> (v < length high)%nat) ->
    (forall v, In v idx -> compatible q (nth v high dflt) = true) ->
    for_each idx (fun v sub =>
      if (v =? i)%nat then mret sub
      else
        hv <~ lift (index high v) ;;
        s <~ lift (SwaVLoss.subloss self hv q) ;;
        mret (iadd_scalar sub s)) [x]
    = mret [x + sum_list
                  (map (fun v => Spec.subloss_value self (nth v high dflt) q)
                     (filter (fun v => negb (v =? i)%nat) idx))].
Proof.
  induction idx as [| v idx IH]; intros x Hlt Hok.
  - cbn. unfold mret. do 3 f_equal. ring.
  - cbn [for_each filter].
    assert (Hrest : forall y,
              for_each idx (fun v sub =>
                if (v =? i)%nat then mret sub
                else
                  hv <~ lift (index high v) ;;
                  s <~ lift (SwaVLoss.subloss self hv q) ;;
                  mret (iadd_scalar sub s)) [y]
              = mret [y + sum_list
                            (map (fun v => Spec.subloss_value self
                                             (nth v high dflt) q)
                               (filter (fun v => negb (v =? i)%nat) idx))]).
    { intros y. apply IH; intros w Hw; [apply Hlt | apply Hok]; right; exact Hw. }
    destruct (v =? i)%nat; cbn [negb]; [exact (Hrest x) |].
    cbn [map sum_list].
    rewrite (index_nth high v dflt) by (apply Hlt; left; reflexivity).
    cbn [lift mbind].
    pose proof (subloss_ok self (nth v high dflt) q) as Hs.
    rewrite (Hok v (or_introl eq_refl)) in Hs.
    unfold Spec.subloss_value at 1.
    destruct (SwaVLoss.subloss self (nth v high dflt) q) as [s | e];
      [| discriminate Hs].
    refine (eq_trans (Hrest (x + s)) _).
    unfold mret. do 3 f_equal. ring.
Qed.

Lemma low_loop_value (q : Tensor) :
  forall idx x,
    (forall v, In v idx -> (v < length low)%nat) ->
    (forall v, In v idx -> compatible q (nth v low dflt) = true) ->
    for_each idx (fun v sub =>
      lv <~ lift (index low v) ;;
      s <~ lift (SwaVLoss.subloss self lv q) ;;
      mret (iadd_scalar sub s)) [x]
    = mret [x + sum_list
                  (map (fun v => Spec.subloss_value self (nth v low dflt) q)
                     idx)].
Proof.
  induction idx as [| v idx IH]; intros x Hlt Hok.
  - cbn. unfold mret. do 3 f_equal. ring.
  - cbn [for_each map sum_list].
    rewrite (index_nth low v dflt) by (apply Hlt; left; reflexivity).
    cbn [lift mbind].
    pose proof (subloss_ok self (nth v low dflt) q) as Hs.
    rewrite (Hok v (or_introl eq_refl)) in Hs.
    unfold Spec.subloss_value at 1.
    destruct (SwaVLoss.subloss self (nth v low dflt) q) as [s | e];
      [| discriminate Hs].
    refine (eq_trans (IH (x + s) _ _) _);
      try (intros w Hw; (apply Hlt || apply Hok); right; exact Hw).
    unfold mret. do 3 f_equal. ring.
Qed.

Lemma mbind_lift_ok {A B : Type} (a : A) (f : A -> M B) :
  mbind (lift (Ok a)) f = f a.
Proof. reflexivity. Qed.

Lemma mbind_mret {A B : Type} (a : A) (f : A -> M B) :
  mbind (mret a) f = f a.
Proof. reflexivity. Qed.

Lemma for_each_cons {S : Type} (i : nat) (idx : list nat)
  (body : nat -> S -> M S) (s : S) :
  for_each (i :: idx) body s = mbind (body i s) (for_each idx body).
Proof. reflexivity. Qed.

Local Abbreviation crop_body :=
  (fun (i : nat) (loss : list R) =>
     hi <~ lift (index high i) ;;
     outputs <~ mret hi ;;
     q <~ liftP (codes_of outputs) ;;
     sub <~ for_each (range (length high)) (fun v sub =>
       if (v =? i)%nat then mret sub
       else
         hv <~ lift (index high v) ;;
         s <~ lift (SwaVLoss.subloss self hv q) ;;
         mret (iadd_scalar sub s)) (new_zeros 1) ;;
     sub <~ for_each (range (length low)) (fun v sub =>
       lv <~ lift (index low v) ;;
       s <~ lift (SwaVLoss.subloss self lv q) ;;
       mret (iadd_scalar sub s)) sub ;;
     mret (iadd loss
             (map (fun x => x / IZR (Z.of_nat (length high)
                                     + Z.of_nat (length low) - 1)) sub))).

Lemma crop_body_eq (i : nat) (x : R) :
  (i < length high)%nat ->
  crop_body i [x]
  = bind (codes_of (nth i high dflt))
      (fun q => mret [x + Spec.crop_term self high low i q]).
Proof.
  intros Hi. cbv beta. rewrite (index_nth high i dflt) by exact Hi.
  rewrite mbind_lift_ok. cbv beta. rewrite mbind_mret. cbv beta.
  unfold liftP. rewrite mbind_bind. apply bind_ext_leaves.
  eapply all_leaves_impl; [| apply sinkhorn_dims]. intros q [Hr Hc].
  rewrite mbind_mret. cbv beta.
  assert (Hin : In (nth i high dflt) high) by (apply nth_In; exact Hi).
  change (new_zeros 1) with [0].
  rewrite (high_loop_value q i (range (length high)) 0).
  2: { intros v Hv. apply in_seq in Hv. lia. }
  2: { intros v Hv. apply in_seq in Hv.
       rewrite (compatible_dims q (nth i high dflt) _ Hr Hc).
       apply compatible_crops; [exact Hin |].
       apply in_or_app. left. apply nth_In. lia. }
  rewrite mbind_mret. cbv beta.
  rewrite (low_loop_value q (range (length low))).
  2: { intros v Hv. apply in_seq in Hv. lia. }
  2: { intros v Hv. apply in_seq in Hv.
       rewrite (compatible_dims q (nth i high dflt) _ Hr Hc).
       apply compatible_crops; [exact Hin |].
       apply in_or_app. right. apply nth_In. lia. }
  rewrite mbind_mret. cbv beta.
  unfold iadd, mret, Spec.crop_term, range. cbn [map zipWith].
  do 3 f_equal.
  replace (Z.of_nat (length high) + Z.of_nat (length low) - 1)%Z
    with (Z.of_nat (length high + length low - 1)) by lia.
  rewrite <- INR_IZR_INZ. unfold Rdiv. ring.
Qed.

Lemma crop_loop_eq :
  forall m a x,
    (a + m <= length high)%nat ->
    for_each (seq a m) crop_body [x]
    = bind (map_prog (fun i => codes_of (nth i high dflt)) (seq a m))
        (fun qs =>
           mret [x + sum_list
                       (map (fun j => Spec.crop_term self high low (a + j)
                                        (nth j qs dflt))
                          (seq 0 m))]).
Proof.
  induction m as [| m IH]; intros a x Ha.
  - cbn. unfold mret. do 3 f_equal. ring.
  - cbn [seq]. rewrite for_each_cons, crop_body_eq by lia.
    rewrite mbind_bind. cbn [map_prog]. rewrite bind_bind.
    apply bind_ext. intros q. rewrite mbind_mret, IH by lia.
    rewrite bind_bind. apply bind_ext. intros qs. cbn [bind].
    unfold mret. do 3 f_equal.
    cbn [map sum_list nth]. rewrite <- seq_shift, map_map, Nat.add_0_r.
    rewrite (map_ext (fun j => Spec.crop_term self high low (a + S j)
                                 (nth (S j) (q :: qs) dflt))
               (fun j => Spec.crop_term self high low (S a + j)
                           (nth j qs dflt)))
      by (intros j; cbn [nth]; f_equal; lia).
    ring.
Qed.

End MultiCrop.

Lemma map_prog_map {A B C : Type} (f : B -> Prog C) (h : A -> B) (l : list A) :
  map_prog f (map h l) = map_prog (fun a => f (h a)) l.
Proof.
  induction l as [| a l IH]; cbn [map map_prog]; [reflexivity |].
  rewrite IH. reflexivity.
Qed.

Lemma map_prog_seq_nth {A B : Type} (f : A -> Prog B) (d : A) (l : list A) :
  map_prog (fun i => f (nth i l d)) (seq 0 (length l)) = map_prog f l.
Proof.
  induction l as [| a l IH]; cbn [length seq map_prog nth]; [reflexivity |].
  rewrite <- seq_shift, map_prog_map. cbn [nth]. rewrite IH. reflexivity.
Qed.

(** C3. For a non-empty list of [H] high resolution outputs and [L] low
    resolution outputs with [H + L >= 2], no queue, and shapes that
    broadcast, the forward pass computes the codes [q_i] of every high
    resolution crop with [sinkhorn] and returns
    [(1/H) * sum_i (1/(H+L-1)) * (sum_{v <> i} subloss(high[v], q_i)
    + sum_v subloss(low[v], q_i))]. *)
Theorem forward_multi_crop_aggregate :
  forall (self : SwaVLoss.Self) (dist : Dist) (high low : list Tensor),
    high <> [] ->
    (2 <= length high + length low)%nat ->
    (forall hi z, In hi high -> In z (high ++ low) -> compatible hi z = true) ->
    SwaVLoss.forward self dist high low None
    = (qs <- map_prog
               (fun h => sinkhorn dist h (SwaVLoss.sinkhorn_iterations self)
                           (SwaVLoss.sinkhorn_epsilon self)
                           (SwaVLoss.sinkhorn_gather_distributed self)) high ;;
       Ret (Ok [Spec.forward self high low qs])).
Proof.
  intros self dist high low Hne Hcrops Hcompat.
  unfold SwaVLoss.forward.
  rewrite (index_nth high 0 (mkTensor 0 []))
    by (destruct high; [congruence | cbn; lia]).
  cbv beta zeta iota. rewrite mbind_lift_ok. cbv beta.
  refine (eq_trans
            (f_equal (fun p => mbind p _)
               (crop_loop_eq self dist high low Hcompat (length high) 0 0
                  (le_n _))) _).
  rewrite mbind_bind.
  rewrite (map_prog_seq_nth
             (fun h => sinkhorn dist h (SwaVLoss.sinkhorn_iterations self)
                         (SwaVLoss.sinkhorn_epsilon self)
                         (SwaVLoss.sinkhorn_gather_distributed self))
             (mkTensor 0 []) high).
  apply bind_ext. intros qs. rewrite mbind_mret. cbv beta.
  unfold mret, Spec.forward. cbn [map Nat.add]. do 3 f_equal.
  unfold Rdiv. ring.
Qed.

Lemma forward_multi_crop_aggregate_witness :
  SwaVLoss.forward (SwaVLoss.mkSelf (1 / 10) 3 (1 / 20) true)
    (mkDist true true 2)
    [mkTensor 2 [[0; 1]]; mkTensor 2 [[1; 0]]] [mkTensor 2 [[1; 1]]] None
  = (qs <- map_prog
             (fun h => sinkhorn (mkDist true true 2) h 3 (1 / 20) true)
             [mkTensor 2 [[0; 1]]; mkTensor 2 [[1; 0]]] ;;
     Ret (Ok [Spec.forward (SwaVLoss.mkSelf (1 / 10) 3 (1 / 20) true)
                [mkTensor 2 [[0; 1]]; mkTensor 2 [[1; 0]]]
                [mkTensor 2 [[1; 1]]] qs])).
Proof.
  apply (forward_multi_crop_aggregate
           (SwaVLoss.mkSelf (1 / 10) 3 (1 / 20) true) (mkDist true true 2)
           [mkTensor 2 [[0; 1]]; mkTensor 2 [[1; 0]]] [mkTensor 2 [[1; 1]]]).
  - discriminate.
  - cbn. lia.
  - intros hi z Hhi Hz. cbn in Hhi, Hz.
    repeat (destruct Hhi as [<- | Hhi]; [| try contradiction]);
      repeat (destruct Hz as [<- | Hz]; try reflexivity; try contradiction).
Defined.

(** ** Small runs *)

Example t_2x3 :
  t (mkTensor 3 [[1; 2; 3]; [4; 5; 6]]) = mkTensor 2 [[1; 4]; [2; 5]; [3; 6]].
Proof. reflexivity. Qed.

Example t_without_rows : t (mkTensor 2 []) = mkTensor 0 [[]; []].
Proof. reflexivity. Qed.

Example sum_dim0_2x2 :
  sum_dim0 (mkTensor 2 [[1; 2]; [3; 4]]) = [1 + (3 + 0); 2 + (4 + 0)].
Proof. reflexivity. Qed.

Example tmul_broadcasts_column :
  tmul (mkTensor 2 [[1; 2]; [3; 4]]) (mkTensor 1 [[5]; [6]])
  = Ok (mkTensor 2 [[1 * 5; 2 * 5]; [3 * 6; 4 * 6]]).
Proof. reflexivity. Qed.

Example tmul_rejects_columns :
  tmul (mkTensor 2 [[1; 2]]) (mkTensor 3 [[1; 2; 3]]) = Err RuntimeError.
Proof. reflexivity. Qed.

Example sinkhorn_local_1x1 :
  sinkhorn_local (mkTensor 1 [[0]]) 1 1 = mkTensor 1 [[1]].
Proof.
  unfold sinkhorn_local. change (Z.to_nat 1) with 1%nat.
  unfold local_loop, normalize_step, div_scalar, mul_scalar, texp, tmap, t,
    div_cols, div_rows, sum_dim0, sum_dim1, tsum, column, nrows.
  cbn [ncols rows map seq length nth zipWith fold_right repeat div_rows_list
       hd tl sum_list INR].
  replace (0 / 1) with 0 by field. rewrite exp_0.
  do 3 f_equal. field.
Qed.

Example run_spmd_two_processes :
  run_spmd [all_reduce [1; 2]; all_reduce [10; 20]]
  = Some [[1 + 10; 2 + 20]; [1 + 10; 2 + 20]].
Proof. reflexivity. Qed.

Example run_spmd_stuck :
  run_spmd [all_reduce [1]; Ret [1]] = None.
Proof. reflexivity. Qed.

(** * Further properties of the code *)

(** ** sinkhorn: shapes, collective calls, edge cases *)

Lemma sinkhorn_shape_leaves (dist : Dist) (out : Tensor) (iterations : Z)
  (epsilon : R) (gather : bool) :
  all_leaves (fun codes => shape codes = shape out)
    (sinkhorn dist out iterations epsilon gather).
Proof.
  eapply all_leaves_impl; [| apply sinkhorn_dims].
  intros codes [Hr Hc]. unfold shape. congruence.
Qed.

(** X1. In every run of [sinkhorn], whatever [all_reduce] hands back and
    whatever the distributed environment, the codes have the shape of the
    input. *)
Theorem sinkhorn_keeps_shape :
  forall (dist : Dist) (out : Tensor) (iterations : Z) (epsilon : R)
         (gather : bool),
    all_leaves (fun codes => shape codes = shape out)
      (sinkhorn dist out iterations epsilon gather).
Proof. exact sinkhorn_shape_leaves. Qed.

Lemma makes_calls_bind {A B : Type} (n m : nat) (f : A -> Prog B) :
  forall p,
    makes_calls n p -> (forall a, makes_calls m (f a)) ->
    makes_calls (n + m) (bind p f).
Proof.
  induction n as [| n IH]; intros [a | x k] Hp Hf; cbn in *;
    try contradiction; auto.
Qed.

Lemma makes_calls_reduce (ws : nat) (x : list R) :
  makes_calls (if (1 <? ws)%nat then 1 else 0) (reduce_if_distributed ws x).
Proof.
  unfold reduce_if_distributed, all_reduce.
  destruct (1 <? ws)%nat; cbn; auto.
Qed.

Lemma makes_calls_loop (ws B n : nat) :
  forall Q,
    makes_calls (if (1 <? ws)%nat then n else 0) (sinkhorn_loop ws B n Q).
Proof.
  induction n as [| n IH]; intros Q.
  - destruct (1 <? ws)%nat; exact I.
  - rewrite sinkhorn_loop_step.
    replace (if (1 <? ws)%nat then S n else 0%nat)
      with ((if (1 <? ws)%nat then 1 else 0)
            + (if (1 <? ws)%nat then n else 0))%nat
      by (destruct (1 <? ws)%nat; reflexivity).
    apply makes_calls_bind; [apply makes_calls_reduce |].
    intros v. apply IH.
Qed.

Lemma sinkhorn_calls (dist : Dist) (out : Tensor) (iterations : Z)
  (epsilon : R) (gather : bool) :
  makes_calls
    (if (1 <? world_size_of dist gather)%nat
     then S (Z.to_nat iterations) else 0)
    (sinkhorn dist out iterations epsilon gather).
Proof.
  unfold sinkhorn. fold (world_size_of dist gather).
  set (ws := world_size_of dist gather).
  replace (if (1 <? ws)%nat then S (Z.to_nat iterations) else 0%nat)
    with ((if (1 <? ws)%nat then 1 else 0)
          + ((if (1 <? ws)%nat then Z.to_nat iterations else 0) + 0))%nat
    by (destruct (1 <? ws)%nat; lia).
  apply makes_calls_bind; [apply makes_calls_reduce |]. intros sum_Q.
  apply makes_calls_bind; [apply makes_calls_loop |]. intros Q. exact I.
Qed.

(** X2. The number of [all_reduce] calls of [sinkhorn] does not depend on
    the data: with a world of more than one process it is one call for the
    total plus one per iteration (none for a negative count), and there is no
    call at all otherwise. *)
Theorem sinkhorn_number_of_collective_calls :
  forall (dist : Dist) (out : Tensor) (iterations : Z) (epsilon : R)
         (gather : bool),
    makes_calls
      (if (1 <? world_size_of dist gather)%nat
       then 1 + Z.to_nat (Z.max 0 iterations) else 0)
      (sinkhorn dist out iterations epsilon gather).
Proof.
  intros dist out iterations epsilon gather.
  replace (Z.to_nat (Z.max 0 iterations)) with (Z.to_nat iterations) by lia.
  apply sinkhorn_calls.
Qed.





Lemma column_map_scale (e : R) (j : nat) (rs : list (list R)) :
  column j (map (map (fun y => y * e)) rs)
  = map (fun y => y * e) (column j rs).
Proof.
  unfold column. rewrite !map_map. apply map_ext. intros r.
  replace 0 with (0 * e) at 1 by ring.
  apply (map_nth (fun y => y * e)).
Qed.

Lemma t_tmap_scale (e : R) (T : Tensor) :
  t (tmap (fun y => y * e) T) = tmap (fun y => y * e) (t T).
Proof.
  unfold t, tmap, nrows. cbn [ncols rows]. rewrite length_map. f_equal.
  rewrite map_map. apply map_ext. intros j. apply column_map_scale.
Qed.

Lemma tsum_tmap_scale (e : R) (T : Tensor) :
  tsum (tmap (fun y => y * e) T) = tsum T * e.
Proof.
  unfold tsum, tmap. cbn [rows]. rewrite map_map.
  induction (rows T) as [| r rs IH]; cbn [map sum_list]; [ring |].
  rewrite IH. rewrite (sum_list_map_mul (fun y => y) e r), map_id. ring.
Qed.

Lemma initial_Q_add_scalar (epsilon c : R) (out : Tensor) :
  initial_Q epsilon (add_scalar out c)
  = tmap (fun y => y * exp (c / epsilon)) (initial_Q epsilon out).
Proof.
  unfold initial_Q. rewrite <- t_tmap_scale. f_equal.
  unfold texp, div_scalar, add_scalar, tmap. cbn [ncols rows]. f_equal.
  rewrite !map_map. apply map_ext. intros r. rewrite !map_map.
  apply map_ext. intros x. rewrite <- exp_plus. f_equal. unfold Rdiv. ring.
Qed.

(** X4. In exact arithmetic and for [epsilon <> 0], adding one and the same
    number to every entry of the input does not change the codes of a single
    process: the factor [exp(c / epsilon)] it puts on every entry of [Q] is
    removed by the division by the total. *)
Theorem sinkhorn_shift_invariant :
  forall (dist : Dist) (out : Tensor) (c : R) (iterations : Z) (epsilon : R),
    epsilon <> 0 ->
    sinkhorn dist (add_scalar out c) iterations epsilon false
    = sinkhorn dist out iterations epsilon false.
Proof.
  intros dist out c iterations epsilon _. rewrite !sinkhorn_no_gather.
  f_equal. unfold sinkhorn_local.
  fold (initial_Q epsilon (add_scalar out c)). fold (initial_Q epsilon out).
  rewrite initial_Q_add_scalar. set (Q := initial_Q epsilon out).
  set (e := exp (c / epsilon)).
  assert (He : e <> 0) by (apply Rgt_not_eq, exp_pos).
  rewrite tsum_tmap_scale.
  assert (HQ : div_scalar (tmap (fun y => y * e) Q) (tsum Q * e)
               = div_scalar Q (tsum Q)).
  { unfold div_scalar, tmap. cbn [ncols rows]. f_equal.
    rewrite map_map. apply map_ext. intros r. rewrite map_map.
    apply map_ext. intros x. unfold Rdiv. rewrite Rinv_mult.
    transitivity (x * / tsum Q * (e * / e)); [ring |].
    rewrite Rinv_r by exact He. ring. }
  rewrite HQ. reflexivity.
Qed.

(** X5. Without any iteration (a count of zero or below), the codes of a
    single process on a well-formed input are the exponentials divided by
    their total and multiplied by the number of rows:
    [codes[i, j] = exp(out[i, j] / epsilon) / total * nrows]. *)
Theorem sinkhorn_without_iterations :
  forall (dist : Dist) (out : Tensor) (iterations : Z) (epsilon : R),
    wf out -> epsilon <> 0 -> (iterations <= 0)%Z ->
    sinkhorn dist out iterations epsilon false
    = Ret (tabulate (nrows out) (ncols out)
             (fun i j =>
                exp (entry out i j / epsilon)
                / total_sum (Spec.initial out epsilon)
                * INR (nrows out))).
Proof.
  intros dist out iterations epsilon Hwf _ Hit.
  rewrite sinkhorn_no_gather. f_equal. unfold sinkhorn_local.
  replace (Z.to_nat iterations) with 0%nat by lia. cbn [local_loop].
  rewrite (initial_tabulate out epsilon Hwf).
  set (Q0 := Spec.initial out epsilon).
  assert (Hwf0 : wf Q0) by apply wf_tabulate.
  rewrite (tsum_total Q0 Hwf0), (scaled_tabulate Q0 _ Hwf0).
  rewrite final_tabulate by apply wf_tabulate.
  unfold Spec.final, Spec.scaled, Q0, Spec.initial. tab_simpl.
  apply tabulate_ext. intros i j Hi Hj. tab_simpl. reflexivity.
Qed.

Lemma sinkhorn_shift_invariant_witness :
  sinkhorn (mkDist true true 2) (add_scalar (mkTensor 2 [[0; 1]; [1; 0]]) 5)
    3 (1 / 20) false
  = sinkhorn (mkDist true true 2) (mkTensor 2 [[0; 1]; [1; 0]]) 3 (1 / 20)
      false.
Proof.
  apply sinkhorn_shift_invariant. lra.
Defined.

Lemma sinkhorn_without_iterations_witness :
  sinkhorn (mkDist true true 2) (mkTensor 2 [[0; 1]; [1; 0]]) (-1) (1 / 20)
    false
  = Ret (tabulate 2 2
           (fun i j =>
              exp (entry (mkTensor 2 [[0; 1]; [1; 0]]) i j / (1 / 20))
              / total_sum (Spec.initial (mkTensor 2 [[0; 1]; [1; 0]]) (1 / 20))
              * INR 2)).
Proof.
  apply (sinkhorn_without_iterations (mkDist true true 2)
           (mkTensor 2 [[0; 1]; [1; 0]]) (-1) (1 / 20)).
  - unfold wf. cbn. repeat constructor.
  - lra.
  - lia.
Defined.

(** X6. In exact arithmetic, for [epsilon <> 0] and every iteration count,
    also zero, every entry of the codes a single process returns on a
    well-formed input is strictly positive. *)
Theorem sinkhorn_codes_positive :
  forall (dist : Dist) (out : Tensor) (iterations : Z) (epsilon : R),
    wf out -> epsilon <> 0 ->
    exists codes,
      sinkhorn dist out iterations epsilon false = Ret codes
      /\ forall i j, (i < nrows out)%nat -> (j < ncols out)%nat ->
                     0 < entry codes i j.
Proof.
  intros dist out iterations epsilon Hwf _.
  exists (sinkhorn_local out iterations epsilon).
  split; [apply sinkhorn_no_gather |]. intros i j Hi Hj.
  unfold sinkhorn_local.
  rewrite (initial_tabulate out epsilon Hwf).
  set (Q0' := Spec.initial out epsilon).
  assert (Hwf0' : wf Q0') by apply wf_tabulate.
  rewrite (tsum_total Q0' Hwf0'), (scaled_tabulate Q0' _ Hwf0').
  set (Q0 := Spec.scaled Q0' (total_sum Q0')).
  assert (Hwf0 : wf Q0) by apply wf_tabulate.
  assert (Hr0 : nrows Q0 = ncols out).
  { unfold Q0, Spec.scaled, Q0', Spec.initial. tab_simpl. reflexivity. }
  assert (Hc0 : ncols Q0 = nrows out).
  { unfold Q0, Spec.scaled, Q0', Spec.initial. tab_simpl. reflexivity. }
  set (B := ncols Q0).
  destruct (local_loop_shape B (Z.to_nat iterations) Q0 Hwf0)
    as [Hwfn [Hrn Hcn]].
  rewrite (final_tabulate _ _ Hwfn). unfold Spec.final.
  rewrite entry_tabulate by lia.
  assert (HB : (0 < B)%nat) by (unfold B; lia).
  apply Rmult_lt_0_compat; [| apply lt_0_INR; exact HB].
  apply (local_loop_positive B (Z.to_nat iterations) HB Q0 Hwf0); [| lia | lia].
  apply initial_scaled_positive; lia.
Qed.

Lemma sinkhorn_codes_positive_witness :
  exists codes,
    sinkhorn (mkDist true true 2) (mkTensor 2 [[0; 1]; [1; 0]]) 0 (1 / 20)
      false = Ret codes
    /\ forall i j, (i < 2)%nat -> (j < 2)%nat -> 0 < entry codes i j.
Proof.
  apply (sinkhorn_codes_positive (mkDist true true 2)
           (mkTensor 2 [[0; 1]; [1; 0]]) 0 (1 / 20)).
  - unfold wf. cbn. repeat constructor.
  - lra.
Defined.

(** X7. [gather_distributed=True] has no effect when the process group is not
    initialised or has a single process: [sinkhorn] then returns, without a
    collective call, what it returns with [gather_distributed=False]. *)
Theorem sinkhorn_gather_ignored_without_world :
  forall (dist : Dist) (out : Tensor) (iterations : Z) (epsilon : R),
    is_initialized dist = false \/ get_world_size dist = 1%nat ->
    sinkhorn dist out iterations epsilon true
    = sinkhorn dist out iterations epsilon false
    /\ makes_calls 0 (sinkhorn dist out iterations epsilon true).
Proof.
  intros dist out iterations epsilon Hw.
  assert (Hws : world_size_of dist true = 1%nat).
  { unfold world_size_of. cbn [andb].
    destruct (is_initialized dist); destruct Hw as [H | H];
      congruence || reflexivity. }
  rewrite (sinkhorn_one_process dist out iterations epsilon true Hws).
  rewrite sinkhorn_no_gather. split; [reflexivity | exact I].
Qed.

Lemma sinkhorn_gather_ignored_without_world_witness :
  sinkhorn (mkDist true false 8) (mkTensor 2 [[0; 1]; [1; 0]]) 3 (1 / 20) true
  = sinkhorn (mkDist true false 8) (mkTensor 2 [[0; 1]; [1; 0]]) 3 (1 / 20)
      false
  /\ makes_calls 0
       (sinkhorn (mkDist true false 8) (mkTensor 2 [[0; 1]; [1; 0]]) 3
          (1 / 20) true).
Proof.
  apply sinkhorn_gather_ignored_without_world. left. reflexivity.
Defined.

(** ** subloss: errors, sign, shifts *)

(** X8. [subloss] raises exactly when the shapes of the codes and of the
    predictions do not broadcast, that is when in some dimension the sizes
    differ and neither is 1; what it raises then is the [RuntimeError] of
    the product. *)
Theorem subloss_raises_iff_not_broadcastable :
  forall (self : SwaVLoss.Self) (z q : Tensor),
    let broadcastable :=
      (nrows q = nrows z \/ nrows q = 1%nat \/ nrows z = 1%nat)
      /\ (ncols q = ncols z \/ ncols q = 1%nat \/ ncols z = 1%nat) in
    match SwaVLoss.subloss self z q with
    | Ok _ => broadcastable
    | Err e => e = RuntimeError /\ ~ broadcastable
    end.
Proof.
  intros self z q. cbv zeta. unfold SwaVLoss.subloss, tmul.
  replace (nrows (log_softmax (div_scalar z (SwaVLoss.temperature self))))
    with (nrows z)
    by (unfold log_softmax, div_scalar, tmap, nrows; cbn;
        rewrite !length_map; reflexivity).
  cbn [ncols log_softmax div_scalar tmap].
  unfold broadcast_dim.
  destruct (Nat.eqb_spec (nrows q) (nrows z)) as [Hr | Hr];
    [| destruct (Nat.eqb_spec (nrows q) 1) as [Hr1 | Hr1];
       [| destruct (Nat.eqb_spec (nrows z) 1) as [Hr2 | Hr2]]];
    (destruct (Nat.eqb_spec (ncols q) (ncols z)) as [Hc | Hc];
     [| destruct (Nat.eqb_spec (ncols q) 1) as [Hc1 | Hc1];
        [| destruct (Nat.eqb_spec (ncols z) 1) as [Hc2 | Hc2]]]);
    try (split; [auto | auto]; fail);
    (split; [reflexivity |]; intros [H1 H2];
     destruct H1 as [? | [? | ?]]; destruct H2 as [? | [? | ?]];
     contradiction).
Qed.

Lemma ln_le_mono (a b : R) : 0 < a -> a <= b -> ln a <= ln b.
Proof.
  intros Ha Hab. destruct (Req_dec a b) as [Heq | Hne].
  - rewrite Heq. apply Rle_refl.
  - apply Rlt_le, ln_increasing; lra.
Qed.

Lemma exp_le_sum_exp (x : R) (r : list R) :
  In x r -> exp x <= sum_list (map exp r).
Proof.
  induction r as [| y r IH]; [intros [] |].
  intros [-> | Hin]; cbn [map sum_list].
  - assert (0 <= sum_list (map exp r)).
    { apply sum_list_nonneg, Forall_forall. intros e He.
      apply in_map_iff in He. destruct He as [a [<- _]].
      apply Rlt_le, exp_pos. }
    lra.
  - pose proof (exp_pos y). specialize (IH Hin). lra.
Qed.

Lemma log_softmax_row_nonpos (r : list R) :
  Forall (fun y => y <= 0) (log_softmax_row r).
Proof.
  unfold log_softmax_row. apply Forall_forall. intros y Hy.
  apply in_map_iff in Hy. destruct Hy as [x [<- Hx]].
  pose proof (ln_le_mono (exp x) (sum_list (map exp r)) (exp_pos x)
                (exp_le_sum_exp x r Hx)) as H.
  rewrite ln_exp in H. lra.
Qed.

Lemma zipWith_mult_nonpos :
  forall a b,
    Forall (fun x => 0 <= x) a -> Forall (fun y => y <= 0) b ->
    Forall (fun y => y <= 0) (zipWith Rmult a b).
Proof.
  induction a as [| x a IH]; intros [| y b] Ha Hb; cbn; constructor.
  - inversion Ha; inversion Hb; subst. nra.
  - inversion Ha; inversion Hb; subst. apply IH; assumption.
Qed.

Lemma sum_list_nonpos (xs : list R) :
  Forall (fun x => x <= 0) xs -> sum_list xs <= 0.
Proof. induction 1 as [| x xs Hx _ IH]; simpl; lra. Qed.

Lemma subloss_nonneg_value (self : SwaVLoss.Self) (z q : Tensor) :
  shape z = shape q ->
  Forall (Forall (fun x => 0 <= x)) (rows q) ->
  exists x, SwaVLoss.subloss self z q = Ok x /\ 0 <= x.
Proof.
  intros Hs Hq. unfold SwaVLoss.subloss.
  set (L := log_softmax (div_scalar z (SwaVLoss.temperature self))).
  assert (HsL : shape q = shape L).
  { unfold shape, L, log_softmax, div_scalar, tmap, nrows in *. cbn.
    rewrite !length_map. congruence. }
  rewrite (tmul_same_shape q L HsL). eexists. split; [reflexivity |].
  unfold mean, sum_dim1. cbn [rows].
  assert (Hsum : sum_list
                   (map sum_list (zipWith (zipWith Rmult) (rows q) (rows L)))
                 <= 0).
  { apply sum_list_nonpos, Forall_forall. intros s Hsin.
    apply in_map_iff in Hsin. destruct Hsin as [row [<- Hrow]].
    apply sum_list_nonpos.
    assert (HL : Forall (Forall (fun y => y <= 0)) (rows L)).
    { unfold L, log_softmax. cbn [rows]. apply Forall_forall. intros rl Hrl.
      apply in_map_iff in Hrl. destruct Hrl as [r0 [<- _]].
      apply log_softmax_row_nonpos. }
    revert Hrow. generalize (rows L) HL. revert Hq. generalize (rows q).
    induction l as [| a ra IH]; intros Ha [| b rb] Hb Hin; cbn in Hin;
      try contradiction.
    inversion Ha; inversion Hb; subst. destruct Hin as [<- | Hin].
    - apply zipWith_mult_nonpos; assumption.
    - eapply IH; eassumption. }
  assert (Hn : 0 <= / INR (length (map sum_list
                 (zipWith (zipWith Rmult) (rows q) (rows L))))).
  { destruct (length _) as [| n] eqn:E.
    - cbn. rewrite Rinv_0. apply Rle_refl.
    - apply Rlt_le, Rinv_0_lt_compat, lt_0_INR. lia. }
  unfold Rdiv. nra.
Qed.

(** X9. For codes without a negative entry and predictions of the same
    shape, with at least one row and a temperature other than zero, [subloss]
    returns a value that is not negative. *)
Theorem subloss_nonnegative :
  forall (self : SwaVLoss.Self) (z q : Tensor),
    shape z = shape q ->
    (1 <= nrows q)%nat ->
    SwaVLoss.temperature self <> 0 ->
    Forall (Forall (fun x => 0 <= x)) (rows q) ->
    exists x, SwaVLoss.subloss self z q = Ok x /\ 0 <= x.
Proof.
  intros self z q Hs _ _ Hq. apply subloss_nonneg_value; assumption.
Qed.

Lemma subloss_nonnegative_witness :
  exists x,
    SwaVLoss.subloss (SwaVLoss.mkSelf (1 / 10) 3 (1 / 20) false)
      (mkTensor 2 [[0; 1]; [1; 0]]) (mkTensor 2 [[1; 0]; [0; 1]]) = Ok x
    /\ 0 <= x.
Proof.
  apply subloss_nonnegative.
  - reflexivity.
  - cbn. lia.
  - cbn. lra.
  - cbn. repeat constructor; lra.
Defined.




(** ** forward: exceptions, collective calls, sign *)




Lemma forward_one_process (self : SwaVLoss.Self) (dist : Dist)
  (high low : list Tensor) (queue : option (list Tensor)) :
  world_size_of dist (SwaVLoss.sinkhorn_gather_distributed self) = 1%nat ->
  exists r, SwaVLoss.forward self dist high low queue = Ret r.
Proof.
  intros Hws. unfold SwaVLoss.forward.
  apply mbind_ret; [unfold lift; eauto |]. intros h0.
  apply mbind_ret; [| unfold mret; eauto].
  apply for_each_ret. intros i loss.
  apply mbind_ret; [unfold lift; eauto |]. intros hi.
  apply mbind_ret.
  { destruct queue as [qs |]; [| unfold mret; eauto].
    apply mbind_ret; unfold lift; eauto. }
  intros outputs. apply mbind_ret.
  { rewrite (sinkhorn_one_process dist outputs _ _ _ Hws).
    unfold liftP, mret. cbn. eauto. }
  intros q. cbn zeta.
  apply mbind_ret.
  { apply for_each_ret. intros v sub. destruct (v =? i)%nat; [unfold mret; eauto |].
    apply mbind_ret; [unfold lift; eauto |]. intros hv.
    apply mbind_ret; [unfold lift; eauto |]. intros s. unfold mret. eauto. }
  intros sub. apply mbind_ret; [| unfold mret; eauto].
  apply for_each_ret. intros v sub'.
  apply mbind_ret; [unfold lift; eauto |]. intros lv.
  apply mbind_ret; [unfold lift; eauto |]. intros s. unfold mret. eauto.
Qed.

(** X12. When [sinkhorn] works with a world of size 1 (no gathering, a
    process group that is not initialised, or a single process), the forward
    pass returns or raises without a single collective call. *)
Theorem forward_without_collective_calls :
  forall (self : SwaVLoss.Self) (dist : Dist) (high low : list Tensor)
         (queue : option (list Tensor)),
    world_size_of dist (SwaVLoss.sinkhorn_gather_distributed self) = 1%nat ->
    makes_calls 0 (SwaVLoss.forward self dist high low queue).
Proof.
  intros self dist high low queue Hws.
  destruct (forward_one_process self dist high low queue Hws) as [r ->].
  exact I.
Qed.

Lemma forward_without_collective_calls_witness :
  makes_calls 0
    (SwaVLoss.forward (SwaVLoss.mkSelf (1 / 10) 3 (1 / 20) true)
       (mkDist true false 4)
       [mkTensor 2 [[0; 1]]; mkTensor 2 [[1; 0]]] [mkTensor 2 [[1; 1]]]
       (Some [mkTensor 2 [[0; 0]]; mkTensor 2 [[1; 0]]])).
Proof.
  apply forward_without_collective_calls. reflexivity.
Defined.

Lemma map_prog_ret {A B : Type} (g : A -> B) (f : A -> Prog B) (l : list A) :
  (forall a, In a l -> f a = Ret (g a)) -> map_prog f l = Ret (map g l).
Proof.
  induction l as [| a l IH]; intros H; cbn [map_prog map]; [reflexivity |].
  rewrite (H a) by (left; reflexivity).
  rewrite IH by (intros b Hb; apply H; right; exact Hb). reflexivity.
Qed.

Lemma forward_codes_eq (self : SwaVLoss.Self) (dist : Dist)
  (high low : list Tensor) :
  high <> [] ->
  (forall hi z, In hi high -> In z (high ++ low) -> compatible hi z = true) ->
  SwaVLoss.forward self dist high low None
  = (qs <- map_prog
             (fun h => sinkhorn dist h (SwaVLoss.sinkhorn_iterations self)
                         (SwaVLoss.sinkhorn_epsilon self)
                         (SwaVLoss.sinkhorn_gather_distributed self)) high ;;
     Ret (Ok [Spec.forward self high low qs])).
Proof.
  intros Hne Hcompat. unfold SwaVLoss.forward.
  rewrite (index_nth high 0 (mkTensor 0 []))
    by (destruct high; [congruence | cbn; lia]).
  cbv beta zeta iota. rewrite mbind_lift_ok. cbv beta.
  refine (eq_trans
            (f_equal (fun p => mbind p _)
               (crop_loop_eq self dist high low Hcompat (length high) 0 0
                  (le_n _))) _).
  rewrite mbind_bind.
  rewrite (map_prog_seq_nth
             (fun h => sinkhorn dist h (SwaVLoss.sinkhorn_iterations self)
                         (SwaVLoss.sinkhorn_epsilon self)
                         (SwaVLoss.sinkhorn_gather_distributed self))
             (mkTensor 0 []) high).
  apply bind_ext. intros qs. rewrite mbind_mret. cbv beta.
  unfold mret, Spec.forward. cbn [map Nat.add]. do 3 f_equal.
  unfold Rdiv. ring.
Qed.

Lemma sinkhorn_local_nonneg (out : Tensor) (iterations : Z) (epsilon : R) :
  wf out ->
  Forall (Forall (fun x => 0 <= x))
    (rows (sinkhorn_local out iterations epsilon)).
Proof.
  intros Hwf. unfold sinkhorn_local.
  rewrite (initial_tabulate out epsilon Hwf).
  set (Q0' := Spec.initial out epsilon).
  assert (Hwf0' : wf Q0') by apply wf_tabulate.
  rewrite (tsum_total Q0' Hwf0'), (scaled_tabulate Q0' _ Hwf0').
  set (Q0 := Spec.scaled Q0' (total_sum Q0')).
  assert (Hwf0 : wf Q0) by apply wf_tabulate.
  assert (Hr0 : nrows Q0 = ncols out).
  { unfold Q0, Spec.scaled, Q0', Spec.initial. tab_simpl. reflexivity. }
  assert (Hc0 : ncols Q0 = nrows out).
  { unfold Q0, Spec.scaled, Q0', Spec.initial. tab_simpl. reflexivity. }
  set (B := ncols Q0).
  destruct (local_loop_shape B (Z.to_nat iterations) Q0 Hwf0)
    as [Hwfn [Hrn Hcn]].
  rewrite (final_tabulate _ _ Hwfn). unfold Spec.final, tabulate. cbn [rows].
  apply Forall_forall. intros row Hrow.
  apply in_map_iff in Hrow. destruct Hrow as [i [<- Hi]]. apply in_seq in Hi.
  apply Forall_forall. intros x Hx. apply in_map_iff in Hx.
  destruct Hx as [j [<- Hj]]. apply in_seq in Hj.
  assert (HB : (0 < B)%nat) by (unfold B; lia).
  apply Rlt_le, Rmult_lt_0_compat; [| apply lt_0_INR; exact HB].
  apply (local_loop_positive B (Z.to_nat iterations) HB Q0 Hwf0); [| lia | lia].
  apply initial_scaled_positive; lia.
Qed.

Lemma sum_list_map_nonneg {A : Type} (f : A -> R) (l : list A) :
  (forall a, In a l -> 0 <= f a) -> 0 <= sum_list (map f l).
Proof.
  intros H. apply sum_list_nonneg, Forall_forall. intros y Hy.
  apply in_map_iff in Hy. destruct Hy as [a [<- Ha]]. apply H. exact Ha.
Qed.

(** X13. Without gathering, for crops that are well formed and all of one
    shape with at least one row, [H >= 1], [H + L >= 2], no queue, and a
    temperature and an epsilon other than zero, the forward pass returns a
    loss that is not negative (in exact arithmetic). *)
Theorem forward_loss_nonnegative :
  forall (self : SwaVLoss.Self) (dist : Dist) (high low : list Tensor)
         (n K : nat),
    SwaVLoss.sinkhorn_gather_distributed self = false ->
    high <> [] ->
    (2 <= length high + length low)%nat ->
    (1 <= n)%nat ->
    SwaVLoss.temperature self <> 0 ->
    SwaVLoss.sinkhorn_epsilon self <> 0 ->
    Forall (fun T => wf T /\ nrows T = n /\ ncols T = K) (high ++ low) ->
    exists x,
      SwaVLoss.forward self dist high low None = Ret (Ok [x]) /\ 0 <= x.
Proof.
  intros self dist high low n K Hg Hne _ _ _ _ Hall.
  rewrite Forall_forall in Hall.
  assert (Hcompat : forall hi z, In hi high -> In z (high ++ low) ->
                                 compatible hi z = true).
  { intros hi z Hhi Hz.
    destruct (Hall hi (in_or_app _ _ _ (or_introl Hhi))) as [_ [Hr Hc]].
    destruct (Hall z Hz) as [_ [Hr' Hc']].
    unfold compatible. rewrite Hr, Hc, Hr', Hc', !broadcast_dim_same.
    reflexivity. }
  rewrite (forward_codes_eq self dist high low Hne Hcompat), Hg.
  rewrite (map_prog_ret
             (fun h => sinkhorn_local h (SwaVLoss.sinkhorn_iterations self)
                         (SwaVLoss.sinkhorn_epsilon self)))
    by (intros a _; apply sinkhorn_no_gather).
  cbn [bind]. eexists. split; [reflexivity |].
  set (d := mkTensor 0 []).
  set (codes := fun h => sinkhorn_local h (SwaVLoss.sinkhorn_iterations self)
                           (SwaVLoss.sinkhorn_epsilon self)).
  assert (Hsub : forall i z, (i < length high)%nat -> In z (high ++ low) ->
            0 <= Spec.subloss_value self z (nth i (map codes high) d)).
  { intros i z Hi Hz.
    rewrite (nth_indep _ d (codes d)) by (rewrite length_map; exact Hi).
    rewrite (map_nth codes high d i).
    assert (Hin : In (nth i high d) (high ++ low))
      by (apply in_or_app; left; apply nth_In; exact Hi).
    destruct (Hall _ Hin) as [Hwf [Hr Hc]]. destruct (Hall z Hz) as [_ [Hr' Hc']].
    destruct (sinkhorn_local_shape (nth i high d)
                (SwaVLoss.sinkhorn_iterations self)
                (SwaVLoss.sinkhorn_epsilon self)) as [Hrs Hcs].
    destruct (subloss_nonneg_value self z (codes (nth i high d)))
      as [x [Hx Hpos]].
    - unfold shape, codes. congruence.
    - apply sinkhorn_local_nonneg. exact Hwf.
    - unfold Spec.subloss_value. rewrite Hx. exact Hpos. }
  unfold Spec.forward.
  apply Rmult_le_pos.
  { unfold Rdiv. rewrite Rmult_1_l. apply Rlt_le, Rinv_0_lt_compat, lt_0_INR.
    destruct high; [congruence | cbn; lia]. }
  apply sum_list_map_nonneg. intros i Hi. apply in_seq in Hi.
  unfold Spec.crop_term. apply Rmult_le_pos.
  { unfold Rdiv. rewrite Rmult_1_l.
    destruct (length high + length low - 1)%nat eqn:E.
    - cbn. rewrite Rinv_0. apply Rle_refl.
    - apply Rlt_le, Rinv_0_lt_compat, lt_0_INR. lia. }
  apply Rplus_le_le_0_compat; apply sum_list_map_nonneg; intros v Hv.
  - apply filter_In in Hv. destruct Hv as [Hv _]. apply in_seq in Hv.
    apply Hsub; [lia |]. apply in_or_app. left. apply nth_In. lia.
  - apply in_seq in Hv.
    apply Hsub; [lia |]. apply in_or_app. right. apply nth_In. lia.
Qed.

Lemma forward_loss_nonnegative_witness :
  exists x,
    SwaVLoss.forward (SwaVLoss.mkSelf (1 / 10) 3 (1 / 20) false)
      (mkDist true true 2)
      [mkTensor 2 [[0; 1]]; mkTensor 2 [[1; 0]]] [mkTensor 2 [[1; 1]]] None
    = Ret (Ok [x])
    /\ 0 <= x.
Proof.
  apply (forward_loss_nonnegative
           (SwaVLoss.mkSelf (1 / 10) 3 (1 / 20) false) (mkDist true true 2)
           [mkTensor 2 [[0; 1]]; mkTensor 2 [[1; 0]]] [mkTensor 2 [[1; 1]]]
           1 2).
  - reflexivity.
  - discriminate.
  - cbn. lia.
  - lia.
  - cbn. lra.
  - cbn. lra.
  - unfold wf, nrows. cbn. repeat constructor.
Defined.

(** ** GaussianBlur: the probability and the random generator *)

Section GaussianBlurRandomness.

Variables TensorImage Image RandomState : Type.
Variable to_pil_image : TensorImage -> result Image.
Variable to_tensor : Image -> result TensorImage.
Variable gaussian_filter : R -> Image -> result Image.
Variable random_sample : RandomState -> R * RandomState.
Variable uniform : R -> R -> RandomState -> R * RandomState.

Local Abbreviation blur :=
  (GaussianBlur.__call__ TensorImage Image RandomState to_pil_image to_tensor
     gaussian_filter random_sample uniform).

(** [random_sample] draws from the half-open interval [[0, 1)]. *)
Hypothesis random_sample_range :
  forall st, 0 <= fst (random_sample st) < 1.

(** X14. With [prob <= 0] the blur never happens: a PIL image is returned as
    it is, a tensor is returned as [to_tensor(to_pil_image(x))], the filter
    is not applied, and the random generator is left in the state after the
    one draw of the probability. *)
Theorem blur_never_with_prob_zero :
  forall (self : GaussianBlur.Self)
         (sample : GaussianBlur.Sample TensorImage Image) (st : RandomState),
    GaussianBlur.prob self <= 0 ->
    blur self sample st
    = (match sample with
       | GaussianBlur.IsImage img => Ok (GaussianBlur.IsImage img)
       | GaussianBlur.IsTensor x =>
           match to_pil_image x with
           | Ok pil =>
               match to_tensor pil with
               | Ok y => Ok (GaussianBlur.IsTensor y)
               | Err e => Err e
               end
           | Err e => Err e
           end
       end, snd (random_sample st)).
Proof.
  intros self sample st Hp. unfold GaussianBlur.__call__.
  pose proof (random_sample_range st) as Hrange.
  destruct (random_sample st) as [p st1]. cbn [fst snd] in *.
  destruct (Rlt_dec p (GaussianBlur.prob self)) as [Hlt | _]; [lra |].
  destruct sample as [x | img]; cbn [GaussianBlur.is_tensor].
  - destruct (to_pil_image x) as [pil | e]; [| reflexivity].
    destruct (to_tensor pil); reflexivity.
  - reflexivity.
Qed.

(** X15. With [prob >= 1] the blur always happens: after the draw of the
    probability, sigma is drawn with [uniform(sigmas[0], sigmas[1])], and a
    PIL image is returned filtered with that sigma (or the filter's
    exception is raised), the generator being left after the two draws. *)
Theorem blur_always_with_prob_one :
  forall (self : GaussianBlur.Self) (img : Image) (st : RandomState),
    1 <= GaussianBlur.prob self ->
    let st1 := snd (random_sample st) in
    let draw := uniform (fst (GaussianBlur.sigmas self))
                  (snd (GaussianBlur.sigmas self)) st1 in
    blur self (GaussianBlur.IsImage img) st
    = (match gaussian_filter (fst draw) img with
       | Ok blurred => Ok (GaussianBlur.IsImage blurred)
       | Err e => Err e
       end, snd draw).
Proof.
  intros self img st Hp. cbv zeta. unfold GaussianBlur.__call__.
  pose proof (random_sample_range st) as Hrange.
  destruct (random_sample st) as [p st1]. cbn [fst snd] in *.
  destruct (Rlt_dec p (GaussianBlur.prob self)) as [_ | Hge]; [| lra].
  destruct (uniform _ _ st1) as [sigma st2]. cbn [fst snd].
  destruct (gaussian_filter sigma img); reflexivity.
Qed.

End GaussianBlurRandomness.

Lemma blur_never_with_prob_zero_witness :
  GaussianBlur.__call__ nat nat nat (fun x => Ok x) (fun i => Ok (i + 1)%nat)
    (fun _ i => Ok (S i)) (fun st => (1 / 2, S st)) (fun a b st => (a, S st))
    (GaussianBlur.mkSelf 0 (1, 2)) (GaussianBlur.IsTensor 7%nat) 0%nat
  = (Ok (GaussianBlur.IsTensor 8%nat), 1%nat).
Proof.
  apply (blur_never_with_prob_zero nat nat nat (fun x => Ok x)
           (fun i => Ok (i + 1)%nat) (fun _ i => Ok (S i))
           (fun st => (1 / 2, S st)) (fun a b st => (a, S st))).
  - intros st. cbn. lra.
  - cbn. lra.
Defined.

Lemma blur_always_with_prob_one_witness :
  GaussianBlur.__call__ nat nat nat (fun x => Ok x) (fun i => Ok (i + 1)%nat)
    (fun _ i => Ok (S i)) (fun st => (1 / 2, S st)) (fun a b st => (a, S st))
    (GaussianBlur.mkSelf 1 (1, 2)) (GaussianBlur.IsImage 7%nat) 0%nat
  = (Ok (GaussianBlur.IsImage 8%nat), 2%nat).
Proof.
  apply (blur_always_with_prob_one nat nat nat (fun x => Ok x)
           (fun i => Ok (i + 1)%nat) (fun _ i => Ok (S i))
           (fun st => (1 / 2, S st)) (fun a b st => (a, S st))).
  - intros st. cbn. lra.
  - cbn. lra.
Defined.

(** X16. When the conversion of a tensor to a PIL image raises, [__call__]
    raises the same exception whatever the probability, after the one draw
    of the probability and before any draw of sigma. *)
Theorem blur_conversion_error :
  forall (TensorImage Image RandomState : Type)
         (to_pil_image : TensorImage -> result Image)
         (to_tensor : Image -> result TensorImage)
         (gaussian_filter : R -> Image -> result Image)
         (random_sample : RandomState -> R * RandomState)
         (uniform : R -> R -> RandomState -> R * RandomState)
         (self : GaussianBlur.Self) (x : TensorImage) (st : RandomState)
         (e : exn),
    to_pil_image x = Err e ->
    GaussianBlur.__call__ TensorImage Image RandomState to_pil_image
      to_tensor gaussian_filter random_sample uniform self
      (GaussianBlur.IsTensor x) st
    = (Err e, snd (random_sample st)).
Proof.
  intros TensorImage Image RandomState to_pil_image to_tensor gaussian_filter
    random_sample uniform self x st e He.
  unfold GaussianBlur.__call__.
  destruct (random_sample st) as [p st1]. rewrite He. reflexivity.
Qed.

Lemma blur_conversion_error_witness :
  GaussianBlur.__call__ nat nat nat (fun x => Err TypeError)
    (fun i => Ok i) (fun _ i => Ok i) (fun st => (1 / 2, S st))
    (fun a b st => (a, S st)) (GaussianBlur.mkSelf 1 (1, 2))
    (GaussianBlur.IsTensor 7%nat) 0%nat
  = (Err TypeError, 1%nat).
Proof.
  apply (blur_conversion_error nat nat nat (fun x => Err TypeError)
           (fun i => Ok i) (fun _ i => Ok i) (fun st => (1 / 2, S st))
           (fun a b st => (a, S st)) (GaussianBlur.mkSelf 1 (1, 2)) 7%nat
           0%nat TypeError).
  reflexivity.
Defined.

(** ** The report of a benchmark run *)

Lemma string_length_append (s1 s2 : string) :
  String.length (s1 ++ s2) = (String.length s1 + String.length s2)%nat.
Proof. induction s1 as [| c s1 IH]; cbn; [reflexivity | rewrite IH; reflexivity]. Qed.

Lemma replicate_length (c : ascii) (n : nat) :
  String.length (Benchmark.replicate c n) = n.
Proof. induction n as [| n IH]; cbn; [reflexivity | rewrite IH; reflexivity]. Qed.

Lemma ljust_length (s : string) (n : nat) :
  String.length (Benchmark.ljust s n) = Nat.max (String.length s) n.
Proof.
  unfold Benchmark.ljust. rewrite string_length_append, replicate_length. lia.
Qed.

Lemma fold_left_max_bounds :
  forall xs a,
    (a <= fold_left Nat.max xs a)%nat
    /\ forall x, In x xs -> (x <= fold_left Nat.max xs a)%nat.
Proof.
  induction xs as [| y xs IH]; intros a; cbn [fold_left].
  - split; [lia | intros x []].
  - destruct (IH (Nat.max a y)) as [H1 H2]. split; [lia |].
    intros x [<- | Hx]; [lia | apply H2; exact Hx].
Qed.

Lemma max_of_nonempty (xs : list nat) :
  xs <> [] ->
  exists m, Benchmark.max_of xs = Ok m /\ forall x, In x xs -> (x <= m)%nat.
Proof.
  destruct xs as [| a xs]; [congruence |]. intros _.
  exists (fold_left Nat.max xs a). split; [reflexivity |].
  destruct (fold_left_max_bounds xs a) as [H1 H2].
  intros x [<- | Hx]; [exact H1 | apply H2; exact Hx].
Qed.

Lemma row_length (w1 w2 w3 : nat) (c1 c2 c3 : string) :
  (String.length c1 <= w1)%nat -> (String.length c2 <= w2)%nat ->
  (String.length c3 <= w3)%nat ->
  String.length (Benchmark.row w1 w2 w3 c1 c2 c3) = (w1 + w2 + w3 + 10)%nat.
Proof.
  intros H1 H2 H3. unfold Benchmark.row.
  repeat rewrite string_length_append. rewrite !ljust_length. cbn. lia.
Qed.

Section ReportProperties.

Variable Value : Type.
Variable format_value : Value -> string.

Local Abbreviation table := (Benchmark.table_lines Value format_value).

(** The lines of the table of a dictionary that is not empty. *)
Lemma table_lines_of_nonempty (metrics : Benchmark.Metrics Value) :
  metrics <> [] ->
  exists w1 w2 w3,
    table metrics
    = Ok ([Benchmark.row w1 w2 w3 Benchmark.EVAL_NAME_COLUMN_NAME
             Benchmark.METRIC_COLUMN_NAME Benchmark.VALUE_COLUMN_NAME;
           ("|:" ++ Benchmark.replicate "-"%char w1
            ++ ":|:" ++ Benchmark.replicate "-"%char w2
            ++ ":|:" ++ Benchmark.replicate "-"%char w3 ++ ":|")%string]
          ++ flat_map (fun item =>
               map (fun kv =>
                      Benchmark.row w1 w2 w3 (fst item) (fst kv)
                        (format_value (snd kv)))
                 (snd item)) metrics)
    /\ (9 <= w1 /\ 11 <= w2 /\ 5 <= w3)%nat
    /\ forall item kv,
         In item metrics -> In kv (snd item) ->
         (String.length (fst item) <= w1
          /\ String.length (fst kv) <= w2
          /\ String.length (format_value (snd kv)) <= w3)%nat.
Proof.
  intros Hne. destruct metrics as [| m ms]; [congruence |].
  unfold Benchmark.table_lines.
  set (l1 := map String.length
               (map fst (m :: ms) ++ [Benchmark.EVAL_NAME_COLUMN_NAME])).
  set (l2 := map String.length
               (flat_map (fun item =>
                  map fst (snd item) ++ [Benchmark.METRIC_COLUMN_NAME])
                  (m :: ms))).
  set (l3 := map String.length
               (flat_map (fun item =>
                  map (fun kv => format_value (snd kv)) (snd item)
                  ++ [Benchmark.VALUE_COLUMN_NAME]) (m :: ms))).
  destruct (max_of_nonempty l1) as [w1 [E1 B1]]; [discriminate |].
  destruct (max_of_nonempty l2) as [w2 [E2 B2]].
  { unfold l2. cbn [flat_map]. destruct (map fst (snd m)); discriminate. }
  destruct (max_of_nonempty l3) as [w3 [E3 B3]].
  { unfold l3. cbn [flat_map].
    destruct (map (fun kv => format_value (snd kv)) (snd m)); discriminate. }
  rewrite E1, E2, E3. exists w1, w2, w3. split; [reflexivity |].
  split.
  - repeat split.
    + apply (B1 9%nat). unfold l1. apply in_map_iff.
      exists Benchmark.EVAL_NAME_COLUMN_NAME. split; [reflexivity |].
      apply in_or_app. right. left. reflexivity.
    + apply (B2 11%nat). unfold l2. apply in_map_iff.
      exists Benchmark.METRIC_COLUMN_NAME. split; [reflexivity |].
      apply in_flat_map. exists m. split; [left; reflexivity |].
      apply in_or_app. right. left. reflexivity.
    + apply (B3 5%nat). unfold l3. apply in_map_iff.
      exists Benchmark.VALUE_COLUMN_NAME. split; [reflexivity |].
      apply in_flat_map. exists m. split; [left; reflexivity |].
      apply in_or_app. right. left. reflexivity.
  - intros item kv Hitem Hkv. repeat split.
    + apply B1. unfold l1. apply in_map, in_or_app. left.
      apply in_map. exact Hitem.
    + apply B2. unfold l2. apply in_map, in_flat_map. exists item.
      split; [exact Hitem |]. apply in_or_app. left. apply in_map. exact Hkv.
    + apply B3. unfold l3. apply in_map, in_flat_map. exists item.
      split; [exact Hitem |]. apply in_or_app. left.
      apply (in_map (fun kv0 => format_value (snd kv0))). exact Hkv.
Qed.

(** X17. [eval_metrics_to_markdown] raises, and then a [ValueError], exactly
    on an empty dictionary; a dictionary with an entry, even one whose
    metrics are empty, gives a table. *)
Theorem markdown_raises_iff_empty :
  forall metrics : Benchmark.Metrics Value,
    match Benchmark.eval_metrics_to_markdown Value format_value metrics with
    | Ok _ => metrics <> []
    | Err e => e = ValueError /\ metrics = []
    end.
Proof.
  intros metrics. unfold Benchmark.eval_metrics_to_markdown.
  destruct metrics as [| m ms]; [cbn; auto |].
  destruct (table_lines_of_nonempty (m :: ms)) as [w1 [w2 [w3 [E _]]]];
    [discriminate |].
  rewrite E. discriminate.
Qed.

(** X18. The table of a dictionary that is not empty has a header, a
    separator and one line per metric of every evaluation, in the order of
    the dictionary. *)
Theorem markdown_number_of_lines :
  forall metrics : Benchmark.Metrics Value,
    metrics <> [] ->
    exists lines,
      table metrics = Ok lines
      /\ length lines
         = (2 + list_sum (map (fun item => length (snd item)) metrics))%nat.
Proof.
  intros metrics Hne.
  destruct (table_lines_of_nonempty metrics Hne) as [w1 [w2 [w3 [E _]]]].
  rewrite E. eexists. split; [reflexivity |].
  rewrite length_app. cbn [length]. do 2 f_equal.
  clear. induction metrics as [| m ms IH]; [reflexivity |].
  cbn [flat_map map list_sum]. rewrite length_app, length_map, IH. reflexivity.
Qed.

(** X19. All lines of the table have the same length: every column is as
    wide as its longest entry or its title, whichever is longer, and every
    cell is padded to that width without being cut. *)
Theorem markdown_lines_aligned :
  forall metrics : Benchmark.Metrics Value,
    metrics <> [] ->
    exists lines w1 w2 w3,
      table metrics = Ok lines
      /\ (9 <= w1 /\ 11 <= w2 /\ 5 <= w3)%nat
      /\ Forall (fun line => String.length line = (w1 + w2 + w3 + 10)%nat)
           lines.
Proof.
  intros metrics Hne.
  destruct (table_lines_of_nonempty metrics Hne)
    as [w1 [w2 [w3 [E [[H1 [H2 H3]] Hcells]]]]].
  rewrite E. eexists. exists w1, w2, w3. split; [reflexivity |].
  split; [auto |].
  apply Forall_app. split.
  - constructor; [apply row_length; cbn; lia |].
    constructor; [| constructor].
    repeat rewrite string_length_append. rewrite !replicate_length. cbn. lia.
  - apply Forall_forall. intros line Hline.
    apply in_flat_map in Hline. destruct Hline as [item [Hitem Hline]].
    apply in_map_iff in Hline. destruct Hline as [kv [<- Hkv]].
    destruct (Hcells item kv Hitem Hkv) as [C1 [C2 C3]].
    apply row_length; assumption.
Qed.

End ReportProperties.

Lemma markdown_number_of_lines_witness :
  exists lines,
    Benchmark.table_lines nat (fun _ => "71.30"%string)
      [("knn"%string, [("val_top1"%string, 1%nat); ("val_top5"%string, 2%nat)]);
       ("linear"%string, [])]
    = Ok lines
    /\ length lines = 4%nat.
Proof.
  apply (markdown_number_of_lines nat (fun _ => "71.30"%string)
           [("knn"%string,
             [("val_top1"%string, 1%nat); ("val_top5"%string, 2%nat)]);
            ("linear"%string, [])]).
  discriminate.
Defined.

Lemma markdown_lines_aligned_witness :
  exists lines w1 w2 w3,
    Benchmark.table_lines nat (fun _ => "71.30"%string)
      [("knn"%string, [("val_top1"%string, 1%nat); ("val_top5"%string, 2%nat)]);
       ("linear"%string, [])]
    = Ok lines
    /\ (9 <= w1 /\ 11 <= w2 /\ 5 <= w3)%nat
    /\ Forall (fun line => String.length line = (w1 + w2 + w3 + 10)%nat)
         lines.
Proof.
  apply (markdown_lines_aligned nat (fun _ => "71.30"%string)
           [("knn"%string,
             [("val_top1"%string, 1%nat); ("val_top5"%string, 2%nat)]);
            ("linear"%string, [])]).
  discriminate.
Defined.

Example markdown_small_table :
  Benchmark.eval_metrics_to_markdown nat (fun _ => "71.30"%string)
    [("knn"%string, [("val_top1"%string, 1%nat)])]
  = Ok ("| Eval Name | Metric Name | Value |" ++ String "010"%char ""
        ++ "|:---------:|:-----------:|:-----:|" ++ String "010"%char ""
        ++ "| knn       | val_top1    | 71.30 |")%string.
Proof. reflexivity. Qed.

(** ** The benchmark driver *)

Section DriverProperties.

Variables Model Path Value : Type.
Variable format_value : Value -> string.

Local Abbreviation Args := (Driver.Args Path).
Local Abbreviation World := (Driver.World Model Path Value).
Local Abbreviation run_main :=
  (fun (world : World) (args : Args) =>
     Driver.run Model Path Value world
       (Driver.main Model Path Value format_value args)).

Local Abbreviation requested := (Driver.requested Path).
Local Abbreviation all_skipped := (Driver.all_skipped Path).

Lemma run_sbind {A B : Type} (world : World)
  (f : A -> Driver.Script Model Path Value B) :
  forall p : Driver.Script Model Path Value A,
    Driver.run Model Path Value world (Driver.sbind Model Path Value p f)
    = match Driver.run Model Path Value world p with
      | (Driver.Fine a, log) =>
          let (r, log') := Driver.run Model Path Value world (f a) in
          (r, log ++ log')
      | (Driver.Failed e, log) => (Driver.Failed e, log)
      end.
Proof.
  induction p as [[a | e] | X c k IH]; cbn.
  - destruct (Driver.run Model Path Value world (f a)); reflexivity.
  - reflexivity.
  - rewrite IH.
    destruct (Driver.run Model Path Value world (k (world X c))) as [[a | e] log];
      [| reflexivity].
    destruct (Driver.run Model Path Value world (f a)); reflexivity.
Qed.

Lemma created_app (l1 l2 : list (Driver.event Model Path Value)) :
  Driver.created Model Path Value (l1 ++ l2)
  = Driver.created Model Path Value l1 ++ Driver.created Model Path Value l2.
Proof.
  induction l1 as [| e l1 IH]; cbn [app Driver.created]; [reflexivity |].
  destruct (Driver.created_method Model Path Value e); rewrite IH; reflexivity.
Qed.

Lemma tables_app (l1 l2 : list (Driver.event Model Path Value)) :
  Driver.tables Model Path Value (l1 ++ l2)
  = (Driver.tables Model Path Value l1
     + Driver.tables Model Path Value l2)%nat.
Proof.
  unfold Driver.tables. rewrite filter_app, length_app. reflexivity.
Qed.

Lemma markdown_ok (item : string * list (string * Value))
  (items : Benchmark.Metrics Value) :
  exists table,
    Benchmark.eval_metrics_to_markdown Value format_value (item :: items)
    = Ok table.
Proof.
  unfold Benchmark.eval_metrics_to_markdown.
  destruct (table_lines_of_nonempty Value format_value (item :: items))
    as [w1 [w2 [w3 [E _]]]]; [discriminate |].
  rewrite E. eauto.
Qed.

Ltac answer world Hw :=
  match goal with
  | |- context [world ?X ?c] =>
      let x := fresh "x" in
      let Hx := fresh "Hx" in
      destruct (Hw X c) as [x Hx]; rewrite Hx;
      cbn [Driver.run Driver.sbind Driver.perform Driver.of_result app]
  end.

(** One method whose name is known, in a world that never raises. *)
Lemma run_method_known (world : World) (args : Args) (method : string) :
  Driver.never_raises Model Path Value world ->
  In method Driver.METHOD_NAMES ->
  exists log,
    Driver.run Model Path Value world
      (Driver.run_method Model Path Value format_value args method)
    = (Driver.Fine tt, log)
    /\ Driver.created Model Path Value log = [method]
    /\ Driver.tables Model Path Value log
       = if all_skipped args then 0%nat else 1%nat.
Proof.
  intros Hw Hin. unfold Driver.run_method, Driver.all_skipped.
  destruct (in_dec string_dec method Driver.METHOD_NAMES) as [_ | Hn];
    [| contradiction].
  destruct (Driver.compile_model Path args && Driver.torch_has_compile Path args),
    (Driver.epochs Path args <=? 0)%Z, (Driver.ckpt_path Path args),
    (Driver.skip_knn_eval Path args), (Driver.skip_linear_eval Path args),
    (Driver.skip_finetune_eval Path args);
    cbn [Driver.run Driver.sbind Driver.perform andb app];
    repeat answer world Hw;
    try (match goal with
         | |- context [Benchmark.eval_metrics_to_markdown ?V ?f (?i :: ?rest)] =>
             destruct (markdown_ok i rest) as [table Htable]; rewrite Htable;
             cbn [Driver.of_result Driver.run Driver.sbind Driver.perform app]
         end);
    repeat answer world Hw;
    repeat match goal with u : unit |- _ => destruct u end;
    eexists; (split; [reflexivity | split; reflexivity]).
Qed.

Lemma run_methods_known (world : World) (args : Args) :
  Driver.never_raises Model Path Value world ->
  forall ms,
    (forall m, In m ms -> In m Driver.METHOD_NAMES) ->
    exists log,
      Driver.run Model Path Value world
        (Driver.for_in Model Path Value ms
           (Driver.run_method Model Path Value format_value args))
      = (Driver.Fine tt, log)
      /\ Driver.created Model Path Value log = ms
      /\ Driver.tables Model Path Value log
         = if all_skipped args then 0%nat else length ms.
Proof.
  intros Hw. induction ms as [| m ms IH]; intros Hknown.
  - exists []. cbn. destruct (all_skipped args); auto.
  - destruct (run_method_known world args m Hw (Hknown m (or_introl eq_refl)))
      as [log1 [E1 [C1 T1]]].
    destruct IH as [log2 [E2 [C2 T2]]];
      [intros x Hx; apply Hknown; right; exact Hx |].
    exists (log1 ++ log2). cbn [Driver.for_in].
    rewrite run_sbind, E1, E2, created_app, tables_app, C1, C2, T1, T2.
    repeat split. cbn [length]. destruct (all_skipped args); reflexivity.
Qed.

Lemma run_main_known (world : World) (args : Args) :
  Driver.never_raises Model Path Value world ->
  (forall m, In m (requested args) -> In m Driver.METHOD_NAMES) ->
  exists log,
    run_main world args = (Driver.Fine tt, log)
    /\ Driver.created Model Path Value log = requested args
    /\ Driver.tables Model Path Value log
       = if all_skipped args then 0%nat else length (requested args).
Proof.
  intros Hw Hknown.
  destruct (run_methods_known world args Hw (requested args) Hknown)
    as [log [E [C T]]].
  cbv beta. unfold Driver.main.
  cbn [Driver.run Driver.sbind Driver.perform].
  repeat answer world Hw.
  change (match Driver.methods Path args with
          | Some (m :: ms) => m :: ms
          | _ => Driver.METHOD_NAMES
          end) with (requested args).
  rewrite E. eexists. split; [reflexivity |]. split; assumption.
Qed.

(** X20. In a world where no call raises, and for method names that are all
    keys of [METHODS], [main] returns without an exception, having created a
    model for each requested method in order, and for each of the ten
    methods of [METHODS] when [methods] is [None] or empty; the report it
    prints never raises. *)
Theorem main_completes :
  forall (world : World) (args : Args),
    Driver.never_raises Model Path Value world ->
    (forall m, In m (requested args) -> In m Driver.METHOD_NAMES) ->
    exists log,
      run_main world args = (Driver.Fine tt, log)
      /\ Driver.created Model Path Value log = requested args.
Proof.
  intros world args Hw Hknown.
  destruct (run_main_known world args Hw Hknown) as [log [E [C _]]].
  exists log. auto.
Qed.

(** X21. In such a run [main] prints one table of results per method, and
    none at all when the three evaluations are skipped. *)
Theorem main_prints_tables :
  forall (world : World) (args : Args),
    Driver.never_raises Model Path Value world ->
    (forall m, In m (requested args) -> In m Driver.METHOD_NAMES) ->
    Driver.tables Model Path Value (snd (run_main world args))
    = if all_skipped args then 0%nat else length (requested args).
Proof.
  intros world args Hw Hknown.
  destruct (run_main_known world args Hw Hknown) as [log [E [_ T]]].
  cbv beta in *. rewrite E. exact T.
Qed.

Lemma run_method_unknown (world : World) (args : Args) (method : string) :
  Driver.never_raises Model Path Value world ->
  ~ In method Driver.METHOD_NAMES ->
  exists log,
    Driver.run Model Path Value world
      (Driver.run_method Model Path Value format_value args method)
    = (Driver.Failed Driver.KeyError, log)
    /\ Driver.created Model Path Value log = [].
Proof.
  intros Hw Hn. unfold Driver.run_method.
  destruct (in_dec string_dec method Driver.METHOD_NAMES) as [Hin | _];
    [contradiction |].
  cbn [Driver.run Driver.sbind Driver.perform].
  repeat answer world Hw.
  eexists. split; reflexivity.
Qed.

(** X22. A method name that is not a key of [METHODS] ends [main] with a
    [KeyError]: the methods before it have been run, and no model is created
    for it or for the methods after it. *)
Theorem main_unknown_method :
  forall (world : World) (args : Args) (before after : list string)
         (method : string),
    Driver.never_raises Model Path Value world ->
    Driver.methods Path args = Some (before ++ method :: after) ->
    (forall m, In m before -> In m Driver.METHOD_NAMES) ->
    ~ In method Driver.METHOD_NAMES ->
    exists log,
      run_main world args = (Driver.Failed Driver.KeyError, log)
      /\ Driver.created Model Path Value log = before.
Proof.
  intros world args before after method Hw Hm Hknown Hn.
  assert (Hreq : requested args = before ++ method :: after).
  { unfold Driver.requested. rewrite Hm. destruct before; reflexivity. }
  assert (Hloop : exists log,
            Driver.run Model Path Value world
              (Driver.for_in Model Path Value (before ++ method :: after)
                 (Driver.run_method Model Path Value format_value args))
            = (Driver.Failed Driver.KeyError, log)
            /\ Driver.created Model Path Value log = before).
  { clear Hm Hreq. induction before as [| b before IH].
    - destruct (run_method_unknown world args method Hw Hn) as [log [E C]].
      exists log. cbn [app Driver.for_in]. rewrite run_sbind, E. auto.
    - destruct (run_method_known world args b Hw (Hknown b (or_introl eq_refl)))
        as [log1 [E1 [C1 _]]].
      destruct IH as [log2 [E2 C2]];
        [intros x Hx; apply Hknown; right; exact Hx |].
      exists (log1 ++ log2). cbn [app Driver.for_in].
      rewrite run_sbind, E1, E2, created_app, C1, C2. auto. }
  destruct Hloop as [log [E C]].
  cbv beta. unfold Driver.main.
  cbn [Driver.run Driver.sbind Driver.perform].
  repeat answer world Hw.
  change (match Driver.methods Path args with
          | Some (m :: ms) => m :: ms
          | _ => Driver.METHOD_NAMES
          end) with (requested args).
  rewrite Hreq, E. eexists. split; [reflexivity | exact C].
Qed.

End DriverProperties.

Lemma plain_world_never_raises :
  Driver.never_raises nat nat nat Driver.plain_world.
Proof. intros X c. destruct c; eexists; reflexivity. Qed.

Lemma main_completes_witness :
  exists log,
    Driver.run nat nat nat Driver.plain_world
      (Driver.main nat nat nat (fun _ => "71.30"%string)
         (Driver.mkArgs nat 100 None false None false false false true))
    = (Driver.Fine tt, log)
    /\ Driver.created nat nat nat log = Driver.METHOD_NAMES.
Proof.
  apply (main_completes nat nat nat (fun _ => "71.30"%string)
           Driver.plain_world
           (Driver.mkArgs nat 100 None false None false false false true)).
  - exact plain_world_never_raises.
  - intros m Hm. exact Hm.
Defined.

Lemma main_prints_tables_witness :
  Driver.tables nat nat nat
    (snd (Driver.run nat nat nat Driver.plain_world
            (Driver.main nat nat nat (fun _ => "71.30"%string)
               (Driver.mkArgs nat 0 (Some 5%nat) true
                  (Some ["swav"; "dino"]%string) true true true true))))
  = 0%nat.
Proof.
  apply (main_prints_tables nat nat nat (fun _ => "71.30"%string)
           Driver.plain_world
           (Driver.mkArgs nat 0 (Some 5%nat) true
              (Some ["swav"; "dino"]%string) true true true true)).
  - exact plain_world_never_raises.
  - intros m Hm. cbn in Hm. destruct Hm as [<- | [<- | []]]; cbn; auto 12.
Defined.

Lemma main_unknown_method_witness :
  exists log,
    Driver.run nat nat nat Driver.plain_world
      (Driver.main nat nat nat (fun _ => "71.30"%string)
         (Driver.mkArgs nat 100 None false
            (Some ["swav"; "mae"; "dino"]%string) false false false true))
    = (Driver.Failed Driver.KeyError, log)
    /\ Driver.created nat nat nat log = ["swav"%string].
Proof.
  apply (main_unknown_method nat nat nat (fun _ => "71.30"%string)
           Driver.plain_world
           (Driver.mkArgs nat 100 None false
              (Some ["swav"; "mae"; "dino"]%string) false false false true)
           ["swav"%string] ["dino"%string] "mae"%string).
  - exact plain_world_never_raises.
  - reflexivity.
  - intros m Hm. destruct Hm as [<- | []]. cbn. auto 12.
  - cbn. intros H.
    repeat (destruct H as [H | H]; [discriminate H |]). exact H.
Defined.

(** ** The metrics an evaluation returns *)

Section EvalProperties.

Variable Value : Type.
Variable gt : Value -> Value -> bool.

Local Abbreviation max_of := (Eval.max_of Value gt).
Local Abbreviation max_metrics := (Eval.max_metrics Value gt).

Lemma max_of_fine :
  forall xs : list Value,
    xs <> [] -> exists v, max_of xs = Driver.Fine v.
Proof.
  intros [| x xs] Hxs; [contradiction |]. eexists. reflexivity.
Qed.

Lemma max_metrics_run :
  forall (val_metrics : list (string * list Value)) (xs1 xs5 : list Value)
         (v1 v5 : Value),
    Eval.getitem val_metrics "val_top1" = Driver.Fine xs1 ->
    max_of xs1 = Driver.Fine v1 ->
    Eval.getitem val_metrics "val_top5" = Driver.Fine xs5 ->
    max_of xs5 = Driver.Fine v5 ->
    max_metrics val_metrics
    = (Driver.Fine [("val_top1"%string, v1); ("val_top5"%string, v5)],
       [("val_top1"%string, v1); ("val_top5"%string, v5)]).
Proof.
  intros val_metrics xs1 xs5 v1 v5 H1 M1 H5 M5.
  unfold Eval.max_metrics, Eval.metrics_loop.
  rewrite H1, M1, H5, M5. reflexivity.
Qed.

Lemma max_metrics_cases :
  forall val_metrics : list (string * list Value),
    match max_metrics val_metrics with
    | (Driver.Fine d, printed) =>
        (exists xs1 xs5,
            Eval.getitem val_metrics "val_top1" = Driver.Fine xs1
            /\ xs1 <> []
            /\ Eval.getitem val_metrics "val_top5" = Driver.Fine xs5
            /\ xs5 <> [])
        /\ map fst d = ["val_top1"; "val_top5"]%string
        /\ printed = d
    | (Driver.Failed Driver.KeyError, _) =>
        Eval.getitem val_metrics "val_top1" = Driver.Failed Driver.KeyError
        \/ Eval.getitem val_metrics "val_top5" = Driver.Failed Driver.KeyError
    | (Driver.Failed (Driver.Raised e), _) =>
        e = ValueError
        /\ (Eval.getitem val_metrics "val_top1" = Driver.Fine []
            \/ Eval.getitem val_metrics "val_top5" = Driver.Fine [])
    end.
Proof.
  intros val_metrics.
  assert (Hget : forall (d : list (string * list Value)) key f,
             Eval.getitem d key = Driver.Failed f -> f = Driver.KeyError).
  { induction d as [| [k v] d IH]; intros key f; cbn.
    - intros [= <-]. reflexivity.
    - destruct (String.eqb k key); [discriminate | apply IH]. }
  unfold Eval.max_metrics, Eval.metrics_loop.
  destruct (Eval.getitem val_metrics "val_top1") as [[| x1 xs1] | f1] eqn:H1;
    cbn.
  - split; [reflexivity | left; reflexivity].
  - destruct (Eval.getitem val_metrics "val_top5") as [[| x5 xs5] | f5]
      eqn:H5; cbn.
    + split; [reflexivity | right; reflexivity].
    + split; [| split; reflexivity].
      exists (x1 :: xs1), (x5 :: xs5).
      repeat split; try reflexivity; discriminate.
    + rewrite (Hget _ _ _ H5). right. reflexivity.
  - rewrite (Hget _ _ _ H1). left. reflexivity.
Qed.

(** X23. The loop that closes [finetune_eval] and [linear_eval] returns
    exactly when [val_top1] and [val_top5] have both been recorded at least
    once; a metric that was never recorded raises a [KeyError], one whose
    list is empty a [ValueError].  What it returns has the two keys in this
    order, and is what it printed. *)
Theorem max_metrics_returns_iff_recorded :
  forall val_metrics : list (string * list Value),
    match max_metrics val_metrics with
    | (Driver.Fine d, printed) =>
        (exists xs1 xs5,
            Eval.getitem val_metrics "val_top1" = Driver.Fine xs1
            /\ xs1 <> []
            /\ Eval.getitem val_metrics "val_top5" = Driver.Fine xs5
            /\ xs5 <> [])
        /\ map fst d = ["val_top1"; "val_top5"]%string
        /\ printed = d
    | (Driver.Failed Driver.KeyError, _) =>
        Eval.getitem val_metrics "val_top1" = Driver.Failed Driver.KeyError
        \/ Eval.getitem val_metrics "val_top5" = Driver.Failed Driver.KeyError
    | (Driver.Failed (Driver.Raised e), _) =>
        e = ValueError
        /\ (Eval.getitem val_metrics "val_top1" = Driver.Fine []
            \/ Eval.getitem val_metrics "val_top5" = Driver.Fine [])
    end.
Proof. exact max_metrics_cases. Qed.

Lemma max_of_greatest :
  (forall a b, gt a b = true -> gt b a = false) ->
  (forall a b c, gt a b = false -> gt b c = false -> gt a c = false) ->
  forall (xs : list Value) (v : Value),
    max_of xs = Driver.Fine v ->
    In v xs /\ forall x, In x xs -> gt x v = false.
Proof.
  intros Hasym Htrans [| x0 xs] v; [discriminate |].
  cbn. intros [= <-].
  assert (Hirr : forall a, gt a a = false).
  { intros a. destruct (gt a a) eqn:Ha; [| reflexivity].
    rewrite <- Ha at 1. apply Hasym. exact Ha. }
  assert (Hfold : forall (ys : list Value) (m : Value),
             let r := fold_left
                        (fun m item => if gt item m then item else m) ys m in
             (r = m \/ In r ys)
             /\ gt m r = false
             /\ forall y, In y ys -> gt y r = false).
  { induction ys as [| y ys IH]; intros m; cbn.
    - split; [left; reflexivity |]. split; [apply Hirr | intros y []].
    - destruct (IH (if gt y m then y else m)) as (Hin & Hm & Hall).
      cbn in Hin, Hm, Hall.
      destruct (gt y m) eqn:Hym.
      + split; [| split].
        * destruct Hin as [-> | Hin]; [right; left; reflexivity |].
          right. right. exact Hin.
        * apply (Htrans m y); [apply Hasym; exact Hym | exact Hm].
        * intros z [<- | Hz]; [exact Hm | apply Hall; exact Hz].
      + split; [| split].
        * destruct Hin as [-> | Hin]; [left; reflexivity |].
          right. right. exact Hin.
        * exact Hm.
        * intros z [<- | Hz]; [| apply Hall; exact Hz].
          apply (Htrans y m); [exact Hym | exact Hm]. }
  destruct (Hfold xs x0) as (Hin & Hm & Hall). cbn in Hin, Hm, Hall.
  split.
  - destruct Hin as [-> | Hin]; [left; reflexivity | right; exact Hin].
  - intros x [<- | Hx]; [exact Hm | apply Hall; exact Hx].
Qed.

(** X24. When [>] orders the values ([a > b] excludes [b > a], and
    not-greater is transitive) and both metrics have been recorded, the value
    returned for a metric is one of its recorded values, and no recorded
    value is greater. *)
Theorem max_metrics_returns_maxima :
  forall (val_metrics : list (string * list Value)) (xs1 xs5 : list Value),
    (forall a b, gt a b = true -> gt b a = false) ->
    (forall a b c, gt a b = false -> gt b c = false -> gt a c = false) ->
    Eval.getitem val_metrics "val_top1" = Driver.Fine xs1 -> xs1 <> [] ->
    Eval.getitem val_metrics "val_top5" = Driver.Fine xs5 -> xs5 <> [] ->
    exists v1 v5,
      fst (max_metrics val_metrics)
      = Driver.Fine [("val_top1"%string, v1); ("val_top5"%string, v5)]
      /\ (In v1 xs1 /\ forall x, In x xs1 -> gt x v1 = false)
      /\ (In v5 xs5 /\ forall x, In x xs5 -> gt x v5 = false).
Proof.
  intros val_metrics xs1 xs5 Hasym Htrans H1 N1 H5 N5.
  destruct (max_of_fine xs1 N1) as [v1 M1].
  destruct (max_of_fine xs5 N5) as [v5 M5].
  exists v1, v5.
  rewrite (max_metrics_run val_metrics _ _ _ _ H1 M1 H5 M5).
  split; [reflexivity |].
  split; apply (max_of_greatest Hasym Htrans); assumption.
Qed.

(** X25. The metrics an evaluation returns make, in the report of [main], a
    table of four lines: the header, the separator, and one line for each of
    [val_top1] and [val_top5]. *)
Theorem max_metrics_table :
  forall (val_metrics : list (string * list Value))
         (d : list (string * Value)) (format_value : Value -> string)
         (eval_name : string),
    fst (max_metrics val_metrics) = Driver.Fine d ->
    exists lines,
      Benchmark.table_lines Value format_value [(eval_name, d)] = Ok lines
      /\ length lines = 4%nat
      /\ exists text,
           Benchmark.eval_metrics_to_markdown Value format_value
             [(eval_name, d)] = Ok text.
Proof.
  intros val_metrics d format_value eval_name Hd.
  pose proof (max_metrics_cases val_metrics) as H.
  rewrite (surjective_pairing (max_metrics val_metrics)) in H.
  rewrite Hd in H.
  destruct H as (_ & Hkeys & _).
  destruct d as [| [k1 w1] [| [k5 w5] [| ? ?]]]; try discriminate Hkeys.
  unfold Benchmark.eval_metrics_to_markdown.
  eexists. split; [reflexivity |]. split; [reflexivity |].
  eexists. reflexivity.
Qed.

End EvalProperties.

Lemma max_metrics_returns_maxima_witness :
  exists v1 v5,
    fst (Eval.max_metrics Z Z.gtb
           [("val_top5"%string, [90; 95; 93]%Z);
            ("val_top1"%string, [70; 72; 72; 71]%Z)])
    = Driver.Fine [("val_top1"%string, v1); ("val_top5"%string, v5)]
    /\ (In v1 [70; 72; 72; 71]%Z
        /\ forall x, In x [70; 72; 72; 71]%Z -> Z.gtb x v1 = false)
    /\ (In v5 [90; 95; 93]%Z
        /\ forall x, In x [90; 95; 93]%Z -> Z.gtb x v5 = false).
Proof.
  apply (max_metrics_returns_maxima Z Z.gtb
           [("val_top5"%string, [90; 95; 93]%Z);
            ("val_top1"%string, [70; 72; 72; 71]%Z)]
           [70; 72; 72; 71]%Z [90; 95; 93]%Z).
  - intros a b H. apply Z.gtb_lt in H. rewrite Z.gtb_ltb.
    apply Z.ltb_ge. lia.
  - intros a b c H1 H2. rewrite Z.gtb_ltb in *.
    apply Z.ltb_ge in H1, H2. apply Z.ltb_ge. lia.
  - reflexivity.
  - discriminate.
  - reflexivity.
  - discriminate.
Defined.

Lemma max_metrics_table_witness :
  exists lines,
    Benchmark.table_lines Z (fun _ => "72.00"%string)
      [("finetune"%string,
        [("val_top1"%string, 72%Z); ("val_top5"%string, 95%Z)])]
    = Ok lines
    /\ length lines = 4%nat
    /\ exists text,
         Benchmark.eval_metrics_to_markdown Z (fun _ => "72.00"%string)
           [("finetune"%string,
             [("val_top1"%string, 72%Z); ("val_top5"%string, 95%Z)])]
         = Ok text.
Proof.
  apply (max_metrics_table Z Z.gtb
           [("val_top5"%string, [90; 95; 93]%Z);
            ("val_top1"%string, [70; 72; 72; 71]%Z)]).
  reflexivity.
Defined.

(** ** The version check of the package *)

(** X26. Once the package has been imported with an environment, an import
    with the environment it left (in the same or in a child process, whatever
    its name) never starts the version check and leaves the environment as it
    is; this also holds when the first import was not in the main process and
    so started no check itself. *)
Theorem import_package_checks_once :
  forall (env : Lightly.Env) (first later : string),
    Lightly.import_package (fst (Lightly.import_package env first)) later
    = (fst (Lightly.import_package env first), false).
Proof.
  intros env first later.
  unfold Lightly.import_package at 2 3.
  destruct (String.eqb
              (Lightly.getenv env "LIGHTLY_DID_VERSION_CHECK" "False")
              "False") eqn:Hflag.
  - assert (Hset :
      Lightly.import_package
        (Lightly.setenv env "LIGHTLY_DID_VERSION_CHECK" "True") later
      = (Lightly.setenv env "LIGHTLY_DID_VERSION_CHECK" "True", false))
      by reflexivity.
    destruct (String.eqb first "MainProcess"); exact Hset.
  - cbn [fst]. unfold Lightly.import_package. rewrite Hflag. reflexivity.
Qed.
